(** * Grit engine: the object registry and object lifecycle (engine/grit_object.cpp)

    A shallow embedding of [grit_object.cpp] and the properties of its
    specification that were checked against it.

    - Objects live in a heap indexed by handles (a [GritObjectPtr] is a
      shared pointer, so a record outlives its removal from the registry
      as long as somebody holds the handle).
    - The file-level statics ([objs], the two callback sets, the name
      counter) and the state of the collaborators (class table, streamer,
      Lua registry) form one explicit [World] that every operation threads.
    - A scripted hook is a value of type [script]: a list of calls back
      into the registry followed by a normal return or a raised error.
      Hooks are run by [lua_pcall], which is defined by recursion on a
      depth budget because hooks re-enter the operations that run them.
    - A [float] is the rational number it stands for. The fade
      calculator is given twice: [calcFade] computes in exact arithmetic,
      [calcFade_binary32] rounds every operation to binary32 as the
      program does; [::sqrtf] is a parameter of both. *)

From Stdlib Require Import ZArith QArith Lqa String Qround Qpower.
From Stdlib Require Import Floats.SpecFloat.
From stdpp Require Import gmap strings list sorting pretty.

Local Open Scope string_scope.

(* ================================================================= *)
(** ** Data model *)

(** A [GritObjectPtr] is the address of the shared record; the null
    pointer is [None] at type [option handle]. *)
Definition handle := positive.

(** A [GritClass *]. *)
Definition class_ptr := positive.

Definition Vector3 : Type := Q * Q * Q.

Definition LUA_NOREF : Z := (-2)%Z.

(** *** Scripted hooks *)

(** The object a call made by a hook is aimed at: the hook's own
    argument, or a handle the script got hold of earlier. *)
Inductive target :=
| TSelf
| TObj (h : handle).

(** The calls into this file that the scripting interface offers. *)
Inductive cmd :=
| CDel (t : target)                       (* object_del *)
| CAdd (name : string) (c : class_ptr)    (* object_add *)
| CSetNeedsFrame (t : target) (v : bool)  (* setNeedsFrameCallbacks *)
| CSetNeedsStep (t : target) (v : bool)   (* setNeedsStepCallbacks *)
| CActivate (t : target)                  (* activate *)
| CDeactivate (t : target).               (* deactivate *)

(** How the hook ends once its calls are made. *)
Inductive completion :=
| Returns (v : bool)
| Raises.

Record script := Script {
  body : list cmd;
  finish : completion
}.

(** What [lua_pcall] reports: status 0 and the value returned (read with
    [lua_toboolean]), or a non-zero status. *)
Inductive pcall_result :=
| POk (v : bool)
| PErr.

(** *** Classes and objects *)

Record GritClass := mkClass {
  cname : string;
  refCount : Z;
  cfields : gmap string script
}.

Record GritObject := mkObject {
  name : string;
  anonymous : bool;
  gritClass : option class_ptr;
  lua : Z;
  needsFrameCallbacks : bool;
  needsStepCallbacks : bool;
  demandRegistered : bool;
  imposedFarFade : Q;
  lastFade : Q;
  pos : Vector3;
  r : Q;
  index : Z;
  nearObj : option handle;
  farObj : option handle;
  userValues : gmap string script;
  demand_loaded : bool;
  demand_loadable : bool
}.

(** *** The world *)

Record World := mkWorld {
  heap : gmap handle GritObject;
  classes : gmap class_ptr GritClass;
  (* statics of grit_object.cpp *)
  objs : gmap string handle;
  objs_needing_frame_callbacks : gset handle;
  objs_needing_step_callbacks : gset handle;
  name_generation_counter : N;
  (* streamer *)
  streamer_activated : gset handle;
  streamer_next_index : Z;
  streamer_spheres : gmap Z (Vector3 * Q);
  streamer_fade_out_factor : Q;
  streamer_fade_overlap_factor : Q;
  (* scripting host *)
  lua_next_ref : Z;
  calls : list (handle * string)
}.

Definition set_heap (f : gmap handle GritObject → gmap handle GritObject) (w : World) : World :=
  mkWorld (f (heap w)) (classes w) (objs w) (objs_needing_frame_callbacks w)
    (objs_needing_step_callbacks w) (name_generation_counter w) (streamer_activated w)
    (streamer_next_index w) (streamer_spheres w) (streamer_fade_out_factor w)
    (streamer_fade_overlap_factor w) (lua_next_ref w) (calls w).

Definition set_classes (f : gmap class_ptr GritClass → gmap class_ptr GritClass) (w : World) : World :=
  mkWorld (heap w) (f (classes w)) (objs w) (objs_needing_frame_callbacks w)
    (objs_needing_step_callbacks w) (name_generation_counter w) (streamer_activated w)
    (streamer_next_index w) (streamer_spheres w) (streamer_fade_out_factor w)
    (streamer_fade_overlap_factor w) (lua_next_ref w) (calls w).

Definition set_objs (f : gmap string handle → gmap string handle) (w : World) : World :=
  mkWorld (heap w) (classes w) (f (objs w)) (objs_needing_frame_callbacks w)
    (objs_needing_step_callbacks w) (name_generation_counter w) (streamer_activated w)
    (streamer_next_index w) (streamer_spheres w) (streamer_fade_out_factor w)
    (streamer_fade_overlap_factor w) (lua_next_ref w) (calls w).

Definition set_frame_set (f : gset handle → gset handle) (w : World) : World :=
  mkWorld (heap w) (classes w) (objs w) (f (objs_needing_frame_callbacks w))
    (objs_needing_step_callbacks w) (name_generation_counter w) (streamer_activated w)
    (streamer_next_index w) (streamer_spheres w) (streamer_fade_out_factor w)
    (streamer_fade_overlap_factor w) (lua_next_ref w) (calls w).

Definition set_step_set (f : gset handle → gset handle) (w : World) : World :=
  mkWorld (heap w) (classes w) (objs w) (objs_needing_frame_callbacks w)
    (f (objs_needing_step_callbacks w)) (name_generation_counter w) (streamer_activated w)
    (streamer_next_index w) (streamer_spheres w) (streamer_fade_out_factor w)
    (streamer_fade_overlap_factor w) (lua_next_ref w) (calls w).

Definition set_counter (k : N) (w : World) : World :=
  mkWorld (heap w) (classes w) (objs w) (objs_needing_frame_callbacks w)
    (objs_needing_step_callbacks w) k (streamer_activated w)
    (streamer_next_index w) (streamer_spheres w) (streamer_fade_out_factor w)
    (streamer_fade_overlap_factor w) (lua_next_ref w) (calls w).

Definition set_activated (f : gset handle → gset handle) (w : World) : World :=
  mkWorld (heap w) (classes w) (objs w) (objs_needing_frame_callbacks w)
    (objs_needing_step_callbacks w) (name_generation_counter w) (f (streamer_activated w))
    (streamer_next_index w) (streamer_spheres w) (streamer_fade_out_factor w)
    (streamer_fade_overlap_factor w) (lua_next_ref w) (calls w).

Definition set_next_index (i : Z) (w : World) : World :=
  mkWorld (heap w) (classes w) (objs w) (objs_needing_frame_callbacks w)
    (objs_needing_step_callbacks w) (name_generation_counter w) (streamer_activated w)
    i (streamer_spheres w) (streamer_fade_out_factor w)
    (streamer_fade_overlap_factor w) (lua_next_ref w) (calls w).

Definition set_spheres (f : gmap Z (Vector3 * Q) → gmap Z (Vector3 * Q)) (w : World) : World :=
  mkWorld (heap w) (classes w) (objs w) (objs_needing_frame_callbacks w)
    (objs_needing_step_callbacks w) (name_generation_counter w) (streamer_activated w)
    (streamer_next_index w) (f (streamer_spheres w)) (streamer_fade_out_factor w)
    (streamer_fade_overlap_factor w) (lua_next_ref w) (calls w).

Definition set_lua_next_ref (i : Z) (w : World) : World :=
  mkWorld (heap w) (classes w) (objs w) (objs_needing_frame_callbacks w)
    (objs_needing_step_callbacks w) (name_generation_counter w) (streamer_activated w)
    (streamer_next_index w) (streamer_spheres w) (streamer_fade_out_factor w)
    (streamer_fade_overlap_factor w) i (calls w).

Definition set_calls (f : list (handle * string) → list (handle * string)) (w : World) : World :=
  mkWorld (heap w) (classes w) (objs w) (objs_needing_frame_callbacks w)
    (objs_needing_step_callbacks w) (name_generation_counter w) (streamer_activated w)
    (streamer_next_index w) (streamer_spheres w) (streamer_fade_out_factor w)
    (streamer_fade_overlap_factor w) (lua_next_ref w) (f (calls w)).

(** Field updates of one object. *)
Definition obj_set_anonymous (b : bool) (o : GritObject) : GritObject :=
  mkObject (name o) b (gritClass o) (lua o) (needsFrameCallbacks o) (needsStepCallbacks o)
    (demandRegistered o) (imposedFarFade o) (lastFade o) (pos o) (r o) (index o)
    (nearObj o) (farObj o) (userValues o) (demand_loaded o) (demand_loadable o).

Definition obj_set_gritClass (k : option class_ptr) (o : GritObject) : GritObject :=
  mkObject (name o) (anonymous o) k (lua o) (needsFrameCallbacks o) (needsStepCallbacks o)
    (demandRegistered o) (imposedFarFade o) (lastFade o) (pos o) (r o) (index o)
    (nearObj o) (farObj o) (userValues o) (demand_loaded o) (demand_loadable o).

Definition obj_set_lua (l : Z) (o : GritObject) : GritObject :=
  mkObject (name o) (anonymous o) (gritClass o) l (needsFrameCallbacks o) (needsStepCallbacks o)
    (demandRegistered o) (imposedFarFade o) (lastFade o) (pos o) (r o) (index o)
    (nearObj o) (farObj o) (userValues o) (demand_loaded o) (demand_loadable o).

Definition obj_set_needsFrameCallbacks (v : bool) (o : GritObject) : GritObject :=
  mkObject (name o) (anonymous o) (gritClass o) (lua o) v (needsStepCallbacks o)
    (demandRegistered o) (imposedFarFade o) (lastFade o) (pos o) (r o) (index o)
    (nearObj o) (farObj o) (userValues o) (demand_loaded o) (demand_loadable o).

Definition obj_set_needsStepCallbacks (v : bool) (o : GritObject) : GritObject :=
  mkObject (name o) (anonymous o) (gritClass o) (lua o) (needsFrameCallbacks o) v
    (demandRegistered o) (imposedFarFade o) (lastFade o) (pos o) (r o) (index o)
    (nearObj o) (farObj o) (userValues o) (demand_loaded o) (demand_loadable o).

Definition obj_set_imposedFarFade (q : Q) (o : GritObject) : GritObject :=
  mkObject (name o) (anonymous o) (gritClass o) (lua o) (needsFrameCallbacks o)
    (needsStepCallbacks o) (demandRegistered o) q (lastFade o) (pos o) (r o) (index o)
    (nearObj o) (farObj o) (userValues o) (demand_loaded o) (demand_loadable o).

Definition obj_set_lastFade (q : Q) (o : GritObject) : GritObject :=
  mkObject (name o) (anonymous o) (gritClass o) (lua o) (needsFrameCallbacks o)
    (needsStepCallbacks o) (demandRegistered o) (imposedFarFade o) q (pos o) (r o) (index o)
    (nearObj o) (farObj o) (userValues o) (demand_loaded o) (demand_loadable o).

Definition obj_set_sphere (p : Vector3) (rad : Q) (o : GritObject) : GritObject :=
  mkObject (name o) (anonymous o) (gritClass o) (lua o) (needsFrameCallbacks o)
    (needsStepCallbacks o) (demandRegistered o) (imposedFarFade o) (lastFade o) p rad (index o)
    (nearObj o) (farObj o) (userValues o) (demand_loaded o) (demand_loadable o).

Definition obj_set_index (i : Z) (o : GritObject) : GritObject :=
  mkObject (name o) (anonymous o) (gritClass o) (lua o) (needsFrameCallbacks o)
    (needsStepCallbacks o) (demandRegistered o) (imposedFarFade o) (lastFade o) (pos o) (r o) i
    (nearObj o) (farObj o) (userValues o) (demand_loaded o) (demand_loadable o).

Definition obj_set_nearObj (n : option handle) (o : GritObject) : GritObject :=
  mkObject (name o) (anonymous o) (gritClass o) (lua o) (needsFrameCallbacks o)
    (needsStepCallbacks o) (demandRegistered o) (imposedFarFade o) (lastFade o) (pos o) (r o)
    (index o) n (farObj o) (userValues o) (demand_loaded o) (demand_loadable o).

Definition obj_set_farObj (n : option handle) (o : GritObject) : GritObject :=
  mkObject (name o) (anonymous o) (gritClass o) (lua o) (needsFrameCallbacks o)
    (needsStepCallbacks o) (demandRegistered o) (imposedFarFade o) (lastFade o) (pos o) (r o)
    (index o) (nearObj o) n (userValues o) (demand_loaded o) (demand_loadable o).

Definition obj_set_userValues (u : gmap string script) (o : GritObject) : GritObject :=
  mkObject (name o) (anonymous o) (gritClass o) (lua o) (needsFrameCallbacks o)
    (needsStepCallbacks o) (demandRegistered o) (imposedFarFade o) (lastFade o) (pos o) (r o)
    (index o) (nearObj o) (farObj o) u (demand_loaded o) (demand_loadable o).

Definition obj_set_demand_loaded (b : bool) (o : GritObject) : GritObject :=
  mkObject (name o) (anonymous o) (gritClass o) (lua o) (needsFrameCallbacks o)
    (needsStepCallbacks o) (demandRegistered o) (imposedFarFade o) (lastFade o) (pos o) (r o)
    (index o) (nearObj o) (farObj o) (userValues o) b (demand_loadable o).

(** [alter_obj f h] is the write [h->field = ...] through a handle. *)
Definition alter_obj (f : GritObject → GritObject) (h : handle) (w : World) : World :=
  set_heap (alter f h) w.

(* ================================================================= *)
(** ** Outcomes *)

(** An operation returns, throws a C++ exception ([GRIT_EXCEPT]), goes
    through a null or dangling pointer, or does not come back within the
    depth budget. *)
Inductive outcome (A : Type) :=
| Ret (a : A) (w : World)
| Throw (msg : string) (w : World)
| Fault
| Diverge.

Arguments Ret {A} a w.
Arguments Throw {A} msg w.
Arguments Fault {A}.
Arguments Diverge {A}.

Definition M (A : Type) : Type := World → outcome A.

Definition ret {A} (a : A) : M A := fun w => Ret a w.

Definition bind {A B} (m : M A) (k : A → M B) : M B :=
  fun w =>
    match m w with
    | Ret a w' => k a w'
    | Throw msg w' => Throw msg w'
    | Fault => Fault
    | Diverge => Diverge
    end.

Notation "'do' x <- m ; k" := (bind m (fun x => k))
  (at level 10, x name, m at level 100, k at level 200).
Notation "m ;; k" := (bind m (fun _ => k))
  (at level 100, k at level 200, right associativity).

Definition GRIT_EXCEPT {A} (msg : string) : M A := fun w => Throw msg w.

Definition modify (f : World → World) : M unit := fun w => Ret tt (f w).

(** Dereference of a handle. *)
Definition deref (h : handle) : M GritObject :=
  fun w => match heap w !! h with Some o => Ret o w | None => Fault end.

Definition deref_class (k : class_ptr) : M GritClass :=
  fun w => match classes w !! k with Some c => Ret c w | None => Fault end.

(* ================================================================= *)
(** ** Collaborators

    The header [grit_object.h], the class table, the streamer, the demand
    loader and the scripting host are outside [grit_object.cpp]. *)

(** Modelled from the spec: [GritObject::isActivated] is declared in the
    header; the activation flag is derived: the scripted-instance handle
    is valid, and it is the "no reference" sentinel otherwise. *)
Definition isActivated (o : GritObject) : bool :=
  negb (Z.eqb (lua o) LUA_NOREF).

(** Modelled from the spec: [GritClass::acquire] and [GritClass::release]
    are the acquire/release reference counting of the class table. *)
Definition class_acquire (k : class_ptr) : M unit :=
  do c <- deref_class k;
  modify (set_classes <[k := mkClass (cname c) (refCount c + 1) (cfields c)]>).

Definition class_release (k : class_ptr) : M unit :=
  do c <- deref_class k;
  modify (set_classes <[k := mkClass (cname c) (refCount c - 1) (cfields c)]>).

(** Modelled from the spec: [GritClass::get] is the lookup of a shared
    behaviour by name; an absent field reads as nil. *)
Definition class_get (k : class_ptr) (f : string) : M (option script) :=
  do c <- deref_class k; ret (cfields c !! f).

(** Modelled from the spec: [setNearObj] and [setFarObj] are defined in the
    header. The near/far references are weak back-references of each
    other, and each direction is unlinked independently: the old
    neighbour's reference back is dropped, then the new neighbour (if any)
    is made to point back. *)
Definition setNearObj (self : handle) (v : option handle) : M unit :=
  do o <- deref self;
  if decide (nearObj o = v) then ret tt
  else
    (match nearObj o with
     | Some n => modify (alter_obj (obj_set_farObj None) n)
     | None => ret tt
     end) ;;
    modify (alter_obj (obj_set_nearObj v) self) ;;
    match v with
    | Some n => modify (alter_obj (obj_set_farObj (Some self)) n)
    | None => ret tt
    end.

Definition setFarObj (self : handle) (v : option handle) : M unit :=
  do o <- deref self;
  if decide (farObj o = v) then ret tt
  else
    (match farObj o with
     | Some n => modify (alter_obj (obj_set_nearObj None) n)
     | None => ret tt
     end) ;;
    modify (alter_obj (obj_set_farObj v) self) ;;
    match v with
    | Some n => modify (alter_obj (obj_set_nearObj (Some self)) n)
    | None => ret tt
    end.

(** Modelled from the spec: [streamer_list] and [streamer_unlist] enter a
    record into the spatial index and take it out; the record's [index] is
    the slot it occupies, or the unindexed sentinel [-1]. Both tolerate a
    record that is already in the state asked for. *)
Definition streamer_list (h : handle) : M unit :=
  do o <- deref h;
  if decide (index o = (-1)%Z) then
    fun w =>
      let i := streamer_next_index w in
      Ret tt (set_next_index (i + 1)
               (set_spheres <[i := (pos o, r o)]>
                 (alter_obj (obj_set_index i) h w)))
  else ret tt.

Definition streamer_unlist (h : handle) : M unit :=
  do o <- deref h;
  if decide (index o = (-1)%Z) then ret tt
  else
    modify (fun w => set_spheres (delete (index o))
                       (alter_obj (obj_set_index (-1)) h w)).

(** Modelled from the spec: [streamer_update_sphere(index, position,
    radius)] overwrites the sphere stored in a slot. *)
Definition streamer_update_sphere (i : Z) (p : Vector3) (rad : Q) : M unit :=
  modify (set_spheres <[i := (p, rad)]>).

(** Modelled from the spec: [streamer_list_as_activated] and
    [streamer_unlist_as_activated] maintain the streamer's set of
    activated records. *)
Definition streamer_list_as_activated (h : handle) : M unit :=
  modify (set_activated (fun s => {[h]} ∪ s)).

Definition streamer_unlist_as_activated (h : handle) : M unit :=
  modify (set_activated (fun s => s ∖ {[h]})).

(** Modelled from the spec: the demand-load system answers [loaded()],
    loads at once with [immediateLoad()] (which may raise) and drops the
    resources it holds when the record is destroyed. [immediateLoad]
    returns [false] where the C++ throws. *)
Definition demand_immediateLoad (h : handle) : M bool :=
  do o <- deref h;
  if demand_loadable o then
    modify (alter_obj (obj_set_demand_loaded true) h) ;; ret true
  else ret false.

Definition tryUnloadResources (h : handle) : M unit :=
  modify (alter_obj (obj_set_demand_loaded false) h).

(** Modelled from the spec: [luaL_ref] hands out a reference to a fresh
    per-instance state table; [luaL_unref] releases it. *)
Definition luaL_ref : M Z :=
  fun w => Ret (lua_next_ref w) (set_lua_next_ref (lua_next_ref w + 1) w).

Definition luaL_unref (ref : Z) : M unit := ret tt.

(** [lua_pcall] of a resolved hook [s] on [self]: the call is recorded and
    handed to the host. *)
Definition runner : Type := handle → script → M pcall_result.

Definition lua_pcall (run : runner) (self : handle) (f : string) (s : script)
  : M pcall_result :=
  modify (set_calls (fun l => (l ++ [(self, f)])%list)) ;; run self s.

(* ================================================================= *)
(** ** GritObject *)

(** The constructor. The members it does not mention start out as the
    header leaves them: no neighbours, no instance values, unindexed,
    nothing loaded. *)
Definition new_GritObject (name_ : string) (gritClass_ : class_ptr) : M handle :=
  fun w =>
    let self := fresh (dom (heap w)) in
    let o := mkObject name_ false (Some gritClass_) LUA_NOREF false false false
               1 (-1) (0, 0, 0)%Q 0 (-1) None None ∅ false true in
    (class_acquire gritClass_ ;; ret self) (set_heap <[self := o]> w).

Definition getField (self : handle) (f : string) : M (option script) :=
  do o <- deref self;
  match gritClass o with
  | None => GRIT_EXCEPT "Object destroyed"
  | Some k =>
      match userValues o !! f with
      | Some s => ret (Some s)
      | None => class_get k f
      end
  end.

Definition setNeedsFrameCallbacks (self : handle) (v : bool) : M unit :=
  do o <- deref self;
  match gritClass o with
  | None => GRIT_EXCEPT "Object destroyed"
  | Some _ =>
      if decide (v = needsFrameCallbacks o) then ret tt
      else
        modify (alter_obj (obj_set_needsFrameCallbacks v) self) ;;
        if negb v then modify (set_frame_set (fun s => s ∖ {[self]}))
        else modify (set_frame_set (fun s => {[self]} ∪ s))
  end.

Definition setNeedsStepCallbacks (self : handle) (v : bool) : M unit :=
  do o <- deref self;
  match gritClass o with
  | None => GRIT_EXCEPT "Object destroyed"
  | Some _ =>
      if decide (v = needsStepCallbacks o) then ret tt
      else
        modify (alter_obj (obj_set_needsStepCallbacks v) self) ;;
        if negb v then modify (set_step_set (fun s => s ∖ {[self]}))
        else modify (set_step_set (fun s => {[self]} ∪ s))
  end.

Definition updateSphere (self : handle) (pos_ : Vector3) (r_ : Q) : M unit :=
  do o <- deref self;
  if decide (index o = (-1)%Z) then ret tt
  else
    modify (alter_obj (obj_set_sphere pos_ r_) self) ;;
    streamer_update_sphere (index o) pos_ r_.

Definition updateSphere_pos (self : handle) (pos_ : Vector3) : M unit :=
  do o <- deref self; updateSphere self pos_ (r o).

Definition updateSphere_r (self : handle) (r_ : Q) : M unit :=
  do o <- deref self; updateSphere self (pos o) r_.

Section Fade.

(** [::sqrtf]. *)
Variable sqrtf : Q → Q.

(** [calcFade (range2, overlap)]: returns the fade and the value left
    in the by-reference [overlap]. *)
Definition calcFade (self : handle) (range2 : Q) (overlap : bool) : M (Q * bool) :=
  do o <- deref self;
  do the_near <- match nearObj o with
                 | Some n => do no <- deref n; ret (Some no)
                 | None => ret None
                 end;
  fun w =>
    let out := streamer_fade_out_factor w in
    let over := streamer_fade_overlap_factor w in
    let range := sqrtf range2 in
    let '(fade, overlap) :=
      match the_near with
      | Some no =>
          if isActivated no then
            (imposedFarFade no,
             if Qlt_le_dec (imposedFarFade no) 1 then true else overlap)
          else (1%Q, overlap)
      | None => (1%Q, overlap)
      end in
    let '(fade, imposed) :=
      match farObj o with
      | None =>
          (if Qlt_le_dec out range then (1 - range) / (1 - out) else fade, 1)%Q
      | Some _ =>
          let overmid := ((over + 1) / 2)%Q in
          if Qlt_le_dec overmid range then ((1 - range) / (1 - overmid), 1)%Q
          else if Qlt_le_dec over range then
            (fade, 1 - (overmid - range) / (overmid - over))%Q
          else (fade, 0%Q)
      end in
    let fade := if Qlt_le_dec fade 0 then 0%Q else fade in
    let imposed := if Qlt_le_dec imposed 0 then 0%Q else imposed in
    Ret (fade, overlap) (alter_obj (obj_set_imposedFarFade imposed) self w).

End Fade.

Section Lifecycle.

(** The scripting host that [lua_pcall] hands a resolved hook to. *)
Variable run : runner.

Definition deactivate (self : handle) : M bool :=
  do o <- deref self;
  match gritClass o with
  | None => GRIT_EXCEPT "Object destroyed"
  | Some _ =>
      if negb (isActivated o) then ret false
      else
        streamer_unlist_as_activated self ;;
        do f <- getField self "deactivate";
        match f with
        | None =>
            do o1 <- deref self;
            luaL_unref (lua o1) ;;
            modify (alter_obj (obj_set_lua LUA_NOREF) self) ;;
            ret true
        | Some s =>
            do status <- lua_pcall run self "deactivate" s;
            let killme := match status with PErr => true | POk v => v end in
            do o1 <- deref self;
            luaL_unref (lua o1) ;;
            modify (alter_obj (obj_set_lua LUA_NOREF) self) ;;
            ret killme
        end
  end.

Definition destroy (self : handle) : M unit :=
  do o <- deref self;
  match gritClass o with
  | None => ret tt
  | Some _ =>
      (if needsFrameCallbacks o
       then modify (set_frame_set (fun s => s ∖ {[self]})) else ret tt) ;;
      (if needsStepCallbacks o
       then modify (set_step_set (fun s => s ∖ {[self]})) else ret tt) ;;
      setNearObj self None ;;
      setFarObj self None ;;
      deactivate self ;;
      (* gritClass->release(L) reads the member again *)
      do o1 <- deref self;
      match gritClass o1 with
      | None => fun _ => Fault
      | Some k =>
          class_release k ;;
          modify (alter_obj (obj_set_gritClass None) self) ;;
          tryUnloadResources self ;;
          modify (alter_obj (obj_set_userValues ∅) self)
      end
  end.

Definition object_del (o : handle) : M unit :=
  destroy o ;;
  streamer_unlist o ;;
  do ob <- deref o;
  fun w =>
    match objs w !! name ob with
    | Some _ => Ret tt (set_objs (delete (name ob)) w)
    | None => Ret tt w
    end.

Definition notifyFade (self : handle) (fade : Q) : M unit :=
  do o <- deref self;
  match gritClass o with
  | None => GRIT_EXCEPT "Object destroyed"
  | Some _ =>
      if negb (isActivated o) then ret tt
      else
        do f <- getField self "setFade";
        match f with
        | None => ret tt
        | Some s =>
            do status <- lua_pcall run self "setFade" s;
            match status with
            | PErr => object_del self
            | POk _ => ret tt
            end
        end
  end.

Definition activate (self : handle) : M unit :=
  do o <- deref self;
  if isActivated o then ret tt
  else
    match gritClass o with
    | None => GRIT_EXCEPT "Object destroyed"
    | Some _ =>
        do loaded <- (if demand_loaded o then ret true
                      else demand_immediateLoad self);
        if negb loaded then object_del self
        else
          do f <- getField self "activate";
          match f with
          | None => object_del self
          | Some s =>
              do ref <- luaL_ref;
              modify (alter_obj (obj_set_lua ref) self) ;;
              do status <- lua_pcall run self "activate" s;
              match status with
              | PErr => object_del self
              | POk _ =>
                  streamer_list_as_activated self ;;
                  modify (alter_obj (obj_set_lastFade (-1)) self)
              end
          end
    end.

Definition init (self : handle) : M unit :=
  do o <- deref self;
  match gritClass o with
  | None => GRIT_EXCEPT "Object destroyed"
  | Some _ =>
      do f <- getField self "init";
      match f with
      | None => object_del self
      | Some s =>
          do status <- lua_pcall run self "init" s;
          match status with
          | PErr => object_del self
          | POk _ => ret tt
          end
      end
  end.

Definition frameCallback (self : handle) (elapsed : Q) : M bool :=
  do o <- deref self;
  match gritClass o with
  | None => GRIT_EXCEPT "Object destroyed"
  | Some _ =>
      do f <- getField self "frameCallback";
      match f with
      | None => ret false
      | Some s =>
          do status <- lua_pcall run self "frameCallback" s;
          ret (match status with POk _ => true | PErr => false end)
      end
  end.

Definition stepCallback (self : handle) (elapsed : Q) : M bool :=
  do o <- deref self;
  match gritClass o with
  | None => GRIT_EXCEPT "Object destroyed"
  | Some _ =>
      do f <- getField self "stepCallback";
      match f with
      | None => ret false
      | Some s =>
          do status <- lua_pcall run self "stepCallback" s;
          ret (match status with POk _ => true | PErr => false end)
      end
  end.

End Lifecycle.

(* ================================================================= *)
(** ** The registry *)

(** [ss << "Unnamed:" << grit_class->name << ":" << counter]. *)
Definition anonymous_name (cn : string) (k : N) : string :=
  "Unnamed:" ++ cn ++ ":" ++ pretty k.

(** [name_generation_counter++] on an [unsigned long long]. *)
Definition counter_succ (k : N) : N := ((k + 1) mod 2 ^ 64)%N.

(** The [do ... while (objs.find(name) != objs.end())] loop. It is cut
    off after [S tries] names: see [generate_name_exhausted] for why a
    registry of [tries] entries that rejects all of them rejects every
    value of the counter. *)
Fixpoint generate_name (cn : string) (m : gmap string handle) (tries : nat) (k : N)
  : option (string * N) :=
  let name_ := anonymous_name cn k in
  match m !! name_ with
  | None => Some (name_, counter_succ k)
  | Some _ =>
      match tries with
      | 0 => None
      | S tries' => generate_name cn m tries' (counter_succ k)
      end
  end.

(** Iteration order of [GObjMap] (a [std::map] keyed by name) and of
    [GObjSet] (a [std::set] of pointers). *)
Definition name_le (a b : string * handle) : Prop := String.leb a.1 b.1.

Global Instance name_le_dec a b : Decision (name_le a b) :=
  Is_true_dec (String.leb a.1 b.1).

Definition GObjMap_iter (m : gmap string handle) : list (string * handle) :=
  merge_sort name_le (map_to_list m).

Definition GObjSet_iter (s : gset handle) : list handle :=
  merge_sort Pos.le (elements s).

Fixpoint for_each {A} (f : A → M unit) (l : list A) : M unit :=
  match l with
  | [] => ret tt
  | x :: l' => f x ;; for_each f l'
  end.

Definition object_get (name_ : string) : M handle :=
  fun w =>
    match objs w !! name_ with
    | None => Throw ("GritObject does not exist: " ++ name_) w
    | Some h => Ret h w
    end.

Definition object_has (w : World) (name_ : string) : bool :=
  bool_decide (is_Some (objs w !! name_)).

Definition object_all (w : World) : list (string * handle) :=
  GObjMap_iter (objs w).

Definition object_count (w : World) : Z := Z.of_nat (size (objs w)).

Section Registry.

Variable run : runner.

Definition object_add (name_ : string) (grit_class : class_ptr) : M handle :=
  do named <-
    (if decide (name_ = "") then
       do c <- deref_class grit_class;
       fun w =>
         match generate_name (cname c) (objs w) (size (objs w))
                 (name_generation_counter w) with
         | Some (n, k) => Ret (true, n) (set_counter k w)
         | None => Diverge
         end
     else ret (false, name_));
  let anonymous_ := named.1 in
  let name_ := named.2 in
  do i <- (fun w => Ret (objs w !! name_) w);
  (match i with
   | Some old => object_del run old
   | None => ret tt
   end) ;;
  do self <- new_GritObject name_ grit_class;
  modify (alter_obj (obj_set_anonymous anonymous_) self) ;;
  modify (set_objs <[name_ := self]>) ;;
  streamer_list self ;;
  ret self.

Definition object_all_del : M unit :=
  fun w => for_each (fun i => object_del run i.2) (GObjMap_iter (objs w)) w.

Definition object_do_frame_callbacks (elapsed : Q) : M unit :=
  fun w =>
    for_each
      (fun i =>
         do ok <- frameCallback run i elapsed;
         if negb ok then setNeedsFrameCallbacks i false else ret tt)
      (GObjSet_iter (objs_needing_frame_callbacks w)) w.

Definition object_do_step_callbacks (elapsed : Q) : M unit :=
  fun w =>
    for_each
      (fun i =>
         do ok <- stepCallback run i elapsed;
         if negb ok then setNeedsStepCallbacks i false else ret tt)
      (GObjSet_iter (objs_needing_step_callbacks w)) w.

End Registry.

(* ================================================================= *)
(** ** The scripting host *)

Definition resolve (self : handle) (t : target) : handle :=
  match t with
  | TSelf => self
  | TObj h => h
  end.

(** One call made by a hook. *)
Definition exec_cmd (run : runner) (self : handle) (c : cmd) : M unit :=
  match c with
  | CDel t => object_del run (resolve self t)
  | CAdd n k => object_add run n k ;; ret tt
  | CSetNeedsFrame t v => setNeedsFrameCallbacks (resolve self t) v
  | CSetNeedsStep t v => setNeedsStepCallbacks (resolve self t) v
  | CActivate t => activate run (resolve self t)
  | CDeactivate t => deactivate run (resolve self t) ;; ret tt
  end.

(** The calls of a hook in order. An exception thrown by one of them is
    turned into a script error by the binding layer and unwinds the hook;
    [true] means every call returned. *)
Fixpoint run_body (exec : cmd → M unit) (cs : list cmd) : M bool :=
  match cs with
  | [] => ret true
  | c :: cs' =>
      fun w =>
        match exec c w with
        | Ret _ w' => run_body exec cs' w'
        | Throw _ w' => Ret false w'
        | Fault => Fault
        | Diverge => Diverge
        end
  end.

Definition run_script (exec : cmd → M unit) (s : script) : M pcall_result :=
  do ok <- run_body exec (body s);
  ret (if ok : bool then
         match finish s with
         | Returns v => POk v
         | Raises => PErr
         end
       else PErr).

(** The host with room for [depth] nested hooks. *)
Fixpoint host (depth : nat) : runner :=
  match depth with
  | 0 => fun _ _ _ => Diverge
  | S d => fun self s => run_script (exec_cmd (host d) self) s
  end.

(* ================================================================= *)
(** ** Binary32 arithmetic

    The program computes fades in [float]. A finite [float] is a
    rational number, and IEEE 754 defines each operation as the exact
    result rounded to the nearest value of the format, ties to even.
    Infinities, NaN and the sign of zero are not modelled: the results
    below are about divisions by a non-zero divisor and values far from
    the overflow threshold [2^128]. *)

(** The nearest integer, ties to even. *)
Definition rne (q : Q) : Z :=
  let f := Qfloor q in
  match Qcompare (q - inject_Z f) (1 # 2) with
  | Lt => f
  | Gt => (f + 1)%Z
  | Eq => if Z.even f then f else (f + 1)%Z
  end.

(** [floor (log2 q)] for a positive [q]. *)
Definition ilog2 (q : Q) : Z :=
  let z := (Z.log2 (Qnum q) - Z.log2 (Z.pos (Qden q)))%Z in
  if Qle_bool (2 ^ z) q then z else (z - 1)%Z.

(** The exponent of the last place: 24 significant bits, and no
    exponent below that of the subnormal numbers. *)
Definition cexp (q : Q) : Z := Z.max (ilog2 q - 23) (-149).

Definition binary32_pos (q : Q) : Q :=
  (inject_Z (rne (q / 2 ^ cexp q)) * 2 ^ cexp q)%Q.

(** Rounding to binary32. *)
Definition binary32 (q : Q) : Q :=
  Qred (match Qnum q with
        | Z0 => 0
        | Zpos _ => binary32_pos q
        | Zneg _ => - binary32_pos (- q)
        end)%Q.

Definition fadd (a b : Q) : Q := binary32 (a + b).
Definition fsub (a b : Q) : Q := binary32 (a - b).
Definition fdiv (a b : Q) : Q := binary32 (a / b).

(** The square root of a non-negative rational, cut off after 64 more
    bits than the argument has, with a sticky half bit when it is not
    exact: enough to round the square root of a binary32 value
    correctly. *)
Definition sqrt_sticky (q : Q) : Q :=
  let n := Qnum q in
  let d := Z.pos (Qden q) in
  let s := Z.sqrt (n * d * 2 ^ 128) in
  if (s * s =? n * d * 2 ^ 128)%Z then (inject_Z s / inject_Z (d * 2 ^ 64))%Q
  else (inject_Z (2 * s + 1) / inject_Z (d * 2 ^ 65))%Q.

(** [::sqrtf] of the C library on binary32 values. *)
Definition sqrtf_binary32 (q : Q) : Q := binary32 (sqrt_sticky q).

(** The rational number that a finite value of the Standard Library's
    specification of IEEE 754 stands for. *)
Definition Q_of_spec_float (x : spec_float) : Q :=
  match x with
  | S754_finite s m e =>
      Qred ((if s then -1 else 1) * inject_Z (Z.pos m) * 2 ^ e)%Q
  | _ => 0%Q
  end.

Section FadeRounded.

(** The rounding that every operation on [float] ends with. *)
Variable rnd : Q → Q.

(** [::sqrtf]. *)
Variable sqrtf : Q → Q.

(** [calcFade (range2, overlap)] with every operation rounded. *)
Definition calcFade_rounded (self : handle) (range2 : Q) (overlap : bool)
  : M (Q * bool) :=
  do o <- deref self;
  do the_near <- match nearObj o with
                 | Some n => do no <- deref n; ret (Some no)
                 | None => ret None
                 end;
  fun w =>
    let out := streamer_fade_out_factor w in
    let over := streamer_fade_overlap_factor w in
    let range := sqrtf range2 in
    let '(fade, overlap) :=
      match the_near with
      | Some no =>
          if isActivated no then
            (imposedFarFade no,
             if Qlt_le_dec (imposedFarFade no) 1 then true else overlap)
          else (1%Q, overlap)
      | None => (1%Q, overlap)
      end in
    let '(fade, imposed) :=
      match farObj o with
      | None =>
          (if Qlt_le_dec out range
           then rnd (rnd (1 - range) / rnd (1 - out)) else fade, 1)%Q
      | Some _ =>
          let overmid := rnd (rnd (over + 1) / 2)%Q in
          if Qlt_le_dec overmid range
          then (rnd (rnd (1 - range) / rnd (1 - overmid)), 1)%Q
          else if Qlt_le_dec over range then
            (fade, rnd (1 - rnd (rnd (overmid - range) / rnd (overmid - over))))%Q
          else (fade, 0%Q)
      end in
    let fade := if Qlt_le_dec fade 0 then 0%Q else fade in
    let imposed := if Qlt_le_dec imposed 0 then 0%Q else imposed in
    Ret (fade, overlap) (alter_obj (obj_set_imposedFarFade imposed) self w).

End FadeRounded.

(** The fade calculator as the program runs it. *)
Definition calcFade_binary32 : (Q → Q) → handle → Q → bool → M (Q * bool) :=
  calcFade_rounded binary32.

(* ================================================================= *)
(** ** Vocabulary of the properties *)

(** [getImposedFarFade] of the header, read through a handle. *)
Definition getImposedFarFade (w : World) (h : handle) : option Q :=
  imposedFarFade <$> heap w !! h.

(** The near neighbour, if there is one, is a record that is not
    activated. *)
Definition no_active_near (w : World) (o : GritObject) : Prop :=
  match nearObj o with
  | None => True
  | Some n => ∃ no, heap w !! n = Some no ∧ isActivated no = false
  end.


Definition in_unit_interval (q : Q) : Prop := (0 <= q)%Q ∧ (q <= 1)%Q.

(** A square root on [Q] that is exact on squares of rationals:
    [sqrt (n/d) = sqrt (n*d) / d], with the integer square root. *)
Definition sqrtf_floor (q : Q) : Q :=
  Z.sqrt (Qnum q * Z.pos (Qden q)) # Qden q.

(** *** Example worlds *)

Definition example_object (name_ : string) (k : option class_ptr) : GritObject :=
  mkObject name_ false k LUA_NOREF false false false 1 (-1) (0, 0, 0)%Q 0 (-1)
    None None ∅ false true.

Definition empty_world : World :=
  mkWorld ∅ ∅ ∅ ∅ ∅ 0 ∅ 0 ∅ (1 # 2) (1 # 2) 1 [].

(** One registered record, with the fade-out factor at 1/2. *)
Definition fade_world_no_far : World :=
  set_objs <["a" := 1%positive]>
    (set_heap <[1%positive := example_object "a" (Some 1%positive)]> empty_world).

(** A record with a far neighbour, under a given overlap factor. *)
Definition fade_world_far (over : Q) : World :=
  mkWorld
    (<[1%positive := obj_set_farObj (Some 2%positive) (example_object "a" (Some 1%positive))]>
       (<[2%positive := obj_set_nearObj (Some 1%positive) (example_object "b" (Some 1%positive))]> ∅))
    ∅ (<["a" := 1%positive]> (<["b" := 2%positive]> ∅)) ∅ ∅ 0 ∅ 0 ∅ (1 # 2) over 1 [].

(** The two assignments of [calcFade] before clamping, as a function of
    the fade the call starts from: the pair (fade, imposedFarFade). *)
Definition fade_bands (out over range fade0 : Q) (has_far : bool) : Q * Q :=
  if has_far then
    let overmid := ((over + 1) / 2)%Q in
    if Qlt_le_dec overmid range then ((1 - range) / (1 - overmid), 1)%Q
    else if Qlt_le_dec over range then
      (fade0, 1 - (overmid - range) / (overmid - over))%Q
    else (fade0, 0%Q)
  else
    (if Qlt_le_dec out range then (1 - range) / (1 - out) else fade0, 1)%Q.

(** [if (x<0) x = 0]. *)
Definition clamp0 (q : Q) : Q := if Qlt_le_dec q 0 then 0%Q else q.

(** The world an example run ends in. *)
Definition world_of {A} (o : outcome A) : World :=
  match o with
  | Ret _ w | Throw _ w => w
  | Fault | Diverge => empty_world
  end.

(** A class table with one class, number 1, named "K". *)
Definition one_class (fields : gmap string script) : World :=
  set_classes <[1%positive := mkClass "K" 0 fields]> empty_world.

(** A plain class: every hook returns at once. *)
Definition plain_fields : gmap string script :=
  <["activate" := Script [] (Returns false)]>
    (<["deactivate" := Script [] (Returns false)]>
       (<["init" := Script [] (Returns false)]>
          (<["frameCallback" := Script [] (Returns false)]> ∅))).

(** "a" is added and then deleted: handle 1 stays behind, destroyed. *)
Definition destroyed_world : World :=
  world_of ((do a <- object_add (host 1) "a" 1%positive; object_del (host 1) a)
              (one_class plain_fields)).

(** "x" is added twice: the second add replaces the first record, which
    stays behind as handle 1, destroyed; handle 2 is the live record. *)
Definition replaced_world : World :=
  world_of ((object_add (host 1) "x" 1%positive ;;
             object_add (host 1) "x" 1%positive) (one_class plain_fields)).

(** *** Reasoning about runs *)

(** [m] returns from [w], with a result and a world that satisfy [Q]. *)
Definition returns {A} (m : M A) (w : World) (Q : A → World → Prop) : Prop :=
  match m w with
  | Ret a w' => Q a w'
  | _ => False
  end.

(** The hook that [getField] resolves: the record's own values first,
    then the class. *)
Definition lookup_field (w : World) (o : GritObject) (f : string) : option script :=
  match userValues o !! f with
  | Some s => Some s
  | None =>
      match gritClass o with
      | Some k =>
          match classes w !! k with
          | Some c => cfields c !! f
          | None => None
          end
      | None => None
      end
  end.

(** Pointers held by the world are valid, and the callback sets agree
    with the flags of their members. *)
Record wf (w : World) : Prop := {
  wf_class : ∀ h o k,
    heap w !! h = Some o → gritClass o = Some k → is_Some (classes w !! k);
  wf_objs : ∀ n h,
    objs w !! n = Some h → ∃ o, heap w !! h = Some o ∧ name o = n;
  wf_frame : ∀ h,
    h ∈ objs_needing_frame_callbacks w →
    ∃ o, heap w !! h = Some o ∧ needsFrameCallbacks o = true;
  wf_step : ∀ h,
    h ∈ objs_needing_step_callbacks w →
    ∃ o, heap w !! h = Some o ∧ needsStepCallbacks o = true
}.

(** What tearing records down can do to one record. *)
Record after (o o' : GritObject) : Prop := {
  after_name : name o' = name o;
  after_needs_frame : needsFrameCallbacks o' = needsFrameCallbacks o;
  after_needs_step : needsStepCallbacks o' = needsStepCallbacks o;
  after_lua : lua o' = lua o ∨ lua o' = LUA_NOREF;
  after_class :
    gritClass o' = None ∨
    (gritClass o' = gritClass o ∧ userValues o' = userValues o);
  after_near : nearObj o' = None ∨ nearObj o' = nearObj o;
  after_far : farObj o' = None ∨ farObj o' = farObj o;
  after_index : index o' = index o ∨ index o' = (-1)%Z
}.

(** A record that differs at most in neighbour links that were dropped. *)
Record relinked (o o' : GritObject) : Prop := {
  rl_name : name o' = name o;
  rl_class : gritClass o' = gritClass o;
  rl_lua : lua o' = lua o;
  rl_values : userValues o' = userValues o;
  rl_needs_frame : needsFrameCallbacks o' = needsFrameCallbacks o;
  rl_needs_step : needsStepCallbacks o' = needsStepCallbacks o;
  rl_index : index o' = index o;
  rl_near : nearObj o' = None ∨ nearObj o' = nearObj o;
  rl_far : farObj o' = None ∨ farObj o' = farObj o
}.

(** What tearing records down can do to the world: no record is created
    or freed, no class is changed except for its reference count going
    down, and the registry and the callback sets only lose entries. *)
Record descends (w w' : World) : Prop := {
  desc_heap : ∀ h o,
    heap w !! h = Some o → ∃ o', heap w' !! h = Some o' ∧ after o o';
  desc_heap_dom : ∀ h, heap w !! h = None → heap w' !! h = None;
  desc_classes : ∀ k c,
    classes w !! k = Some c →
    ∃ c', classes w' !! k = Some c' ∧ cname c' = cname c ∧
          cfields c' = cfields c ∧ (refCount c' <= refCount c)%Z;
  desc_objs : objs w' ⊆ objs w;
  desc_frame : objs_needing_frame_callbacks w' ⊆ objs_needing_frame_callbacks w;
  desc_step : objs_needing_step_callbacks w' ⊆ objs_needing_step_callbacks w;
  desc_counter : name_generation_counter w' = name_generation_counter w
}.

(** A call that a [deactivate] hook of [self] may make under the ranking
    [rank]: the deletion of a record of strictly lower rank. *)
Definition ranked_cmd (rank : handle → nat) (w : World) (self : handle) (c : cmd) : Prop :=
  ∃ t, c = CDel t ∧ rank (resolve self t) < rank self ∧
       is_Some (heap w !! resolve self t).

(** Every [deactivate] hook that tearing down an activated record would
    run deletes records of lower rank and does nothing else: hooks delete
    other records, in a well-founded order. *)
Definition ranked (rank : handle → nat) (w : World) : Prop :=
  ∀ h o s,
    heap w !! h = Some o → isActivated o = true → gritClass o ≠ None →
    lookup_field w o "deactivate" = Some s →
    Forall (ranked_cmd rank w h) (body s).

(** The state of a record that has been torn down. *)
Record torn_down (w : World) (h : handle) : Prop := {
  torn_frame : h ∉ objs_needing_frame_callbacks w;
  torn_step : h ∉ objs_needing_step_callbacks w;
  torn_record : ∃ o,
    heap w !! h = Some o ∧ gritClass o = None ∧ isActivated o = false ∧
    nearObj o = None ∧ farObj o = None ∧ index o = (-1)%Z ∧
    objs w !! name o = None
}.

(** The class the record held in [w] has fewer references in [w']. *)
Definition released (w w' : World) (h : handle) : Prop :=
  ∀ o k c,
    heap w !! h = Some o → gritClass o = Some k → classes w !! k = Some c →
    ∃ c', classes w' !! k = Some c' ∧ (refCount c' < refCount c)%Z.

(** What [object_del h] leaves behind when it is started in [w]. *)
Record deleted (w : World) (h : handle) (w' : World) : Prop := {
  deleted_descends : descends w w';
  deleted_gone : ∃ o',
    heap w' !! h = Some o' ∧ gritClass o' = None ∧ objs w' !! name o' = None;
  deleted_live : ∀ o,
    heap w !! h = Some o → gritClass o ≠ None →
    torn_down w' h ∧ released w w' h
}.

(** Records of rank [b] or more are at most relinked. *)
Definition keeps (rank : handle → nat) (b : nat) (w w' : World) : Prop :=
  ∀ x o, (b ≤ rank x)%nat → heap w !! x = Some o →
         ∃ o', heap w' !! x = Some o' ∧ relinked o o'.

(** *** Checkers for concrete worlds *)

Definition wf_check (w : World) : bool :=
  forallb (λ ho : handle * GritObject,
             match gritClass ho.2 with
             | Some k => bool_decide (is_Some (classes w !! k))
             | None => true
             end) (map_to_list (heap w)) &&
  forallb (λ nh : string * handle,
             match heap w !! nh.2 with
             | Some o => bool_decide (name o = nh.1)
             | None => false
             end) (map_to_list (objs w)) &&
  forallb (λ h, match heap w !! h with
                | Some o => needsFrameCallbacks o
                | None => false
                end) (elements (objs_needing_frame_callbacks w)) &&
  forallb (λ h, match heap w !! h with
                | Some o => needsStepCallbacks o
                | None => false
                end) (elements (objs_needing_step_callbacks w)).

Definition ranked_cmd_check (rank : handle → nat) (w : World) (self : handle) (c : cmd) : bool :=
  match c with
  | CDel t =>
      (rank (resolve self t) <? rank self)%nat &&
      bool_decide (is_Some (heap w !! resolve self t))
  | _ => false
  end.

Definition ranked_check (rank : handle → nat) (w : World) : bool :=
  forallb (λ ho : handle * GritObject,
             if isActivated ho.2 then
               match lookup_field w ho.2 "deactivate" with
               | Some s => forallb (ranked_cmd_check rank w ho.1) (body s)
               | None => true
               end
             else true) (map_to_list (heap w)).

Definition rank_bound_check (rank : handle → nat) (d : nat) (w : World) : bool :=
  forallb (λ ho : handle * GritObject, (rank ho.1 <? d)%nat) (map_to_list (heap w)).

(** A class whose [deactivate] hook adds a new record "B". *)
Definition adding_fields : gmap string script :=
  <["activate" := Script [] (Returns false)]>
    (<["deactivate" := Script [CAdd "B" 1%positive] (Returns true)]> ∅).

(** "A" is added and activated; its class is [adding_fields]. *)
Definition adding_world : World :=
  world_of ((do a <- object_add (host 1) "A" 1%positive; activate (host 1) a)
              (one_class adding_fields)).

(** Two classes: the [deactivate] hook of class 1 deletes record 2. *)
Definition chain_classes : World :=
  set_classes
    (λ _, <[1%positive := mkClass "K" 0
              (<["activate" := Script [] (Returns false)]>
                 (<["deactivate" := Script [CDel (TObj 2%positive)] (Returns false)]> ∅))]>
            (<[2%positive := mkClass "L" 0 plain_fields]> ∅))
    empty_world.

(** "A" of class 1 is handle 1, "B" of class 2 is handle 2; both are
    activated and subscribed to frame callbacks. Deactivating "A" deletes
    "B". *)
Definition chain_world : World :=
  world_of ((do a <- object_add (host 1) "A" 1%positive;
             do b <- object_add (host 1) "B" 2%positive;
             activate (host 1) a ;;
             activate (host 1) b ;;
             setNeedsFrameCallbacks a true ;;
             setNeedsFrameCallbacks b true) chain_classes).

Definition chain_rank (h : handle) : nat :=
  if decide (h = 1%positive) then 1 else 0.

(** What [object_add n c] leaves behind when it creates the record
    [self] on top of the world [w]: a fresh record of class [c], entered
    in the registry under [n] and given a slot by the streamer. *)
Record added (w : World) (n : string) (c : class_ptr) (self : handle) (w' : World)
  : Prop := {
  added_fresh : heap w !! self = None;
  added_objs : objs w' = <[n := self]> (objs w);
  added_record : ∃ o',
    heap w' = <[self := o']> (heap w) ∧
    name o' = n ∧ gritClass o' = Some c ∧ isActivated o' = false ∧
    index o' = streamer_next_index w ∧
    streamer_spheres w' !! index o' = Some (pos o', r o');
  added_frame : objs_needing_frame_callbacks w' = objs_needing_frame_callbacks w;
  added_step : objs_needing_step_callbacks w' = objs_needing_step_callbacks w
}.

(** [n] calls [object_add ("", c)] in a row; the handles they return. *)
Fixpoint add_anonymous (run : runner) (c : class_ptr) (n : nat) : M (list handle) :=
  match n with
  | 0 => ret []
  | S n' =>
      do h <- object_add run "" c;
      do hs <- add_anonymous run c n';
      ret (h :: hs)
  end.

(** The record behind handle [h] is registered under the anonymous name
    with counter component [k]. *)
Definition named_anonymously (w : World) (cn : string) (h : handle) (k : N) : Prop :=
  ∃ o, heap w !! h = Some o ∧ name o = anonymous_name cn k ∧
       anonymous o = true ∧ objs w !! anonymous_name cn k = Some h.

(** The name counter stands at its last value before the wrap. *)
Definition wrap_world : World :=
  set_counter (2 ^ 64 - 1) (one_class plain_fields).

(** *** Callback passes *)

(** The hook that the frame pass resolves for a subscriber. *)
Definition frame_hook (w : World) (h : handle) : option script :=
  match heap w !! h with
  | Some o => lookup_field w o "frameCallback"
  | None => None
  end.

(** A call that only changes a subscription, and never subscribes to
    frame callbacks. *)
Definition calm_cmd (w : World) (self : handle) (c : cmd) : Prop :=
  match c with
  | CSetNeedsFrame t false => is_Some (heap w !! resolve self t)
  | CSetNeedsStep t _ => is_Some (heap w !! resolve self t)
  | _ => False
  end.

(** The frame callbacks of the subscribers make calm calls only. *)
Definition calm (w : World) : Prop :=
  ∀ h s, h ∈ objs_needing_frame_callbacks w → frame_hook w h = Some s →
         Forall (calm_cmd w h) (body s).

(** The subscribers are live records. *)
Definition subscribers_live (w : World) : Prop :=
  ∀ h, h ∈ objs_needing_frame_callbacks w →
       ∃ o, heap w !! h = Some o ∧ gritClass o ≠ None.

(** Members of the frame set carry the flag. *)
Definition flagged (w : World) : Prop :=
  ∀ h, h ∈ objs_needing_frame_callbacks w →
       ∃ o, heap w !! h = Some o ∧ needsFrameCallbacks o = true.

(** What calm calls can do: classes, class references and instance
    values stay, the frame set only loses members. *)
Record steady (w w' : World) : Prop := {
  steady_heap : ∀ h o,
    heap w !! h = Some o →
    ∃ o', heap w' !! h = Some o' ∧ gritClass o' = gritClass o ∧
          userValues o' = userValues o;
  steady_classes : classes w' = classes w;
  steady_frame : objs_needing_frame_callbacks w' ⊆ objs_needing_frame_callbacks w
}.

(** The invocations a pass over the subscribers [l] records. *)
Definition dispatched (w : World) (l : list handle) : list (handle * string) :=
  (λ h, (h, "frameCallback")) <$> filter (λ h, is_Some (frame_hook w h)) l.

(** How often hook [f] of record [h] occurs in a log. *)
Definition count_calls (l : list (handle * string)) (h : handle) (f : string) : nat :=
  length (filter (λ e, e = (h, f)) l).

(** The subscriber's dispatch ends in its removal: no hook resolves, or
    the hook raises. *)
Definition stops (w : World) (h : handle) : Prop :=
  frame_hook w h = None ∨ ∃ s, frame_hook w h = Some s ∧ finish s = Raises.

Definition calm_cmd_check (w : World) (self : handle) (c : cmd) : bool :=
  match c with
  | CSetNeedsFrame t false => bool_decide (is_Some (heap w !! resolve self t))
  | CSetNeedsStep t _ => bool_decide (is_Some (heap w !! resolve self t))
  | _ => false
  end.

Definition calm_check (w : World) : bool :=
  forallb (λ h, match frame_hook w h with
                | Some s => forallb (calm_cmd_check w h) (body s)
                | None => true
                end) (elements (objs_needing_frame_callbacks w)).

Definition subscribers_live_check (w : World) : bool :=
  forallb (λ h, match heap w !! h with
                | Some o => bool_decide (is_Some (gritClass o))
                | None => false
                end) (elements (objs_needing_frame_callbacks w)).



(** Class 1 unsubscribes record 2 in its frame callback, class 2 has a
    frame callback that returns, class 3 has none, class 4 has one that
    raises. *)
Definition pass_classes : World :=
  set_classes
    (λ _, <[1%positive := mkClass "K" 0
              (<["frameCallback" :=
                   Script [CSetNeedsFrame (TObj 2%positive) false] (Returns false)]> ∅)]>
            (<[2%positive := mkClass "L" 0 plain_fields]>
               (<[3%positive := mkClass "M" 0 ∅]>
                  (<[4%positive := mkClass "N" 0
                       (<["frameCallback" := Script [] Raises]> ∅)]> ∅))))
    empty_world.

(** Four subscribers, one of each class of [pass_classes]. *)
Definition pass_world : World :=
  world_of ((do a <- object_add (host 1) "A" 1%positive;
             do b <- object_add (host 1) "B" 2%positive;
             do c <- object_add (host 1) "C" 3%positive;
             do e <- object_add (host 1) "E" 4%positive;
             setNeedsFrameCallbacks a true ;;
             setNeedsFrameCallbacks b true ;;
             setNeedsFrameCallbacks c true ;;
             setNeedsFrameCallbacks e true) pass_classes).

(** The anonymous name with counter 0 is taken and the counter is back
    at 0. *)
Definition collision_world : World :=
  set_counter 0
    (world_of (object_add (host 1) "" 1%positive (one_class plain_fields))).

(** *** A record deleted without any hook *)

(** What [object_del h] makes of [w] when the record is live and not
    activated: the record is torn down, its class loses one reference, its
    name leaves the registry, it leaves both callback sets, and no hook is
    called. *)
Record deleted_quietly (w : World) (h : handle) (o : GritObject) (k : class_ptr)
    (c : GritClass) (w' : World) : Prop := {
  dq_torn : torn_down w' h;
  dq_name : ∃ o', heap w' !! h = Some o' ∧ name o' = name o;
  dq_objs : objs w' = delete (name o) (objs w);
  dq_frame : objs_needing_frame_callbacks w' = objs_needing_frame_callbacks w ∖ {[h]};
  dq_step : objs_needing_step_callbacks w' = objs_needing_step_callbacks w ∖ {[h]};
  dq_classes :
    classes w' = <[k := mkClass (cname c) (refCount c - 1) (cfields c)]> (classes w);
  dq_calls : calls w' = calls w;
  dq_counter : name_generation_counter w' = name_generation_counter w;
  dq_heap_dom : ∀ x, is_Some (heap w' !! x) ↔ is_Some (heap w !! x)
}.

(** A class without any behaviour; record 1 of it has nothing loaded and
    cannot load ([unloadable_world]) or can ([bare_world]). *)
Definition bare_world : World :=
  world_of (object_add (host 0) "a" 1%positive
              (set_classes <[1%positive := mkClass "K" 0 ∅]> empty_world)).

Definition unloadable_world : World :=
  alter_obj
    (λ o, mkObject (name o) (anonymous o) (gritClass o) (lua o)
            (needsFrameCallbacks o) (needsStepCallbacks o) (demandRegistered o)
            (imposedFarFade o) (lastFade o) (pos o) (r o) (index o)
            (nearObj o) (farObj o) (userValues o) false false)
    1%positive
    (world_of (object_add (host 0) "a" 1%positive (one_class plain_fields))).

(** For live records, membership in the frame set mirrors the flag; the
    same for the step set. *)
Definition mirrors_frame (w : World) : Prop :=
  ∀ h o, heap w !! h = Some o → gritClass o ≠ None →
         (h ∈ objs_needing_frame_callbacks w ↔ needsFrameCallbacks o = true).

Definition mirrors_step (w : World) : Prop :=
  ∀ h o, heap w !! h = Some o → gritClass o ≠ None →
         (h ∈ objs_needing_step_callbacks w ↔ needsStepCallbacks o = true).

Definition mirrors_frame_check (w : World) : bool :=
  forallb (λ ho : handle * GritObject,
             match gritClass ho.2 with
             | Some _ =>
                 bool_decide
                   (bool_decide (ho.1 ∈ objs_needing_frame_callbacks w)
                    = needsFrameCallbacks ho.2)
             | None => true
             end) (map_to_list (heap w)).

Definition mirrors_step_check (w : World) : bool :=
  forallb (λ ho : handle * GritObject,
             match gritClass ho.2 with
             | Some _ =>
                 bool_decide
                   (bool_decide (ho.1 ∈ objs_needing_step_callbacks w)
                    = needsStepCallbacks ho.2)
             | None => true
             end) (map_to_list (heap w)).

(** One record "a" of a plain class, resources loaded, not activated. *)
Definition loaded_world : World :=
  alter_obj (obj_set_demand_loaded true) 1%positive
    (world_of (object_add (host 0) "a" 1%positive (one_class plain_fields))).

(** *** Near and far neighbours *)

(** What the near neighbour imposes on a record: its [imposedFarFade]
    when it is activated, and 1 otherwise. *)
Definition near_fade (w : World) (o : GritObject) : Q :=
  match nearObj o with
  | Some n =>
      match heap w !! n with
      | Some no => if isActivated no then imposedFarFade no else 1%Q
      | None => 1%Q
      end
  | None => 1%Q
  end.

(** The near pointer of a record, if set, points to a record. *)
Definition near_valid (w : World) (o : GritObject) : Prop :=
  match nearObj o with
  | Some n => is_Some (heap w !! n)
  | None => True
  end.

(** The range beyond which a record fades out by itself: the fade-out
    factor without a far neighbour, and [overmid] with one. *)
Definition fade_threshold (w : World) (o : GritObject) : Q :=
  match farObj o with
  | None => streamer_fade_out_factor w
  | Some _ => ((streamer_fade_overlap_factor w + 1) / 2)%Q
  end.

(** Record 1 is activated and has record 2 as its far neighbour. *)
Definition fade_world_pair (over : Q) : World :=
  alter_obj (obj_set_lua 7) 1%positive (fade_world_far over).

(** The counter stands at its last value before the wrap, and the name
    of that value is taken. *)
Definition wrap_collision_world : World :=
  set_counter (2 ^ 64 - 1)
    (world_of (object_add (host 1) "" 1%positive wrap_world)).

(** *** The step pass *)

(** The hook that the step pass resolves for a subscriber. *)
Definition step_hook (w : World) (h : handle) : option script :=
  match heap w !! h with
  | Some o => lookup_field w o "stepCallback"
  | None => None
  end.

(** The step subscribers are live records, and the step callbacks that
    resolve for them make no call into the engine. *)
Definition quiet_steppers (w : World) : Prop :=
  ∀ h, h ∈ objs_needing_step_callbacks w →
       (∃ o, heap w !! h = Some o ∧ gritClass o ≠ None) ∧
       (∀ s, step_hook w h = Some s → body s = []).

Definition quiet_steppers_check (w : World) : bool :=
  forallb (λ h, match heap w !! h with
                | Some o =>
                    bool_decide (is_Some (gritClass o)) &&
                    match lookup_field w o "stepCallback" with
                    | Some s => match body s with [] => true | _ => false end
                    | None => true
                    end
                | None => false
                end) (elements (objs_needing_step_callbacks w)).

(** The step callbacks that a pass over [l] invokes, in order. *)
Definition dispatched_step (w : World) (l : list handle) : list (handle * string) :=
  (λ h, (h, "stepCallback")) <$> filter (λ h, is_Some (step_hook w h)) l.

(** The step callback of the subscriber resolves and returns. *)
Definition step_returns (w : World) (h : handle) : Prop :=
  ∃ s v, step_hook w h = Some s ∧ finish s = Returns v.

(** Class 1 has a step callback that returns, class 2 has none, class 3
    has one that raises. *)
Definition step_classes : World :=
  set_classes
    (λ _, <[1%positive := mkClass "K" 0
              (<["stepCallback" := Script [] (Returns false)]> ∅)]>
            (<[2%positive := mkClass "L" 0 ∅]>
               (<[3%positive := mkClass "M" 0
                    (<["stepCallback" := Script [] Raises]> ∅)]> ∅)))
    empty_world.

(** Three step subscribers, one of each class of [step_classes]. *)
Definition step_world : World :=
  world_of ((do a <- object_add (host 1) "A" 1%positive;
             do b <- object_add (host 1) "B" 2%positive;
             do c <- object_add (host 1) "C" 3%positive;
             setNeedsStepCallbacks a true ;;
             setNeedsStepCallbacks b true ;;
             setNeedsStepCallbacks c true) step_classes).

(** What the pass over [l] relies on. *)
Definition step_ready (w : World) (l : list handle) : Prop :=
  ∀ h, h ∈ l →
       ∃ o k, heap w !! h = Some o ∧ gritClass o = Some k ∧
              is_Some (classes w !! k) ∧ needsStepCallbacks o = true ∧
              (∀ s, step_hook w h = Some s → body s = []).

(** "a" is activated; its class has a "setFade" behaviour that raises. *)
Definition fading_world : World :=
  world_of ((do a <- object_add (host 1) "a" 1%positive; activate (host 1) a)
              (one_class (<["setFade" := Script [] Raises]> plain_fields))).

(** *** Deleting an activated record *)

(** The [deactivate] call that tearing record [h] down logs: one, when
    the record is activated and a behaviour resolves. *)
Definition deactivate_call (w : World) (h : handle) (o : GritObject)
  : list (handle * string) :=
  if isActivated o then
    match lookup_field w o "deactivate" with
    | Some _ => [(h, "deactivate")]
    | None => []
    end
  else [].

(** The [deactivate] behaviour of a record, if one resolves, makes no
    call into the engine. *)
Definition quiet_deactivate (w : World) (o : GritObject) : Prop :=
  ∀ s, lookup_field w o "deactivate" = Some s → body s = [].

(** "a" is added, loaded, and its class has an "activate" behaviour that
    raises. *)
Definition failing_world : World :=
  alter_obj (obj_set_demand_loaded true) 1%positive
    (world_of (object_add (host 0) "a" 1%positive
                 (one_class (<["activate" := Script [] Raises]> plain_fields)))).

(** *** Names tried *)

(** The number of names that the loop of [generate_name] tries: every
    one of them costs the counter one increment. *)
Fixpoint names_tried (cn : string) (m : gmap string handle) (tries : nat) (k : N) : nat :=
  match m !! anonymous_name cn k with
  | None => 1
  | Some _ =>
      match tries with
      | 0 => 1
      | S tries' => S (names_tried cn m tries' (counter_succ k))
      end
  end.

(** The number of names that [n] calls [object_add ("", c)] in a row
    try, all in all. *)
Fixpoint anonymous_tried (run : runner) (c : class_ptr) (n : nat) (w : World) : nat :=
  match n with
  | 0 => 0
  | S n' =>
      match classes w !! c with
      | Some cc =>
          names_tried (cname cc) (objs w) (size (objs w)) (name_generation_counter w)
      | None => 0
      end
      + anonymous_tried run c n' (world_of (object_add run "" c w))
  end.

(** The counter stands three values before the wrap, and the name of
    the first of them is taken. *)
Definition late_world : World :=
  set_counter (2 ^ 64 - 3)
    (world_of (object_add (host 1) "" 1%positive
                 (set_counter (2 ^ 64 - 3) (one_class plain_fields)))).

(** *** Fading in binary32 *)

(** A record without neighbours, with the fade-out factor at 1/16. *)
Definition fade_world_sixteenth : World :=
  mkWorld (<[1%positive := example_object "a" (Some 1%positive)]> ∅)
    ∅ (<["a" := 1%positive]> ∅) ∅ ∅ 0 ∅ 0 ∅ (1 # 16) (1 # 2) 1 [].

(* ================================================================= *)
(** ** Hooks known by what they leave behind

    The properties below hold for any host [run]: a hook is constrained
    only in the world it hands back. *)

(** [destroy] up to its call of [deactivate]: the record leaves both
    callback sets and is unlinked from its neighbours. *)
Definition unhook (h : handle) : M unit :=
  do o <- deref h;
  (if needsFrameCallbacks o
   then modify (set_frame_set (fun s => s ∖ {[h]})) else ret tt) ;;
  (if needsStepCallbacks o
   then modify (set_step_set (fun s => s ∖ {[h]})) else ret tt) ;;
  setNearObj h None ;;
  setFarObj h None.

(** The [deactivate] hook that [object_del h] calls: the one that
    resolves for a live, activated record. *)
Definition deactivate_hook (w : World) (h : handle) : option script :=
  match heap w !! h with
  | Some o =>
      match gritClass o with
      | Some _ => if isActivated o then lookup_field w o "deactivate" else None
      | None => None
      end
  | None => None
  end.

(** The world in which [deactivate] looks the hook up: the record is out
    of the callback sets, unlinked, and no longer listed as activated. *)
Definition unlisted (h : handle) (w : World) : World :=
  set_activated (λ s, s ∖ {[h]}) (world_of (unhook h w)).

(** The world in which the hook is called: the call is logged. *)
Definition deactivate_site (h : handle) (w : World) : World :=
  set_calls (λ l, (l ++ [(h, "deactivate")])%list) (unlisted h w).

(** The world in which [destroy h] goes on once [deactivate] is through
    with the hook: the one the hook hands back if one is called. *)
Definition hook_done (run : runner) (h : handle) (w : World) : option World :=
  match heap w !! h with
  | Some o =>
      if isActivated o then
        match lookup_field w o "deactivate" with
        | Some s =>
            match run h s (deactivate_site h w) with
            | Ret _ wm => Some wm
            | _ => None
            end
        | None => Some (unlisted h w)
        end
      else Some (world_of (unhook h w))
  | None => None
  end.

(** A record as [object_del] leaves it. *)
Definition torn (o : GritObject) : GritObject :=
  obj_set_index (-1)
    (obj_set_userValues ∅
       (obj_set_demand_loaded false
          (obj_set_gritClass None (obj_set_lua LUA_NOREF o)))).

(** *** Replacing a record *)









(** Two classes: the [deactivate] hook of class 1 unsubscribes its own
    record, subscribes record 2 to step callbacks and replaces "B" by a
    new record. *)
Definition meddling_classes : World :=
  set_classes
    (λ _, <[1%positive := mkClass "K" 0
              (<["activate" := Script [] (Returns false)]>
                 (<["deactivate" :=
                      Script [CSetNeedsFrame TSelf false;
                              CSetNeedsStep (TObj 2%positive) true;
                              CAdd "B" 2%positive] (Returns false)]> ∅))]>
            (<[2%positive := mkClass "L" 0 plain_fields]> ∅))
    empty_world.

(** "A" of class 1 is handle 1, "B" of class 2 is handle 2; both are
    activated and subscribed to frame callbacks. *)
Definition meddling_world : World :=
  world_of ((do a <- object_add (host 1) "A" 1%positive;
             do b <- object_add (host 1) "B" 2%positive;
             activate (host 1) a ;;
             activate (host 1) b ;;
             setNeedsFrameCallbacks a true ;;
             setNeedsFrameCallbacks b true) meddling_classes).

(** *** Deleting all records *)

(** No record is freed or renamed, and no destroyed record comes back
    to life. *)
Definition persists (w w' : World) : Prop :=
  ∀ x ox, heap w !! x = Some ox →
    ∃ ox', heap w' !! x = Some ox' ∧ name ox' = name ox ∧
           (gritClass ox = None → gritClass ox' = None).

(** Class references of records point into the class table. *)
Definition classes_valid (w : World) : Prop :=
  ∀ x ox k, heap w !! x = Some ox → gritClass ox = Some k →
            is_Some (classes w !! k).

(** What the sweep needs of the world [wm] that the [deactivate] hook of
    record [h] hands back, when it was called in [ws] and the entries
    named [names] are the one being deleted and those still to come: the
    record is still alive, no record was freed, renamed or revived, class
    references are valid, and no name is registered that the sweep is not
    going to erase. *)
Record polite (h : handle) (names : list string) (ws wm : World) : Prop := {
  polite_alive : ∃ om, heap wm !! h = Some om ∧ gritClass om ≠ None;
  polite_heap : persists ws wm;
  polite_classes : classes_valid wm;
  polite_names : ∀ n, is_Some (objs wm !! n) → n ∈ names
}.

(** The [deactivate] hook of [h], if one is called, returns and is
    polite. *)
Definition sweep_hook (run : runner) (h : handle) (names : list string)
    (w : World) : Prop :=
  match deactivate_hook w h with
  | Some s =>
      match run h s (deactivate_site h w) with
      | Ret _ wm => polite h names (deactivate_site h w) wm
      | _ => False
      end
  | None => True
  end.

(** Every hook that the sweep over [l] calls returns and is polite; each
    is called in the world the deletions before it have left. *)
Fixpoint sweep_contract (run : runner) (l : list (string * handle)) (w : World)
  : Prop :=
  match l with
  | [] => True
  | e :: rest =>
      sweep_hook run e.2 (e.1 :: rest.*1) w ∧
      sweep_contract run rest (world_of (object_del run e.2 w))
  end.

Definition persists_check (w w' : World) : bool :=
  forallb (λ xo : handle * GritObject,
             match heap w' !! xo.1 with
             | Some ox' =>
                 bool_decide (name ox' = name xo.2) &&
                 match gritClass xo.2 with
                 | None => bool_decide (gritClass ox' = None)
                 | Some _ => true
                 end
             | None => false
             end) (map_to_list (heap w)).

Definition classes_valid_check (w : World) : bool :=
  forallb (λ xo : handle * GritObject,
             match gritClass xo.2 with
             | Some k => bool_decide (is_Some (classes w !! k))
             | None => true
             end) (map_to_list (heap w)).

Definition polite_check (h : handle) (names : list string) (ws wm : World) : bool :=
  match heap wm !! h with
  | Some om => bool_decide (is_Some (gritClass om))
  | None => false
  end &&
  persists_check ws wm &&
  classes_valid_check wm &&
  forallb (λ nh : string * handle, bool_decide (nh.1 ∈ names))
    (map_to_list (objs wm)).

Definition sweep_hook_check (run : runner) (h : handle) (names : list string)
    (w : World) : bool :=
  match deactivate_hook w h with
  | Some s =>
      match run h s (deactivate_site h w) with
      | Ret _ wm => polite_check h names (deactivate_site h w) wm
      | _ => false
      end
  | None => true
  end.

Fixpoint sweep_contract_check (run : runner) (l : list (string * handle))
    (w : World) : bool :=
  match l with
  | [] => true
  | e :: rest =>
      sweep_hook_check run e.2 (e.1 :: rest.*1) w &&
      sweep_contract_check run rest (world_of (object_del run e.2 w))
  end.

(** *** The frame pass *)

Global Instance target_eq_dec : EqDecision target := ltac:(solve_decision).

Global Instance cmd_eq_dec : EqDecision cmd := ltac:(solve_decision).

Global Instance completion_eq_dec : EqDecision completion := ltac:(solve_decision).

Global Instance script_eq_dec : EqDecision script := ltac:(solve_decision).















(** *** Reaching the wrap of the counter *)

(** [n] rounds of [object_add ("", c)] followed by [object_del] of the
    record just added. *)
Fixpoint churn (run : runner) (c : class_ptr) (n : nat) : M unit :=
  match n with
  | 0 => ret tt
  | S n' =>
      do h <- object_add run "" c;
      object_del run h ;;
      churn run c n'
  end.

(* ================================================================= *)
(** ** The fade calculator *)

Section FadeFacts.

Local Open Scope Q_scope.


Lemma Qdiv_pos (n d : Q) : 0 < n → 0 < d → 0 < n / d.
Proof. intros Hn Hd. apply Qlt_shift_div_l; [done | lra]. Qed.



Lemma Qdiv_lt_mono (n n' d : Q) : n < n' → 0 < d → n / d < n' / d.
Proof.
  intros Hn Hd. unfold Qdiv. apply Qmult_lt_compat_r; [|done].
  by apply Qinv_lt_0_compat.
Qed.



Lemma getImposedFarFade_written w self o v :
  heap w !! self = Some o →
  getImposedFarFade (alter_obj (obj_set_imposedFarFade v) self w) self = Some v.
Proof.
  intros Hself. unfold getImposedFarFade, alter_obj. simpl.
  by rewrite lookup_alter_eq, Hself.
Qed.

Variable sqrtf : Q → Q.

(** With no far neighbour and no activated near neighbour the call
    reduces to the fade-out ramp. *)
Lemma calcFade_no_far_eq w self o range2 overlap :
  heap w !! self = Some o → farObj o = None → no_active_near w o →
  calcFade sqrtf self range2 overlap w =
    Ret (let fade :=
           if Qlt_le_dec (streamer_fade_out_factor w) (sqrtf range2)
           then (1 - sqrtf range2) / (1 - streamer_fade_out_factor w)
           else 1 in
         if Qlt_le_dec fade 0 then 0 else fade, overlap)
        (alter_obj (obj_set_imposedFarFade 1) self w).
Proof.
  intros Hself Hfar Hnear.
  unfold calcFade, bind, deref, ret. rewrite Hself.
  unfold no_active_near in Hnear.
  destruct (nearObj o) as [n|].
  - destruct Hnear as (no & -> & ->). rewrite Hfar.
    destruct (Qlt_le_dec 1 0) as [?|_]; [lra|]. done.
  - rewrite Hfar.
    destruct (Qlt_le_dec 1 0) as [?|_]; [lra|]. done.
Qed.






End FadeFacts.




(* ================================================================= *)
(** ** Operations on a destroyed record *)

(** Counterexample to C1 as stated: [updateSphere] has no check of the
    class reference; on the destroyed record of [destroyed_world] it
    returns and raises nothing. *)
Lemma updateSphere_destroyed_returns :
  (∃ o, heap destroyed_world !! 1%positive = Some o ∧ gritClass o = None) ∧
  updateSphere 1%positive (1, 2, 3)%Q 4 destroyed_world = Ret tt destroyed_world.
Proof. split; [eexists; split; by vm_compute | by vm_compute]. Qed.

(** C1, as it holds. On a record in the destroyed state (class reference
    null), [deactivate], [init], [notifyFade], [getField],
    [setNeedsFrameCallbacks], [setNeedsStepCallbacks], [frameCallback] and
    [stepCallback] raise "Object destroyed" and change nothing; so does
    [activate] when the record is not activated (its first test is
    [isActivated]); [updateSphere] never raises. *)
Theorem destroyed_record_raises run w self o :
  heap w !! self = Some o →
  gritClass o = None →
  (isActivated o = false → activate run self w = Throw "Object destroyed" w) ∧
  deactivate run self w = Throw "Object destroyed" w ∧
  init run self w = Throw "Object destroyed" w ∧
  (∀ fade, notifyFade run self fade w = Throw "Object destroyed" w) ∧
  (∀ f, getField self f w = Throw "Object destroyed" w) ∧
  (∀ v, setNeedsFrameCallbacks self v w = Throw "Object destroyed" w) ∧
  (∀ v, setNeedsStepCallbacks self v w = Throw "Object destroyed" w) ∧
  (∀ elapsed, frameCallback run self elapsed w = Throw "Object destroyed" w) ∧
  (∀ elapsed, stepCallback run self elapsed w = Throw "Object destroyed" w) ∧
  (∀ pos_ r_, ∃ w', updateSphere self pos_ r_ w = Ret tt w').
Proof.
  intros Hself Hclass.
  split; [|repeat split].
  - intros Hinactive. unfold activate, bind, deref, GRIT_EXCEPT.
    by rewrite Hself, Hinactive, Hclass.
  - unfold deactivate, bind, deref, GRIT_EXCEPT. by rewrite Hself, Hclass.
  - unfold init, bind, deref, GRIT_EXCEPT. by rewrite Hself, Hclass.
  - intros fade. unfold notifyFade, bind, deref, GRIT_EXCEPT.
    by rewrite Hself, Hclass.
  - intros f. unfold getField, bind, deref, GRIT_EXCEPT. by rewrite Hself, Hclass.
  - intros v. unfold setNeedsFrameCallbacks, bind, deref, GRIT_EXCEPT.
    by rewrite Hself, Hclass.
  - intros v. unfold setNeedsStepCallbacks, bind, deref, GRIT_EXCEPT.
    by rewrite Hself, Hclass.
  - intros elapsed. unfold frameCallback, bind, deref, GRIT_EXCEPT.
    by rewrite Hself, Hclass.
  - intros elapsed. unfold stepCallback, bind, deref, GRIT_EXCEPT.
    by rewrite Hself, Hclass.
  - intros pos_ r_. unfold updateSphere, bind, deref. rewrite Hself.
    destruct (decide _); by eexists.
Qed.

Lemma destroyed_record_raises_witness :
  deactivate (host 1) 1%positive destroyed_world
    = Throw "Object destroyed" destroyed_world ∧
  activate (host 1) 1%positive destroyed_world
    = Throw "Object destroyed" destroyed_world.
Proof.
  destruct (destroyed_record_raises (host 1) destroyed_world 1%positive
              (example_object "a" None))
    as (Hact & Hdeact & _).
  - by vm_compute.
  - reflexivity.
  - split; [exact Hdeact | by apply Hact].
Defined.

(** C10. On a record whose index is the unindexed sentinel, each of the
    three [updateSphere] overloads returns at once: the world (stored
    position and radius, streamer spheres) is unchanged and nothing is
    raised, whether or not the record is destroyed. *)
Theorem updateSphere_unindexed w self o pos_ r_ :
  heap w !! self = Some o →
  index o = (-1)%Z →
  updateSphere self pos_ r_ w = Ret tt w ∧
  updateSphere_pos self pos_ w = Ret tt w ∧
  updateSphere_r self r_ w = Ret tt w.
Proof.
  intros Hself Hindex.
  assert (Hfull : ∀ p rad, updateSphere self p rad w = Ret tt w).
  { intros p rad. unfold updateSphere, bind, deref, ret.
    rewrite Hself. by rewrite decide_True. }
  split; [apply Hfull|].
  unfold updateSphere_pos, updateSphere_r, bind, deref.
  rewrite Hself. split; apply Hfull.
Qed.

Lemma updateSphere_unindexed_witness :
  updateSphere 1%positive (1, 2, 3)%Q 4 destroyed_world = Ret tt destroyed_world ∧
  updateSphere_pos 1%positive (1, 2, 3)%Q destroyed_world = Ret tt destroyed_world ∧
  updateSphere_r 1%positive 4 destroyed_world = Ret tt destroyed_world.
Proof.
  apply (updateSphere_unindexed destroyed_world 1%positive (example_object "a" None)).
  - by vm_compute.
  - reflexivity.
Defined.

(* ================================================================= *)
(** ** Deleting twice *)

(** [destroy] on a destroyed record is a no-op. *)
Lemma destroy_destroyed run w self o :
  heap w !! self = Some o → gritClass o = None →
  destroy run self w = Ret tt w.
Proof.
  intros Hself Hclass. unfold destroy, bind, deref. by rewrite Hself, Hclass.
Qed.

(** [object_del] on a destroyed, unlisted record whose name is not in the
    registry is a no-op. *)
Lemma object_del_destroyed_absent run w o_ ob :
  heap w !! o_ = Some ob → gritClass ob = None → index ob = (-1)%Z →
  objs w !! name ob = None →
  object_del run o_ w = Ret tt w.
Proof.
  intros Hself Hclass Hindex Hname.
  unfold object_del, bind. rewrite (destroy_destroyed _ _ _ _ Hself Hclass).
  unfold streamer_unlist, bind, deref, ret. rewrite Hself.
  rewrite decide_True by done. by rewrite Hself, Hname.
Qed.

(** [object_del] on a destroyed, unlisted record whose name has been
    given to another record takes that other record out of the registry,
    and does nothing else. *)
Lemma object_del_destroyed_namesake run w o_ ob other :
  heap w !! o_ = Some ob → gritClass ob = None → index ob = (-1)%Z →
  objs w !! name ob = Some other →
  object_del run o_ w = Ret tt (set_objs (delete (name ob)) w).
Proof.
  intros Hself Hclass Hindex Hname.
  unfold object_del, bind. rewrite (destroy_destroyed _ _ _ _ Hself Hclass).
  unfold streamer_unlist, bind, deref, ret. rewrite Hself.
  rewrite decide_True by done. by rewrite Hself, Hname.
Qed.

(** C7, the failing input. In [replaced_world] handle 1 is the destroyed
    first record of "x" and handle 2 the live record that replaced it.
    Deleting handle 1 again is not a no-op: the registry loses "x", while
    record 2 stays alive, listed with the streamer and holding its class
    reference. *)
Theorem object_del_twice_erases_namesake :
  (∃ o1, heap replaced_world !! 1%positive = Some o1 ∧ gritClass o1 = None) ∧
  objs replaced_world !! "x" = Some 2%positive ∧
  ∃ w',
    object_del (host 1) 1%positive replaced_world = Ret tt w' ∧
    objs w' = ∅ ∧
    object_has w' "x" = false ∧
    (∃ o2, heap w' !! 2%positive = Some o2 ∧
           gritClass o2 = Some 1%positive ∧ index o2 ≠ (-1)%Z).
Proof.
  split; [eexists; split; by vm_compute|].
  split; [by vm_compute|].
  exists (set_objs (delete "x") replaced_world).
  split; [by vm_compute|]. split; [by vm_compute|]. split; [by vm_compute|].
  eexists. split; [by vm_compute|]. split; by vm_compute.
Qed.

(* ================================================================= *)
(** ** Runs that return *)

Lemma returns_inv {A} (m : M A) w Q :
  returns m w Q → ∃ a w', m w = Ret a w' ∧ Q a w'.
Proof. unfold returns. destruct (m w); naive_solver. Qed.

Lemma returns_intro {A} (m : M A) w a w' (Q : A → World → Prop) :
  m w = Ret a w' → Q a w' → returns m w Q.
Proof. unfold returns. by intros ->. Qed.

Lemma returns_conseq {A} (m : M A) w (Q Q' : A → World → Prop) :
  returns m w Q → (∀ a w', Q a w' → Q' a w') → returns m w Q'.
Proof. unfold returns. destruct (m w); naive_solver. Qed.

Lemma returns_bind {A B} (m : M A) (k : A → M B) w Q :
  returns m w (λ a w', returns (k a) w' Q) → returns (bind m k) w Q.
Proof. unfold returns, bind. by destruct (m w). Qed.

Lemma returns_ret {A} (a : A) w (Q : A → World → Prop) :
  Q a w → returns (ret a) w Q.
Proof. done. Qed.

Lemma returns_modify f w (Q : unit → World → Prop) :
  Q tt (f w) → returns (modify f) w Q.
Proof. done. Qed.

Lemma returns_deref h w o (Q : GritObject → World → Prop) :
  heap w !! h = Some o → Q o w → returns (deref h) w Q.
Proof. unfold returns, deref. by intros ->. Qed.

Lemma returns_deref_class k w c (Q : GritClass → World → Prop) :
  classes w !! k = Some c → Q c w → returns (deref_class k) w Q.
Proof. unfold returns, deref_class. by intros ->. Qed.

(* ================================================================= *)
(** ** Worlds that descend from a world *)

Lemma after_refl o : after o o.
Proof. split; auto. Qed.

Lemma after_trans o1 o2 o3 : after o1 o2 → after o2 o3 → after o1 o3.
Proof.
  intros [] []. split; try congruence.
  - destruct after_lua1 as [-> | ->]; auto.
  - destruct after_class1 as [?|[Hc Hu]]; [by left|].
    destruct after_class0 as [Hn|[Hc' Hu']].
    + left. congruence.
    + right. split; congruence.
  - destruct after_near1 as [? | ->]; auto.
  - destruct after_far1 as [? | ->]; auto.
  - destruct after_index1 as [-> | ?]; auto.
Qed.

Lemma descends_refl w : descends w w.
Proof.
  split; try done.
  - intros h o Ho. exists o. split; [done | apply after_refl].
  - intros k c Hc. exists c. split_and!; (done || lia).
Qed.

Lemma descends_trans w1 w2 w3 : descends w1 w2 → descends w2 w3 → descends w1 w3.
Proof.
  intros [] []. split.
  - intros h o Ho. destruct (desc_heap0 h o Ho) as (o2 & Ho2 & Ha).
    destruct (desc_heap1 h o2 Ho2) as (o3 & Ho3 & Ha').
    exists o3. split; [done | by eapply after_trans].
  - auto.
  - intros k c Hc. destruct (desc_classes0 k c Hc) as (c2 & Hc2 & ? & ? & ?).
    destruct (desc_classes1 k c2 Hc2) as (c3 & Hc3 & ? & ? & ?).
    exists c3. split_and!; (congruence || lia).
  - by etrans.
  - by etrans.
  - by etrans.
  - congruence.
Qed.

(** A write through a handle that respects [after]. *)
Lemma descends_alter_obj f h w :
  (∀ o, heap w !! h = Some o → after o (f o)) →
  descends w (alter_obj f h w).
Proof.
  intros Hf. split; try done; simpl.
  - intros h' o Ho. destruct (decide (h = h')) as [<-|Hne].
    + exists (f o). rewrite lookup_alter_eq, Ho. split; [done | by apply Hf].
    + exists o. rewrite lookup_alter_ne by done. split; [done | apply after_refl].
  - intros h' Hnone. destruct (decide (h = h')) as [<-|Hne].
    + by rewrite lookup_alter_eq, Hnone.
    + by rewrite lookup_alter_ne.
  - intros k c Hc. exists c. split_and!; (done || lia).
Qed.

Lemma descends_set_frame_set f w :
  (∀ s, f s ⊆ s) → descends w (set_frame_set f w).
Proof.
  intros Hf. split; try done; simpl.
  - intros h o Ho. exists o. split; [done | apply after_refl].
  - intros k c Hc. exists c. split_and!; (done || lia).
  - apply Hf.
Qed.

Lemma descends_set_step_set f w :
  (∀ s, f s ⊆ s) → descends w (set_step_set f w).
Proof.
  intros Hf. split; try done; simpl.
  - intros h o Ho. exists o. split; [done | apply after_refl].
  - intros k c Hc. exists c. split_and!; (done || lia).
  - apply Hf.
Qed.

Lemma descends_set_objs_delete n w : descends w (set_objs (delete n) w).
Proof.
  split; try done; simpl.
  - intros h o Ho. exists o. split; [done | apply after_refl].
  - intros k c Hc. exists c. split_and!; (done || lia).
  - apply delete_subseteq.
Qed.

Lemma descends_set_activated f w : descends w (set_activated f w).
Proof.
  split; try done; simpl.
  - intros h o Ho. exists o. split; [done | apply after_refl].
  - intros k c Hc. exists c. split_and!; (done || lia).
Qed.

Lemma descends_set_calls f w : descends w (set_calls f w).
Proof.
  split; try done; simpl.
  - intros h o Ho. exists o. split; [done | apply after_refl].
  - intros k c Hc. exists c. split_and!; (done || lia).
Qed.

Lemma descends_set_spheres f w : descends w (set_spheres f w).
Proof.
  split; try done; simpl.
  - intros h o Ho. exists o. split; [done | apply after_refl].
  - intros k c Hc. exists c. split_and!; (done || lia).
Qed.

Lemma descends_release k c w :
  classes w !! k = Some c →
  descends w (set_classes <[k := mkClass (cname c) (refCount c - 1) (cfields c)]> w).
Proof.
  intros Hk. split; try done; simpl.
  - intros h o Ho. exists o. split; [done | apply after_refl].
  - intros k' c' Hc'. destruct (decide (k = k')) as [<-|Hne].
    + rewrite lookup_insert_eq. eexists. split; [done|].
      simpl. assert (c' = c) as -> by congruence. split_and!; (done || lia).
    + rewrite lookup_insert_ne by done. exists c'. split_and!; (done || lia).
Qed.

Lemma descends_heap_back w w' h o' :
  descends w w' → heap w' !! h = Some o' →
  ∃ o, heap w !! h = Some o ∧ after o o'.
Proof.
  intros Hd Ho'. destruct (heap w !! h) as [o|] eqn:Ho.
  - destruct (desc_heap _ _ Hd h o Ho) as (o2 & Ho2 & Ha).
    exists o. split; [done|]. congruence.
  - rewrite (desc_heap_dom _ _ Hd h Ho) in Ho'. done.
Qed.

Lemma wf_descends w w' : wf w → descends w w' → wf w'.
Proof.
  intros Hwf Hd. split.
  - intros h o' k Ho' Hk.
    destruct (descends_heap_back _ _ _ _ Hd Ho') as (o & Ho & Ha).
    destruct (after_class _ _ Ha) as [?|[Hc _]]; [congruence|].
    destruct (wf_class _ Hwf h o k Ho) as [c Hc']; [congruence|].
    destruct (desc_classes _ _ Hd k c Hc') as (c' & -> & _). done.
  - intros n h Hn.
    pose proof (desc_objs _ _ Hd) as Hsub.
    rewrite map_subseteq_spec in Hsub.
    destruct (wf_objs _ Hwf n h (Hsub _ _ Hn)) as (o & Ho & Hname).
    destruct (desc_heap _ _ Hd h o Ho) as (o' & Ho' & Ha).
    exists o'. split; [done|]. by rewrite (after_name _ _ Ha).
  - intros h Hin.
    destruct (wf_frame _ Hwf h) as (o & Ho & Hflag); [by apply (desc_frame _ _ Hd)|].
    destruct (desc_heap _ _ Hd h o Ho) as (o' & Ho' & Ha).
    exists o'. split; [done|]. by rewrite (after_needs_frame _ _ Ha).
  - intros h Hin.
    destruct (wf_step _ Hwf h) as (o & Ho & Hflag); [by apply (desc_step _ _ Hd)|].
    destruct (desc_heap _ _ Hd h o Ho) as (o' & Ho' & Ha).
    exists o'. split; [done|]. by rewrite (after_needs_step _ _ Ha).
Qed.

Lemma isActivated_after o o' :
  after o o' → isActivated o' = true → isActivated o = true.
Proof.
  intros Ha. unfold isActivated.
  destruct (after_lua _ _ Ha) as [-> | ->]; [done|]. done.
Qed.

Lemma lookup_field_descends w w' h o o' f :
  wf w → descends w w' → heap w !! h = Some o → after o o' →
  gritClass o' ≠ None →
  lookup_field w' o' f = lookup_field w o f.
Proof.
  intros Hwf Hd Ho Ha Hlive.
  destruct (after_class _ _ Ha) as [?|[Hc Hu]]; [done|].
  unfold lookup_field. rewrite Hu, Hc.
  destruct (userValues o !! f); [done|].
  destruct (gritClass o) as [k|] eqn:Hk; [|done].
  destruct (wf_class _ Hwf h o k Ho Hk) as [c Hc'].
  destruct (desc_classes _ _ Hd k c Hc') as (c' & -> & _ & -> & _).
  by rewrite Hc'.
Qed.

Section Ranked.

Variable rank : handle → nat.

Lemma ranked_cmd_descends w w' self c :
  descends w w' → ranked_cmd rank w self c → ranked_cmd rank w' self c.
Proof.
  intros Hd (t & -> & Hlt & [o Ho]). exists t. split_and!; try done.
  destruct (desc_heap _ _ Hd _ o Ho) as (o' & -> & _). done.
Qed.

Lemma ranked_descends w w' :
  wf w → descends w w' → ranked rank w → ranked rank w'.
Proof.
  intros Hwf Hd Hr h o' s Ho' Hact Hlive Hhook.
  destruct (descends_heap_back _ _ _ _ Hd Ho') as (o & Ho & Ha).
  rewrite (lookup_field_descends w w' h o o') in Hhook by done.
  eapply Forall_impl.
  - apply (Hr h o s); try done.
    + by eapply isActivated_after.
    + destruct (after_class _ _ Ha) as [?|[Hc _]]; congruence.
  - intros c. by apply ranked_cmd_descends.
Qed.

End Ranked.

(* ================================================================= *)
(** ** Tearing a record down *)

Lemma heap_alter_obj_eq f h w :
  heap (alter_obj f h w) !! h = f <$> heap w !! h.
Proof. unfold alter_obj. simpl. apply lookup_alter_eq. Qed.

Lemma heap_alter_obj_ne f h h' w :
  h ≠ h' → heap (alter_obj f h w) !! h' = heap w !! h'.
Proof. intros. unfold alter_obj. simpl. by apply lookup_alter_ne. Qed.

Lemma getField_live w h o k f :
  heap w !! h = Some o → gritClass o = Some k → is_Some (classes w !! k) →
  getField h f w = Ret (lookup_field w o f) w.
Proof.
  intros Ho Hk [c Hc]. unfold getField, bind, deref, lookup_field.
  rewrite Ho, Hk. destruct (userValues o !! f); [done|].
  unfold class_get, bind, deref_class. by rewrite Hc.
Qed.

Lemma relinked_refl o : relinked o o.
Proof. split; auto. Qed.

Lemma relinked_trans o1 o2 o3 : relinked o1 o2 → relinked o2 o3 → relinked o1 o3.
Proof.
  intros [] []. split; try congruence.
  - destruct rl_near1 as [? | ->]; auto.
  - destruct rl_far1 as [? | ->]; auto.
Qed.

Lemma relinked_after o o' : relinked o o' → after o o'.
Proof. intros []. split; auto. Qed.

Lemma relinked_set_nearObj o : relinked o (obj_set_nearObj None o).
Proof. split; simpl; auto. Qed.

Lemma relinked_set_farObj o : relinked o (obj_set_farObj None o).
Proof. split; simpl; auto. Qed.

Lemma descends_relink f h w :
  (∀ o, relinked o (f o)) → descends w (alter_obj f h w).
Proof. intros Hf. apply descends_alter_obj. intros o _. by apply relinked_after. Qed.

Lemma setNearObj_None w self o :
  heap w !! self = Some o →
  returns (setNearObj self None) w (λ _ w',
    descends w w' ∧
    ∃ o', heap w' !! self = Some o' ∧ relinked o o' ∧ nearObj o' = None).
Proof.
  intros Ho. unfold setNearObj.
  apply returns_bind. eapply returns_deref; [done|].
  destruct (decide (nearObj o = None)) as [Hnone|Hsome].
  { apply returns_ret. split; [apply descends_refl|].
    exists o. split_and!; [done | apply relinked_refl | done]. }
  destruct (nearObj o) as [n|] eqn:Hn; [|done].
  apply returns_bind, returns_modify.
  apply returns_bind, returns_modify.
  apply returns_ret. split.
  - eapply descends_trans; apply descends_relink.
    + apply relinked_set_farObj.
    + apply relinked_set_nearObj.
  - rewrite heap_alter_obj_eq.
    destruct (decide (n = self)) as [->|Hne].
    + rewrite heap_alter_obj_eq, Ho. eexists. split; [done|]. split; [|done].
      eapply relinked_trans; [apply relinked_set_farObj | apply relinked_set_nearObj].
    + rewrite heap_alter_obj_ne, Ho by done. eexists. split; [done|]. split; [|done].
      apply relinked_set_nearObj.
Qed.

Lemma setFarObj_None w self o :
  heap w !! self = Some o →
  returns (setFarObj self None) w (λ _ w',
    descends w w' ∧
    ∃ o', heap w' !! self = Some o' ∧ relinked o o' ∧ farObj o' = None ∧
          (nearObj o = None → nearObj o' = None)).
Proof.
  intros Ho. unfold setFarObj.
  apply returns_bind. eapply returns_deref; [done|].
  destruct (decide (farObj o = None)) as [Hnone|Hsome].
  { apply returns_ret. split; [apply descends_refl|].
    exists o. split_and!; [done | apply relinked_refl | done | done]. }
  destruct (farObj o) as [n|] eqn:Hn; [|done].
  apply returns_bind, returns_modify.
  apply returns_bind, returns_modify.
  apply returns_ret. split.
  - eapply descends_trans; apply descends_relink.
    + apply relinked_set_nearObj.
    + apply relinked_set_farObj.
  - rewrite heap_alter_obj_eq.
    destruct (decide (n = self)) as [->|Hne].
    + rewrite heap_alter_obj_eq, Ho. eexists. split; [done|]. split_and!; try done.
      eapply relinked_trans; [apply relinked_set_nearObj | apply relinked_set_farObj].
    + rewrite heap_alter_obj_ne, Ho by done. eexists. split; [done|].
      split_and!; try done. apply relinked_set_farObj.
Qed.

Section RankedTeardown.

Variable rank : handle → nat.

Lemma keeps_refl b w : keeps rank b w w.
Proof. intros x o _ Ho. exists o. split; [done | apply relinked_refl]. Qed.

Lemma keeps_trans b w1 w2 w3 :
  keeps rank b w1 w2 → keeps rank b w2 w3 → keeps rank b w1 w3.
Proof.
  intros H1 H2 x o Hb Ho.
  destruct (H1 x o Hb Ho) as (o2 & Ho2 & Hr).
  destruct (H2 x o2 Hb Ho2) as (o3 & Ho3 & Hr').
  exists o3. split; [done | by eapply relinked_trans].
Qed.

Lemma keeps_weaken b b' w w' :
  (b ≤ b')%nat → keeps rank b w w' → keeps rank b' w w'.
Proof. intros Hle Hk x o Hb. apply Hk. lia. Qed.

Lemma keeps_same_heap b w w' : heap w' = heap w → keeps rank b w w'.
Proof. intros Heq x o _ Ho. exists o. rewrite Heq. split; [done | apply relinked_refl]. Qed.

Lemma keeps_relink b f h w :
  (∀ o, relinked o (f o)) → keeps rank b w (alter_obj f h w).
Proof.
  intros Hf x o _ Ho. destruct (decide (h = x)) as [->|Hne].
  - rewrite heap_alter_obj_eq, Ho. eexists. split; [done | apply Hf].
  - rewrite heap_alter_obj_ne, Ho by done. eexists. split; [done | apply relinked_refl].
Qed.

Lemma keeps_alter_below b f h w :
  rank h < b → keeps rank b w (alter_obj f h w).
Proof.
  intros Hlt x o Hb Ho. destruct (decide (h = x)) as [->|Hne]; [lia|].
  rewrite heap_alter_obj_ne, Ho by done. eexists. split; [done | apply relinked_refl].
Qed.

(** Unlinking an object keeps every record up to links. *)
Lemma setNearObj_None_keeps b w self o :
  heap w !! self = Some o →
  returns (setNearObj self None) w (λ _ w', keeps rank b w w').
Proof.
  intros Ho. unfold setNearObj.
  apply returns_bind. eapply returns_deref; [done|].
  destruct (decide (nearObj o = None)) as [Hnone|Hsome].
  { apply returns_ret, keeps_refl. }
  destruct (nearObj o) as [n|] eqn:Hn; [|done].
  apply returns_bind, returns_modify.
  apply returns_bind, returns_modify.
  apply returns_ret.
  eapply keeps_trans; apply keeps_relink.
  - apply relinked_set_farObj.
  - apply relinked_set_nearObj.
Qed.

Lemma setFarObj_None_keeps b w self o :
  heap w !! self = Some o →
  returns (setFarObj self None) w (λ _ w', keeps rank b w w').
Proof.
  intros Ho. unfold setFarObj.
  apply returns_bind. eapply returns_deref; [done|].
  destruct (decide (farObj o = None)) as [Hnone|Hsome].
  { apply returns_ret, keeps_refl. }
  destruct (farObj o) as [n|] eqn:Hn; [|done].
  apply returns_bind, returns_modify.
  apply returns_bind, returns_modify.
  apply returns_ret.
  eapply keeps_trans; apply keeps_relink.
  - apply relinked_set_nearObj.
  - apply relinked_set_farObj.
Qed.

Lemma returns_and {A} (m : M A) w (Q1 Q2 : A → World → Prop) :
  returns m w Q1 → returns m w Q2 → returns m w (λ a w', Q1 a w' ∧ Q2 a w').
Proof. unfold returns. by destruct (m w). Qed.

(** *** One level of hooks

    [d] nested hooks are assumed to be handled; the lemmas below handle
    one more. *)

Variable d : nat.

Hypothesis deeper : ∀ w h,
  rank h < d → wf w → ranked rank w → is_Some (heap w !! h) →
  returns (object_del (host d) h) w (λ _ w',
    deleted w h w' ∧ keeps rank (S (rank h)) w w').

Lemma run_body_ranked self cs : ∀ w,
  (rank self ≤ d)%nat →
  Forall (ranked_cmd rank w self) cs →
  wf w → ranked rank w →
  returns (run_body (exec_cmd (host d) self) cs) w (λ ok w',
    ok = true ∧ descends w w' ∧ keeps rank (rank self) w w').
Proof.
  induction cs as [|c cs IH]; intros w Hself Hcs Hwf Hr.
  { apply returns_ret. split_and!; [done | apply descends_refl | apply keeps_refl]. }
  apply Forall_cons in Hcs as [(t & -> & Hlt & Hsome) Hcs].
  destruct (returns_inv _ _ _ (deeper w (resolve self t) ltac:(lia) Hwf Hr Hsome))
    as ([] & w1 & Hrun & Hdel & Hkeep).
  pose proof (deleted_descends _ _ _ Hdel) as Hd1.
  unfold returns. simpl. rewrite Hrun.
  eapply (returns_conseq _ _ _ _ (IH w1 Hself _ _ _)).
  intros ok w2 (-> & Hd2 & Hkeep2). split_and!; [done | by eapply descends_trans |].
  eapply keeps_trans; [|done]. eapply keeps_weaken; [|done]. lia.
  Unshelve.
  - eapply Forall_impl; [done|]. intros c. by apply ranked_cmd_descends.
  - by eapply wf_descends.
  - by eapply ranked_descends.
Qed.

Lemma isActivated_false_lua o : isActivated o = false → lua o = LUA_NOREF.
Proof.
  unfold isActivated. intros H. apply negb_false_iff in H. by apply Z.eqb_eq.
Qed.

Lemma deactivate_ranked w h o k :
  heap w !! h = Some o → gritClass o = Some k →
  (rank h ≤ d)%nat → wf w → ranked rank w →
  returns (deactivate (host (S d)) h) w (λ _ w',
    descends w w' ∧ keeps rank (S (rank h)) w w' ∧
    ∃ o', heap w' !! h = Some o' ∧ relinked (obj_set_lua LUA_NOREF o) o').
Proof.
  intros Ho Hk Hrank Hwf Hr. unfold deactivate.
  apply returns_bind. eapply returns_deref; [done|]. rewrite Hk.
  destruct (isActivated o) eqn:Hact; simpl.
  2:{ apply returns_ret. split_and!; [apply descends_refl | apply keeps_refl |].
      exists o. split; [done|]. split; simpl; auto.
      by rewrite (isActivated_false_lua o). }
  apply returns_bind, returns_modify.
  set (w1 := set_activated _ w).
  assert (Hd1 : descends w w1) by apply descends_set_activated.
  apply returns_bind. eapply returns_intro.
  { apply (getField_live w1 h o k); [done | done |].
    exact (wf_class w Hwf h o k Ho Hk). }
  change (lookup_field w1 o "deactivate") with (lookup_field w o "deactivate").
  destruct (lookup_field w o "deactivate") as [s|] eqn:Hhook.
  - (* the hook runs *)
    unfold lua_pcall.
    apply returns_bind, returns_bind, returns_modify.
    set (w2 := set_calls _ w1).
    assert (Hd2 : descends w w2).
    { eapply descends_trans; [done | apply descends_set_calls]. }
    change (host (S d) h s) with (run_script (exec_cmd (host d) h) s).
    unfold run_script. apply returns_bind.
    eapply returns_conseq.
    { apply (run_body_ranked h (body s) w2 Hrank).
      - eapply Forall_impl; [by apply (Hr h o s); rewrite ?Hk|].
        intros c. by apply ranked_cmd_descends.
      - by eapply wf_descends.
      - by eapply ranked_descends. }
    intros ok w3 (-> & Hd3 & Hkeep3).
    apply returns_ret.
    destruct (Hkeep3 h o) as (o3 & Ho3 & Hrl); [lia | done |].
    apply returns_bind. eapply returns_deref; [done|].
    apply returns_bind, returns_ret.
    apply returns_bind, returns_modify, returns_ret.
    split_and!.
    + eapply descends_trans; [by eapply descends_trans|].
      apply descends_alter_obj. intros o' _. split; simpl; auto.
    + eapply keeps_trans; [|apply keeps_alter_below; lia].
      eapply keeps_trans; [apply keeps_same_heap; done|].
      eapply keeps_weaken; [|done]. lia.
    + rewrite heap_alter_obj_eq, Ho3. eexists. split; [done|].
      destruct Hrl. split; simpl; auto.
  - (* the class has no deactivate function *)
    apply returns_bind. eapply returns_deref; [done|].
    apply returns_bind, returns_ret.
    apply returns_bind, returns_modify, returns_ret.
    split_and!.
    + apply (descends_trans w w1); [done|].
      apply descends_alter_obj. intros o' _. split; simpl; auto.
    + apply (keeps_trans _ w w1); [by apply keeps_same_heap|].
      apply keeps_alter_below. lia.
    + rewrite heap_alter_obj_eq. change (heap w1) with (heap w). rewrite Ho.
      eexists. split; [done | apply relinked_refl].
Qed.

Lemma drop_from_frame_set w h (flag : bool) :
  (h ∈ objs_needing_frame_callbacks w → flag = true) →
  returns (if flag then modify (set_frame_set (λ s, s ∖ {[h]})) else ret tt) w
    (λ _ w', descends w w' ∧ heap w' = heap w ∧
             h ∉ objs_needing_frame_callbacks w').
Proof.
  intros Hflag. destruct flag.
  - apply returns_modify. split_and!; [|done|].
    + apply descends_set_frame_set. intros s. apply subseteq_difference_l. done.
    + simpl. apply not_elem_of_difference. right. by apply elem_of_singleton.
  - apply returns_ret. split_and!; [apply descends_refl | done |].
    intros Hin. by specialize (Hflag Hin).
Qed.

Lemma drop_from_step_set w h (flag : bool) :
  (h ∈ objs_needing_step_callbacks w → flag = true) →
  returns (if flag then modify (set_step_set (λ s, s ∖ {[h]})) else ret tt) w
    (λ _ w', descends w w' ∧ heap w' = heap w ∧
             h ∉ objs_needing_step_callbacks w').
Proof.
  intros Hflag. destruct flag.
  - apply returns_modify. split_and!; [|done|].
    + apply descends_set_step_set. intros s. apply subseteq_difference_l. done.
    + simpl. apply not_elem_of_difference. right. by apply elem_of_singleton.
  - apply returns_ret. split_and!; [apply descends_refl | done |].
    intros Hin. by specialize (Hflag Hin).
Qed.

(** The part of [destroy] from [deactivate] on, for a record that is
    already out of the callback sets and unlinked. *)
Lemma destroy_tail_ranked w h o k c :
  heap w !! h = Some o → gritClass o = Some k → classes w !! k = Some c →
  nearObj o = None → farObj o = None →
  (rank h ≤ d)%nat → wf w → ranked rank w →
  returns
    (deactivate (host (S d)) h ;;
     do o1 <- deref h;
     match gritClass o1 with
     | None => fun _ => Fault
     | Some k =>
         class_release k ;;
         (modify (alter_obj (obj_set_gritClass None) h) ;;
          (tryUnloadResources h ;;
           modify (alter_obj (obj_set_userValues ∅) h)))
     end) w
    (λ _ w',
      descends w w' ∧ keeps rank (S (rank h)) w w' ∧
      (∃ o', heap w' !! h = Some o' ∧ gritClass o' = None ∧
             isActivated o' = false ∧ nearObj o' = None ∧ farObj o' = None ∧
             name o' = name o ∧ index o' = index o) ∧
      ∃ c', classes w' !! k = Some c' ∧ (refCount c' < refCount c)%Z).
Proof.
  intros Ho Hk Hc Hnear Hfar Hrank Hwf Hr.
  apply returns_bind.
  eapply returns_conseq; [by apply (deactivate_ranked w h o k)|].
  intros _ w1 (Hd1 & Hkeep1 & o1 & Ho1 & Hrl).
  apply returns_bind. eapply returns_deref; [done|].
  rewrite (rl_class _ _ Hrl). simpl. rewrite Hk.
  destruct (desc_classes _ _ Hd1 k c Hc) as (c1 & Hc1 & _ & _ & Hcount).
  unfold class_release, tryUnloadResources.
  apply returns_bind, returns_bind. eapply returns_deref_class; [done|].
  apply returns_modify.
  set (w2 := set_classes _ w1).
  apply returns_bind, returns_modify.
  apply returns_bind, returns_modify.
  apply returns_modify.
  set (w3 := alter_obj (obj_set_gritClass None) h w2).
  set (w4 := alter_obj (obj_set_demand_loaded false) h w3).
  assert (Ho4 : heap w4 !! h =
                Some (obj_set_demand_loaded false (obj_set_gritClass None o1))).
  { unfold w4, w3. rewrite !heap_alter_obj_eq.
    change (heap w2) with (heap w1). by rewrite Ho1. }
  split_and!.
  - apply (descends_trans w w1); [done|].
    apply (descends_trans w1 w2); [by apply descends_release|].
    apply (descends_trans w2 w3).
    { apply descends_alter_obj. intros o' _. split; simpl; auto. }
    apply (descends_trans w3 w4).
    { apply descends_alter_obj. intros o' _. split; simpl; auto. }
    apply descends_alter_obj. intros o' Ho'.
    assert (o' = obj_set_demand_loaded false (obj_set_gritClass None o1)) as ->
      by congruence.
    split; simpl; auto.
  - apply (keeps_trans _ w w1); [done|].
    apply (keeps_trans _ w1 w2); [by apply keeps_same_heap|].
    apply (keeps_trans _ w2 w3); [apply keeps_alter_below; lia|].
    apply (keeps_trans _ w3 w4); apply keeps_alter_below; lia.
  - rewrite heap_alter_obj_eq, Ho4.
    eexists. split; [done|]. destruct Hrl. simpl in *.
    split_and!; try done.
    + unfold isActivated. simpl. by rewrite rl_lua0.
    + destruct rl_near0 as [|Heq]; [done | by rewrite Heq].
    + destruct rl_far0 as [|Heq]; [done | by rewrite Heq].
  - simpl. rewrite lookup_insert_eq. eexists. split; [done|]. simpl. lia.
Qed.

Lemma destroy_ranked w h o k :
  heap w !! h = Some o → gritClass o = Some k →
  (rank h ≤ d)%nat → wf w → ranked rank w →
  returns (destroy (host (S d)) h) w (λ _ w',
    descends w w' ∧ keeps rank (S (rank h)) w w' ∧
    (h ∉ objs_needing_frame_callbacks w') ∧
    (h ∉ objs_needing_step_callbacks w') ∧
    (∃ o', heap w' !! h = Some o' ∧ gritClass o' = None ∧
           isActivated o' = false ∧ nearObj o' = None ∧ farObj o' = None ∧
           name o' = name o ∧ index o' = index o) ∧
    released w w' h).
Proof.
  intros Ho Hk Hrank Hwf Hr. unfold destroy.
  apply returns_bind. eapply returns_deref; [done|]. rewrite Hk.
  (* out of the frame set *)
  apply returns_bind. eapply returns_conseq.
  { apply (drop_from_frame_set w h). intros Hin.
    destruct (wf_frame _ Hwf h Hin) as (o0 & Ho0 & Hflag). congruence. }
  intros _ wa (Hda & Hheapa & Hframe).
  (* out of the step set *)
  apply returns_bind. eapply returns_conseq.
  { apply (drop_from_step_set wa h). intros Hin.
    destruct (wf_step _ Hwf h) as (o0 & Ho0 & Hflag);
      [by apply (desc_step _ _ Hda) | congruence]. }
  intros _ wb (Hdb & Hheapb & Hstep).
  assert (Hob : heap wb !! h = Some o) by (by rewrite Hheapb, Hheapa).
  (* unlinked from the near and far neighbours *)
  apply returns_bind. eapply returns_conseq.
  { apply returns_and;
      [apply (setNearObj_None wb h o Hob)
      |apply (setNearObj_None_keeps (S (rank h)) wb h o Hob)]. }
  intros _ w1 ((Hd1 & o1 & Ho1 & Hrl1 & Hnear1) & Hkeep1).
  apply returns_bind. eapply returns_conseq.
  { apply returns_and;
      [apply (setFarObj_None w1 h o1 Ho1)
      |apply (setFarObj_None_keeps (S (rank h)) w1 h o1 Ho1)]. }
  intros _ w2 ((Hd2 & o2 & Ho2 & Hrl2 & Hfar2 & Hnear2) & Hkeep2).
  specialize (Hnear2 Hnear1).
  pose proof (relinked_trans _ _ _ Hrl1 Hrl2) as Hrl.
  assert (Hdb2 : descends wb w2) by (by eapply descends_trans).
  assert (Hdw2 : descends w w2).
  { eapply descends_trans; [exact Hda|]. by eapply descends_trans. }
  destruct (wf_class _ Hwf h o k Ho Hk) as [c Hc].
  destruct (desc_classes _ _ Hdw2 k c Hc) as (c2 & Hc2 & _ & _ & Hcount).
  (* deactivated and released *)
  eapply returns_conseq.
  { apply (destroy_tail_ranked w2 h o2 k c2); try done.
    - by rewrite (rl_class _ _ Hrl).
    - by eapply wf_descends.
    - by eapply ranked_descends. }
  intros _ w' (Hd' & Hkeep' & (o' & Ho' & Hgone & Hinactive & Hn & Hf & Hname & Hindex)
                & c' & Hc' & Hless).
  split_and!.
  - by eapply descends_trans.
  - apply (keeps_trans _ w wb); [apply keeps_same_heap; congruence|].
    apply (keeps_trans _ wb w1); [done|].
    by apply (keeps_trans _ w1 w2).
  - intros Hin. apply Hframe.
    apply (desc_frame _ _ Hdb), (desc_frame _ _ Hdb2), (desc_frame _ _ Hd'), Hin.
  - intros Hin. apply Hstep.
    apply (desc_step _ _ Hdb2), (desc_step _ _ Hd'), Hin.
  - exists o'. split_and!; try done.
    + by rewrite Hname, (rl_name _ _ Hrl).
    + by rewrite Hindex, (rl_index _ _ Hrl).
  - intros o0 k0 c0 Ho0 Hk0 Hc0.
    assert (o0 = o) as -> by congruence.
    assert (k0 = k) as -> by congruence.
    assert (c0 = c) as -> by congruence.
    exists c'. split; [done | lia].
Qed.

(** The end of [object_del]: out of the streamer and out of the
    registry. *)
Lemma object_del_finish b w h o :
  heap w !! h = Some o → rank h < b →
  returns
    (streamer_unlist h ;;
     do ob <- deref h;
     fun w =>
       match objs w !! name ob with
       | Some _ => Ret tt (set_objs (delete (name ob)) w)
       | None => Ret tt w
       end) w
    (λ _ w',
      descends w w' ∧ keeps rank b w w' ∧
      heap w' !! h = Some (obj_set_index (-1) o) ∧
      objs w' !! name o = None).
Proof.
  intros Ho Hb.
  assert (Hunlist : returns (streamer_unlist h) w (λ _ w1,
            descends w w1 ∧ keeps rank b w w1 ∧
            heap w1 !! h = Some (obj_set_index (-1) o))).
  { unfold streamer_unlist.
    apply returns_bind. eapply returns_deref; [done|].
    destruct (decide (index o = (-1)%Z)) as [Hi|Hi].
    - apply returns_ret. split_and!; [apply descends_refl | apply keeps_refl |].
      rewrite Ho. f_equal. destruct o; simpl in *. by rewrite Hi.
    - apply returns_modify. split_and!.
      + eapply descends_trans; [|apply descends_set_spheres].
        apply descends_alter_obj. intros o' _. split; simpl; auto.
      + eapply keeps_trans; [by apply keeps_alter_below|].
        by apply keeps_same_heap.
      + simpl. by rewrite lookup_alter_eq, Ho. }
  apply returns_bind. eapply returns_conseq; [exact Hunlist|].
  intros _ w1 (Hd1 & Hkeep1 & Ho1).
  apply returns_bind. eapply returns_deref; [done|].
  unfold returns. simpl.
  destruct (objs w1 !! name o) eqn:Hname.
  - split_and!.
    + eapply descends_trans; [done | apply descends_set_objs_delete].
    + eapply keeps_trans; [done | by apply keeps_same_heap].
    + done.
    + simpl. apply lookup_delete_eq.
  - done.
Qed.

Lemma object_del_ranked w h :
  (rank h ≤ d)%nat → wf w → ranked rank w → is_Some (heap w !! h) →
  returns (object_del (host (S d)) h) w (λ _ w',
    deleted w h w' ∧ keeps rank (S (rank h)) w w').
Proof.
  intros Hrank Hwf Hr [o Ho]. unfold object_del.
  destruct (gritClass o) as [k|] eqn:Hk.
  - (* a live record *)
    apply returns_bind. eapply returns_conseq.
    { by apply (destroy_ranked w h o k). }
    intros _ w1 (Hd1 & Hkeep1 & Hframe & Hstep
                 & (o1 & Ho1 & Hgone & Hinactive & Hn & Hf & Hname & Hindex) & Hrel).
    eapply returns_conseq.
    { apply (object_del_finish (S (rank h)) w1 h o1 Ho1). lia. }
    intros _ w' (Hd' & Hkeep' & Ho' & Hnone).
    split; [|by eapply keeps_trans].
    split.
    + by eapply descends_trans.
    + eexists. split; [done|]. split; [done|]. done.
    + intros o0 Ho0 Hlive. split.
      * split.
        -- intros Hin. apply Hframe, (desc_frame _ _ Hd'), Hin.
        -- intros Hin. apply Hstep, (desc_step _ _ Hd'), Hin.
        -- eexists. split; [done|]. simpl. split_and!; done.
      * intros ox kx cx Hox Hkx Hcx.
        destruct (Hrel ox kx cx Hox Hkx Hcx) as (c1 & Hc1 & Hless).
        destruct (desc_classes _ _ Hd' kx c1 Hc1) as (c' & Hc' & _ & _ & Hle).
        exists c'. split; [done | lia].
  - (* already destroyed *)
    apply returns_bind. eapply returns_intro.
    { by apply (destroy_destroyed _ w h o). }
    eapply returns_conseq.
    { apply (object_del_finish (S (rank h)) w h o Ho). lia. }
    intros _ w' (Hd' & Hkeep' & Ho' & Hnone).
    split; [|done]. split.
    + done.
    + eexists. split; [done|]. split; [done|]. done.
    + intros o0 Ho0 Hlive. congruence.
Qed.

End RankedTeardown.

(* ================================================================= *)
(** ** Deleting through hooks *)

(** Any number of nested hooks. *)
Lemma object_del_total rank : ∀ d w h,
  rank h < d → wf w → ranked rank w → is_Some (heap w !! h) →
  returns (object_del (host d) h) w (λ _ w',
    deleted w h w' ∧ keeps rank (S (rank h)) w w').
Proof.
  induction d as [|d IH]; intros w h Hrank Hwf Hr Hh; [lia|].
  apply (object_del_ranked rank d IH); [lia | done..].
Qed.

Lemma wf_check_sound w : wf_check w = true → wf w.
Proof.
  unfold wf_check. rewrite !andb_true_iff, !forallb_forall.
  intros [[[Hclass Hobjs] Hframe] Hstep]. split.
  - intros h o k Ho Hk.
    specialize (Hclass (h, o)). simpl in Hclass. rewrite Hk in Hclass.
    eapply bool_decide_eq_true, Hclass.
    apply list_elem_of_In. by apply elem_of_map_to_list.
  - intros n h Hn.
    specialize (Hobjs (n, h)). simpl in Hobjs.
    destruct (heap w !! h) as [o|].
    + exists o. split; [done|]. eapply bool_decide_eq_true, Hobjs.
      apply list_elem_of_In. by apply elem_of_map_to_list.
    + exfalso. apply diff_false_true, Hobjs.
      apply list_elem_of_In. by apply elem_of_map_to_list.
  - intros h Hin. specialize (Hframe h).
    destruct (heap w !! h) as [o|].
    + exists o. split; [done|]. apply Hframe.
      apply list_elem_of_In. by apply elem_of_elements.
    + exfalso. apply diff_false_true, Hframe.
      apply list_elem_of_In. by apply elem_of_elements.
  - intros h Hin. specialize (Hstep h).
    destruct (heap w !! h) as [o|].
    + exists o. split; [done|]. apply Hstep.
      apply list_elem_of_In. by apply elem_of_elements.
    + exfalso. apply diff_false_true, Hstep.
      apply list_elem_of_In. by apply elem_of_elements.
Qed.

Lemma ranked_check_sound rank w : ranked_check rank w = true → ranked rank w.
Proof.
  unfold ranked_check. rewrite forallb_forall.
  intros Hall h o s Ho Hact Hlive Hhook.
  specialize (Hall (h, o)). simpl in Hall. rewrite Hact, Hhook in Hall.
  assert (Hbody : forallb (ranked_cmd_check rank w h) (body s) = true).
  { apply Hall. apply list_elem_of_In. by apply elem_of_map_to_list. }
  rewrite forallb_forall in Hbody.
  apply Forall_forall. intros c Hc.
  specialize (Hbody c (proj1 (list_elem_of_In _ _) Hc)).
  destruct c; try done. simpl in Hbody.
  apply andb_true_iff in Hbody as [Hlt Hsome].
  exists t. split_and!; [done | by apply Nat.ltb_lt | by eapply bool_decide_eq_true].
Qed.

Lemma rank_bound_check_sound rank d w :
  rank_bound_check rank d w = true →
  ∀ h, is_Some (heap w !! h) → rank h < d.
Proof.
  unfold rank_bound_check. rewrite forallb_forall.
  intros Hall h [o Ho]. apply Nat.ltb_lt, (Hall (h, o)).
  apply list_elem_of_In. by apply elem_of_map_to_list.
Qed.

(** Deleting the records of a list of registry entries of [w], one
    after the other, starting in a world that descends from [w]. *)
Lemma for_each_object_del rank d w (l : list (string * handle)) : ∀ w1,
  wf w → ranked rank w →
  (∀ h, is_Some (heap w !! h) → rank h < d) →
  (∀ n h, (n, h) ∈ l → objs w !! n = Some h) →
  descends w w1 →
  returns (for_each (λ i, object_del (host d) i.2) l) w1 (λ _ w',
    descends w1 w' ∧
    ∀ n h, (n, h) ∈ l →
      objs w' !! n = None ∧ ∃ o', heap w' !! h = Some o' ∧ gritClass o' = None).
Proof.
  induction l as [|[n h] l IH]; intros w1 Hwf Hr Hbound Hl Hd1.
  { apply returns_ret. split; [apply descends_refl|]. intros n h Hin.
    by apply elem_of_nil in Hin. }
  simpl.
  destruct (wf_objs _ Hwf n h) as (o & Ho & Hname); [apply Hl; left|].
  destruct (desc_heap _ _ Hd1 h o Ho) as (o1 & Ho1 & Ha1).
  apply returns_bind. eapply returns_conseq.
  { apply (object_del_total rank d w1 h).
    - apply Hbound. by eexists.
    - by eapply wf_descends.
    - by eapply ranked_descends.
    - by eexists. }
  intros _ w2 ([Hd2 (o2 & Ho2 & Hgone & Hnone) _] & _).
  eapply returns_conseq.
  { apply (IH w2); try done.
    - intros n' h' Hin. apply Hl. by right.
    - by eapply descends_trans. }
  intros _ w' (Hd' & Hrest).
  split; [by eapply descends_trans|].
  intros n' h' Hin. apply elem_of_cons in Hin as [Heq|Hin]; [|by apply Hrest].
  injection Heq as -> ->.
  destruct (desc_heap _ _ Hd2 h o1 Ho1) as (o2' & Ho2' & Ha2).
  assert (o2' = o2) as -> by congruence.
  destruct (desc_heap _ _ Hd' h o2 Ho2) as (o' & Ho' & Ha').
  split.
  - assert (Hn2 : objs w2 !! n = None).
    { by rewrite <- Hname, <- (after_name _ _ Ha1), <- (after_name _ _ Ha2). }
    pose proof (desc_objs _ _ Hd') as Hsub. rewrite map_subseteq_spec in Hsub.
    destruct (objs w' !! n) as [hx|] eqn:Hx; [|done].
    specialize (Hsub _ _ Hx). congruence.
  - exists o'. split; [done|].
    destruct (after_class _ _ Ha') as [?|[Hc _]]; congruence.
Qed.

(** Counterexample to C4 as stated: in [adding_world] the [deactivate]
    hook of "A" adds a record "B". The sweep runs over the snapshot, which
    holds "A" alone, so "B" is still registered when it returns. *)
Lemma object_all_del_hook_adds :
  ∃ w',
    object_all_del (host 2) adding_world = Ret tt w' ∧
    objs w' !! "B" = Some 2%positive ∧
    object_count w' = 1%Z.
Proof. eexists. split; [by vm_compute|]. split; by vm_compute. Qed.

(** Hooks that only delete. When the [deactivate] hooks only delete
    other records, in a well-founded order ([ranked]), the sweep returns
    at every depth of the host that allows for the nesting: no hook has to
    be assumed to return. Every record that was registered is destroyed,
    and the registry is empty. *)
Lemma object_all_del_empties rank d w :
  wf w →
  ranked rank w →
  (∀ h, is_Some (heap w !! h) → rank h < d) →
  ∃ w',
    object_all_del (host d) w = Ret tt w' ∧
    objs w' = ∅ ∧
    object_count w' = 0%Z ∧
    ∀ n h, objs w !! n = Some h →
           ∃ o', heap w' !! h = Some o' ∧ gritClass o' = None.
Proof.
  intros Hwf Hr Hbound.
  assert (Hsnap : ∀ n h, (n, h) ∈ GObjMap_iter (objs w) ↔ objs w !! n = Some h).
  { intros n h. unfold GObjMap_iter. rewrite merge_sort_Permutation.
    apply elem_of_map_to_list. }
  destruct (returns_inv _ _ _
    (for_each_object_del rank d w (GObjMap_iter (objs w)) w Hwf Hr Hbound
       (λ n h, proj1 (Hsnap n h)) (descends_refl w)))
    as ([] & w' & Hrun & Hd & Hall).
  exists w'. split; [exact Hrun|].
  assert (Hempty : objs w' = ∅).
  { apply map_empty. intros n.
    destruct (objs w' !! n) as [h|] eqn:Hn; [|done].
    pose proof (desc_objs _ _ Hd) as Hsub. rewrite map_subseteq_spec in Hsub.
    destruct (Hall n h) as [Hnone _]; [by apply Hsnap, Hsub|]. congruence. }
  split; [done|]. split.
  - unfold object_count. rewrite Hempty. done.
  - intros n h Hn. by apply (Hall n h), Hsnap.
Qed.

(** Example: in [chain_world] deactivating "A" deletes "B", which is
    still in the snapshot when the sweep reaches it. *)
Lemma object_all_del_empties_example :
  ∃ w',
    object_all_del (host 2) chain_world = Ret tt w' ∧
    objs w' = ∅ ∧
    object_count w' = 0%Z.
Proof.
  destruct (object_all_del_empties chain_rank 2 chain_world)
    as (w' & Hrun & Hempty & Hcount & _).
  - apply wf_check_sound. by vm_compute.
  - apply ranked_check_sound. by vm_compute.
  - apply rank_bound_check_sound. by vm_compute.
  - exists w'. exact (conj Hrun (conj Hempty Hcount)).
Defined.

(* ================================================================= *)
(** ** Adding a record *)

(** [object_add] under a name that is free: nothing is deleted, a fresh
    record is created, entered under the name and listed. *)
Lemma object_add_free run w n c cc :
  n ≠ "" → objs w !! n = None → classes w !! c = Some cc →
  ∃ self w' o',
    object_add run n c w = Ret self w' ∧
    self = fresh (dom (heap w)) ∧
    heap w !! self = None ∧
    objs w' = <[n := self]> (objs w) ∧
    heap w' = <[self := o']> (heap w) ∧
    name o' = n ∧ anonymous o' = false ∧ gritClass o' = Some c ∧
    isActivated o' = false ∧
    index o' = streamer_next_index w ∧
    streamer_spheres w' !! index o' = Some (pos o', r o') ∧
    classes w' = <[c := mkClass (cname cc) (refCount cc + 1) (cfields cc)]> (classes w) ∧
    objs_needing_frame_callbacks w' = objs_needing_frame_callbacks w ∧
    objs_needing_step_callbacks w' = objs_needing_step_callbacks w ∧
    name_generation_counter w' = name_generation_counter w.
Proof.
  intros Hn Hfree Hc.
  set (self := fresh (dom (heap w))).
  assert (Hfresh : heap w !! self = None).
  { apply not_elem_of_dom. apply is_fresh. }
  unfold object_add, bind, ret. rewrite decide_False by done. simpl.
  rewrite Hfree.
  unfold new_GritObject, class_acquire, bind, deref_class, modify, ret. simpl.
  rewrite Hc. fold self.
  unfold streamer_list, bind, deref, ret. simpl.
  rewrite lookup_alter_eq, lookup_insert_eq. simpl.
  exists self. eexists.
  exists (obj_set_index (streamer_next_index w)
            (obj_set_anonymous false
               (mkObject n false (Some c) LUA_NOREF false false false 1 (-1)
                  (0, 0, 0)%Q 0 (-1) None None ∅ false true))).
  split; [reflexivity|]. simpl.
  split_and!; try done.
  - by rewrite alter_alter_eq, alter_insert_eq.
  - apply lookup_insert_eq.
Qed.

(** When the name is taken, [object_add] is the delete of the prior
    record followed by [object_add] in the world the delete left. *)
Lemma object_add_after_del run w n c old w1 :
  n ≠ "" → objs w !! n = Some old → object_del run old w = Ret tt w1 →
  objs w1 !! n = None →
  object_add run n c w = object_add run n c w1.
Proof.
  intros Hn Hold Hdel Hnone.
  unfold object_add, bind, ret. rewrite decide_False by done. simpl.
  by rewrite Hold, Hdel, Hnone.
Qed.

(** Hooks that only delete. When the [deactivate] hooks only delete
    other records, in a well-founded order ([ranked]), [object_add] under
    a name that is taken returns at every depth of the host that allows
    for the nesting: the prior record is torn down and its class released,
    and the new record is created in the world the delete left. *)
Lemma object_add_replaces rank d w n c old o :
  wf w →
  ranked rank w →
  rank old < d →
  n ≠ "" →
  objs w !! n = Some old →
  heap w !! old = Some o →
  gritClass o ≠ None →
  is_Some (classes w !! c) →
  ∃ w1 self w',
    object_del (host d) old w = Ret tt w1 ∧
    torn_down w1 old ∧
    released w w1 old ∧
    object_add (host d) n c w = Ret self w' ∧
    added w1 n c self w' ∧
    objs w' !! n = Some self ∧
    self ≠ old.
Proof.
  intros Hwf Hr Hrank Hn Hold Ho Hlive [cc Hc].
  destruct (returns_inv _ _ _
    (object_del_total rank d w old Hrank Hwf Hr (ex_intro _ o Ho)))
    as ([] & w1 & Hdel & [Hd1 Hgone Hlive1] & _).
  destruct (Hlive1 o Ho Hlive) as [Htorn Hrel].
  destruct (wf_objs _ Hwf n old Hold) as (o0 & Ho0 & Hname).
  assert (o0 = o) as -> by congruence.
  assert (Hnone : objs w1 !! n = None).
  { destruct (torn_record _ _ Htorn) as (o1 & Ho1 & _ & _ & _ & _ & _ & Hnone).
    destruct (desc_heap _ _ Hd1 old o Ho) as (o1' & Ho1' & Ha).
    assert (o1' = o1) as -> by congruence.
    by rewrite <- Hname, <- (after_name _ _ Ha). }
  destruct (desc_classes _ _ Hd1 c cc Hc) as (cc1 & Hc1 & _).
  destruct (object_add_free (host d) w1 n c cc1 Hn Hnone Hc1)
    as (self & w' & o' & Hadd & _ & Hfresh & Hobjs & Hheap & Hname' & _ & Hclass
        & Hinactive & Hindex & Hsphere & _ & Hframe & Hstep & _).
  exists w1, self, w'. split_and!; try done.
  - by rewrite (object_add_after_del (host d) w n c old w1).
  - split; try done. by exists o'.
  - rewrite Hobjs. apply lookup_insert_eq.
  - intros ->. destruct (desc_heap _ _ Hd1 old o Ho) as (o1 & Ho1 & _). congruence.
Qed.

(** Example: in [chain_world] "A" is live, activated, subscribed to
    frame callbacks, and its [deactivate] hook deletes "B". *)
Lemma object_add_replaces_example :
  ∃ w1 self w',
    object_del (host 2) 1%positive chain_world = Ret tt w1 ∧
    torn_down w1 1%positive ∧
    object_add (host 2) "A" 2%positive chain_world = Ret self w' ∧
    objs w' !! "A" = Some self.
Proof.
  destruct (object_add_replaces chain_rank 2 chain_world "A" 2%positive 1%positive
              (default (example_object "" None) (heap chain_world !! 1%positive)))
    as (w1 & self & w' & Hdel & Htorn & _ & Hadd & _ & Hnew & _).
  - apply wf_check_sound. by vm_compute.
  - apply ranked_check_sound. by vm_compute.
  - vm_compute. lia.
  - done.
  - by vm_compute.
  - by vm_compute.
  - by vm_compute.
  - vm_compute. by eexists.
  - exists w1, self, w'. exact (conj Hdel (conj Htorn (conj Hadd Hnew))).
Defined.

(* ================================================================= *)
(** ** Anonymous names *)

Lemma anonymous_name_inj cn k1 k2 :
  anonymous_name cn k1 = anonymous_name cn k2 → k1 = k2.
Proof.
  unfold anonymous_name. intros H.
  do 3 apply String.app_inj in H. by apply pretty_N_inj in H.
Qed.

Lemma counter_succ_small k : (k + 1 < 2 ^ 64)%N → counter_succ k = (k + 1)%N.
Proof. intros H. unfold counter_succ. by apply N.mod_small. Qed.

(** The loop stops at the first counter value whose name is free. *)
Lemma generate_name_finds cn (m : gmap string handle) : ∀ tries k j,
  (j ≤ tries)%nat →
  (k + N.of_nat j + 1 < 2 ^ 64)%N →
  (∀ i, (i < j)%nat → is_Some (m !! anonymous_name cn (k + N.of_nat i))) →
  m !! anonymous_name cn (k + N.of_nat j) = None →
  generate_name cn m tries k =
    Some (anonymous_name cn (k + N.of_nat j), (k + N.of_nat j + 1)%N).
Proof.
  induction tries as [|tries IH]; intros k j Hj Hsmall Htaken Hfree.
  - assert (j = 0)%nat as -> by lia. simpl.
    rewrite N.add_0_r in *. rewrite Hfree.
    by rewrite counter_succ_small.
  - destruct j as [|j].
    + simpl. rewrite N.add_0_r in *. rewrite Hfree.
      by rewrite counter_succ_small.
    + simpl. destruct (Htaken 0%nat ltac:(lia)) as [h Hh].
      rewrite N.add_0_r in Hh. rewrite Hh.
      rewrite counter_succ_small by lia.
      rewrite (IH (k + 1)%N j).
      * do 2 f_equal; [f_equal|]; lia.
      * lia.
      * lia.
      * intros i Hi. destruct (Htaken (S i) ltac:(lia)) as [h' Hh'].
        exists h'. rewrite <- Hh'. do 2 f_equal. lia.
      * rewrite <- Hfree. do 2 f_equal. lia.
Qed.

(** Among [size m + 1] consecutive counter values one has a free name. *)
Lemma free_name_exists cn (m : gmap string handle) k :
  ∃ j, (j ≤ size m)%nat ∧ m !! anonymous_name cn (k + N.of_nat j) = None.
Proof.
  set (names := (λ j, anonymous_name cn (k + N.of_nat j)) <$> seq 0 (S (size m))).
  destruct (decide (Forall (λ x, is_Some (m !! x)) names)) as [Hall|Hex].
  - exfalso.
    assert (Hnodup : NoDup names).
    { apply NoDup_fmap_2; [|apply NoDup_seq].
      intros j1 j2 Heq. apply anonymous_name_inj in Heq. lia. }
    assert (Hsub : (list_to_set names : gset string) ⊆ dom m).
    { intros x Hx. apply elem_of_list_to_set in Hx. apply elem_of_dom.
      rewrite Forall_forall in Hall. by apply Hall. }
    apply subseteq_size in Hsub.
    rewrite size_list_to_set, size_dom in Hsub by done.
    unfold names in Hsub. rewrite length_fmap, length_seq in Hsub. lia.
  - apply not_Forall_Exists in Hex; [|apply _].
    apply Exists_exists in Hex as (x & Hx & Hnone).
    apply list_elem_of_fmap in Hx as (j & -> & Hj).
    apply elem_of_seq in Hj.
    exists j. split; [lia|]. by apply eq_None_not_Some.
Qed.

(** The first such value. *)
Lemma first_free_name cn (m : gmap string handle) k :
  ∃ j, (j ≤ size m)%nat ∧ m !! anonymous_name cn (k + N.of_nat j) = None ∧
       ∀ i, (i < j)%nat → is_Some (m !! anonymous_name cn (k + N.of_nat i)).
Proof.
  destruct (free_name_exists cn m k) as (j0 & Hj0 & Hfree0).
  revert Hj0 Hfree0. generalize (size m). intros n. revert j0.
  induction j0 as [j0 IH] using lt_wf_ind. intros Hj0 Hfree0.
  destruct (decide (Forall (λ i, is_Some (m !! anonymous_name cn (k + N.of_nat i)))
                      (seq 0 j0))) as [Hall|Hex].
  - exists j0. split_and!; [done | done |].
    intros i Hi. rewrite Forall_forall in Hall. apply Hall, elem_of_seq. lia.
  - apply not_Forall_Exists in Hex; [|apply _].
    apply Exists_exists in Hex as (i & Hi & Hnone).
    apply elem_of_seq in Hi.
    apply (IH i); [lia | lia |]. by apply eq_None_not_Some.
Qed.

(** One [object_add ("", c)]. *)
Lemma object_add_anonymous run w c cc :
  classes w !! c = Some cc →
  (name_generation_counter w + N.of_nat (size (objs w)) + 1 < 2 ^ 64)%N →
  ∃ k self w' o',
    object_add run "" c w = Ret self w' ∧
    (name_generation_counter w ≤ k)%N ∧
    (k ≤ name_generation_counter w + N.of_nat (size (objs w)))%N ∧
    name_generation_counter w' = (k + 1)%N ∧
    objs w !! anonymous_name (cname cc) k = None ∧
    heap w !! self = None ∧
    objs w' = <[anonymous_name (cname cc) k := self]> (objs w) ∧
    heap w' = <[self := o']> (heap w) ∧
    name o' = anonymous_name (cname cc) k ∧ anonymous o' = true ∧
    classes w' = <[c := mkClass (cname cc) (refCount cc + 1) (cfields cc)]> (classes w).
Proof.
  intros Hc Hsmall.
  destruct (first_free_name (cname cc) (objs w) (name_generation_counter w))
    as (j & Hj & Hfree & Htaken).
  set (k := (name_generation_counter w + N.of_nat j)%N) in *.
  set (self := fresh (dom (heap w))).
  assert (Hfresh : heap w !! self = None).
  { apply not_elem_of_dom. apply is_fresh. }
  unfold object_add, bind, ret, deref_class. rewrite decide_True by done.
  rewrite Hc.
  rewrite (generate_name_finds (cname cc) (objs w) (size (objs w))
             (name_generation_counter w) j Hj ltac:(lia) Htaken Hfree).
  fold k. simpl. rewrite Hfree.
  unfold new_GritObject, class_acquire, bind, deref_class, modify, ret. simpl.
  rewrite Hc. fold self.
  unfold streamer_list, bind, deref, ret. simpl.
  rewrite lookup_alter_eq, lookup_insert_eq. simpl.
  exists k, self. eexists.
  exists (obj_set_index (streamer_next_index w)
            (obj_set_anonymous true
               (mkObject (anonymous_name (cname cc) k) false (Some c) LUA_NOREF
                  false false false 1 (-1) (0, 0, 0)%Q 0 (-1) None None ∅ false true))).
  split; [reflexivity|]. simpl.
  split_and!; try done.
  - lia.
  - lia.
  - by rewrite alter_alter_eq, alter_insert_eq.
Qed.

(* ================================================================= *)
(** ** The frame callback pass *)

Lemma steady_refl w : steady w w.
Proof. split; try done. intros h o Ho. by exists o. Qed.

Lemma steady_trans w1 w2 w3 : steady w1 w2 → steady w2 w3 → steady w1 w3.
Proof.
  intros [H1 C1 F1] [H2 C2 F2]. split.
  - intros h o Ho. destruct (H1 h o Ho) as (o2 & Ho2 & Hc & Hu).
    destruct (H2 h o2 Ho2) as (o3 & Ho3 & Hc' & Hu').
    exists o3. split_and!; congruence.
  - congruence.
  - by etrans.
Qed.

Lemma lookup_field_steady w w' o o' f :
  classes w' = classes w → gritClass o' = gritClass o →
  userValues o' = userValues o →
  lookup_field w' o' f = lookup_field w o f.
Proof. intros Hc Hk Hu. unfold lookup_field. by rewrite Hc, Hk, Hu. Qed.

(** Unsubscribing a live record. *)
Lemma unsubscribe_live w h o :
  heap w !! h = Some o → gritClass o ≠ None → flagged w →
  returns (setNeedsFrameCallbacks h false) w (λ _ w',
    steady w w' ∧ flagged w' ∧ calls w' = calls w ∧
    h ∉ objs_needing_frame_callbacks w').
Proof.
  intros Ho Hlive Hflag. unfold setNeedsFrameCallbacks.
  apply returns_bind. eapply returns_deref; [done|].
  destruct (gritClass o) as [k|] eqn:Hk; [|done].
  destruct (decide (false = needsFrameCallbacks o)) as [Hoff|Hon].
  - apply returns_ret. split_and!; [apply steady_refl | done | done |].
    intros Hin. destruct (Hflag h Hin) as (o' & Ho' & Hset). congruence.
  - apply returns_bind, returns_modify. simpl. apply returns_modify.
    split_and!.
    + split; simpl; [| done | apply subseteq_difference_l; done].
      intros h' o' Ho'. destruct (decide (h = h')) as [<-|Hne].
      * rewrite lookup_alter_eq, Ho'. eexists. split; [done|]. done.
      * rewrite lookup_alter_ne by done. by exists o'.
    + intros h' Hin. simpl in Hin.
      apply elem_of_difference in Hin as [Hin Hne].
      destruct (Hflag h' Hin) as (o' & Ho' & Hset).
      exists o'. simpl. rewrite lookup_alter_ne; [done|].
      intros ->. apply Hne. by apply elem_of_singleton.
    + done.
    + simpl. apply not_elem_of_difference. right. by apply elem_of_singleton.
Qed.

(** One calm call returns or throws, and leaves a steady world. *)
Lemma calm_cmd_runs run w0 w self c :
  calm_cmd w0 self c → steady w0 w → flagged w →
  match exec_cmd run self c w with
  | Ret _ w' | Throw _ w' => steady w w' ∧ flagged w' ∧ calls w' = calls w
  | _ => False
  end.
Proof.
  intros Hcalm Hst Hflag.
  destruct c as [t|n k|t v|t v|t|t]; try done.
  - (* setNeedsFrameCallbacks (_, false) *)
    destruct v; [done|]. simpl in Hcalm. destruct Hcalm as [o0 Ho0].
    destruct (steady_heap _ _ Hst _ o0 Ho0) as (o & Ho & _).
    simpl. destruct (gritClass o) as [k|] eqn:Hk.
    + pose proof (unsubscribe_live w (resolve self t) o Ho ltac:(congruence) Hflag)
        as Hret.
      unfold returns in Hret.
      destruct (setNeedsFrameCallbacks (resolve self t) false w); try done.
      tauto.
    + unfold setNeedsFrameCallbacks, bind, deref, GRIT_EXCEPT. rewrite Ho, Hk.
      split_and!; [apply steady_refl | done | done].
  - (* setNeedsStepCallbacks *)
    simpl in Hcalm. destruct Hcalm as [o0 Ho0].
    destruct (steady_heap _ _ Hst _ o0 Ho0) as (o & Ho & _).
    simpl. unfold setNeedsStepCallbacks, bind, deref, GRIT_EXCEPT. rewrite Ho.
    destruct (gritClass o) as [k|] eqn:Hk.
    2:{ split_and!; [apply steady_refl | done | done]. }
    destruct (decide (v = needsStepCallbacks o)) as [Heq|Hne].
    { unfold ret. split_and!; [apply steady_refl | done | done]. }
    assert (Hsteady : ∀ f,
      steady w (set_step_set f
                  (alter_obj (obj_set_needsStepCallbacks v) (resolve self t) w)) ∧
      flagged (set_step_set f
                  (alter_obj (obj_set_needsStepCallbacks v) (resolve self t) w))).
    { intros f. split.
      - split; simpl; [| done | done].
        intros h' o' Ho'. destruct (decide (resolve self t = h')) as [<-|Hne'].
        + rewrite lookup_alter_eq, Ho'. eexists. split; [done|]. done.
        + rewrite lookup_alter_ne by done. by exists o'.
      - intros h' Hin. simpl in Hin.
        destruct (Hflag h' Hin) as (o' & Ho' & Hset). simpl.
        destruct (decide (resolve self t = h')) as [<-|Hne'].
        + rewrite lookup_alter_eq, Ho'. eexists. split; [done|]. done.
        + rewrite lookup_alter_ne by done. by exists o'. }
    unfold modify. simpl.
    destruct v; simpl; destruct (Hsteady (λ s, s ∖ {[resolve self t]})),
      (Hsteady (λ s, {[resolve self t]} ∪ s)); split_and!; done.
Qed.

Lemma run_body_calm run w0 self cs : ∀ w,
  Forall (calm_cmd w0 self) cs → steady w0 w → flagged w →
  returns (run_body (exec_cmd run self) cs) w (λ _ w',
    steady w w' ∧ flagged w' ∧ calls w' = calls w).
Proof.
  induction cs as [|c cs IH]; intros w Hcs Hst Hflag.
  { apply returns_ret. split_and!; [apply steady_refl | done | done]. }
  apply Forall_cons in Hcs as [Hc Hcs].
  pose proof (calm_cmd_runs run w0 w self c Hc Hst Hflag) as Hrun.
  unfold returns. simpl.
  destruct (exec_cmd run self c w) as [[] w1|msg w1| |]; try done.
  - destruct Hrun as (Hst1 & Hflag1 & Hcalls1).
    eapply (returns_conseq _ _ _ _ (IH w1 Hcs (steady_trans _ _ _ Hst Hst1) Hflag1)).
    intros ok w2 (Hst2 & Hflag2 & Hcalls2).
    split_and!; [by eapply steady_trans | done | congruence].
Qed.

(** The dispatch to one subscriber of the snapshot. *)
Lemma dispatch_one d elapsed w0 w h :
  wf w0 → subscribers_live w0 → calm w0 →
  h ∈ objs_needing_frame_callbacks w0 →
  steady w0 w → flagged w →
  returns
    (do ok <- frameCallback (host (S d)) h elapsed;
     if negb ok then setNeedsFrameCallbacks h false else ret tt) w
    (λ _ w',
      steady w w' ∧ flagged w' ∧
      calls w' = (calls w ++ dispatched w0 [h])%list ∧
      (stops w0 h → h ∉ objs_needing_frame_callbacks w')).
Proof.
  intros Hwf Hlive Hcalm Hin Hst Hflag.
  destruct (Hlive h Hin) as (o0 & Ho0 & Hlive0).
  destruct (gritClass o0) as [k|] eqn:Hk0; [|done].
  destruct (steady_heap _ _ Hst h o0 Ho0) as (o & Ho & Hk & Hu).
  assert (Hhook : lookup_field w o "frameCallback" = frame_hook w0 h).
  { unfold frame_hook. rewrite Ho0.
    apply lookup_field_steady; [apply (steady_classes _ _ Hst) | done..]. }
  assert (Hclass : is_Some (classes w !! k)).
  { rewrite (steady_classes _ _ Hst). by apply (wf_class _ Hwf h o0). }
  unfold dispatched, stops. simpl.
  apply returns_bind. unfold frameCallback.
  apply returns_bind. eapply returns_deref; [done|].
  rewrite Hk, Hk0.
  apply returns_bind. eapply returns_intro.
  { apply (getField_live w h o k); [done | congruence | done]. }
  rewrite Hhook.
  destruct (frame_hook w0 h) as [s|] eqn:Hs.
  - (* the hook is called *)
    rewrite filter_cons_True by (simpl; eauto). simpl.
    unfold lua_pcall.
    apply returns_bind, returns_bind, returns_modify.
    set (w1 := set_calls _ w).
    assert (Hst1 : steady w w1).
    { split; try done. intros h' o' Ho'. by exists o'. }
    change (host (S d) h s) with (run_script (exec_cmd (host d) h) s).
    unfold run_script. apply returns_bind.
    eapply returns_conseq.
    { apply (run_body_calm (host d) w0 h (body s) w1).
      - by apply Hcalm.
      - by eapply steady_trans.
      - exact Hflag. }
    intros ok w2 (Hst2 & Hflag2 & Hcalls2).
    apply returns_ret, returns_ret.
    destruct (steady_heap _ _ (steady_trans _ _ _ Hst1 Hst2) h o Ho)
      as (o2 & Ho2 & Hk2 & _).
    assert (Hcalls : calls w2 = (calls w ++ [(h, "frameCallback")])%list).
    { by rewrite Hcalls2. }
    assert (Hunsub : returns (setNeedsFrameCallbacks h false) w2 (λ _ w',
      steady w w' ∧ flagged w' ∧
      calls w' = (calls w ++ [(h, "frameCallback")])%list ∧
      (Some s = None ∨ (∃ s0, Some s = Some s0 ∧ finish s0 = Raises) →
       h ∉ objs_needing_frame_callbacks w'))).
    { eapply returns_conseq.
      { apply (unsubscribe_live w2 h o2 Ho2); [congruence | done]. }
      intros _ w' (Hst' & Hflag' & Hcalls' & Hout).
      split_and!; [|done|congruence|done].
      eapply steady_trans; [exact Hst1|]. by eapply steady_trans. }
    destruct ok; [destruct (finish s) eqn:Hfin|]; simpl; try exact Hunsub.
    apply returns_ret. split_and!; [by eapply steady_trans | done | done |].
    intros [?|(s0 & Hs0 & Hraise)]; [done|]. injection Hs0 as <-. congruence.
  - (* no hook resolves *)
    rewrite filter_cons_False by (rewrite Hs; intros [? ?]; done). simpl.
    apply returns_ret. simpl.
    eapply returns_conseq.
    { apply (unsubscribe_live w h o Ho); [congruence | done]. }
    intros _ w' (Hst' & Hflag' & Hcalls' & Hout).
    split_and!; [done | done | by rewrite app_nil_r | done].
Qed.

Lemma dispatched_cons w h l :
  dispatched w (h :: l) = (dispatched w [h] ++ dispatched w l)%list.
Proof.
  unfold dispatched. rewrite <- fmap_app. f_equal.
  change (h :: l) with ([h] ++ l)%list. by rewrite filter_app.
Qed.

(** The pass over a list of subscribers of the snapshot. *)
Lemma for_each_dispatch d elapsed w0 (l : list handle) : ∀ w,
  wf w0 → subscribers_live w0 → calm w0 →
  (∀ h, h ∈ l → h ∈ objs_needing_frame_callbacks w0) →
  steady w0 w → flagged w →
  returns
    (for_each
       (λ i, do ok <- frameCallback (host (S d)) i elapsed;
             if negb ok then setNeedsFrameCallbacks i false else ret tt) l) w
    (λ _ w',
      steady w w' ∧ flagged w' ∧
      calls w' = (calls w ++ dispatched w0 l)%list ∧
      ∀ h, h ∈ l → stops w0 h → h ∉ objs_needing_frame_callbacks w').
Proof.
  induction l as [|h l IH]; intros w Hwf Hlive Hcalm Hl Hst Hflag.
  { apply returns_ret. split_and!; [apply steady_refl | done | |].
    - unfold dispatched. simpl. by rewrite app_nil_r.
    - intros h Hin. by apply elem_of_nil in Hin. }
  simpl. apply returns_bind.
  eapply returns_conseq.
  { apply (dispatch_one d elapsed w0 w h); try done. apply Hl. by left. }
  intros _ w1 (Hst1 & Hflag1 & Hcalls1 & Hout1).
  eapply returns_conseq.
  { apply (IH w1); try done.
    - intros h' Hin. apply Hl. by right.
    - by eapply steady_trans. }
  intros _ w' (Hst' & Hflag' & Hcalls' & Hout').
  split_and!; [by eapply steady_trans | done | |].
  - rewrite (dispatched_cons w0 h l), Hcalls', Hcalls1. by rewrite <- app_assoc.
  - intros h' Hin Hstop. apply elem_of_cons in Hin as [->|Hin].
    + intros Hin'. apply (Hout1 Hstop). by apply (steady_frame _ _ Hst').
    + by apply Hout'.
Qed.

Lemma GObjSet_iter_elem s h : h ∈ GObjSet_iter s ↔ h ∈ s.
Proof. unfold GObjSet_iter. rewrite merge_sort_Permutation. apply elem_of_elements. Qed.

Lemma GObjSet_iter_NoDup s : NoDup (GObjSet_iter s).
Proof. unfold GObjSet_iter. rewrite merge_sort_Permutation. apply NoDup_elements. Qed.

Lemma count_calls_dispatched w l h :
  NoDup l → h ∈ l →
  count_calls (dispatched w l) h "frameCallback" =
    match frame_hook w h with Some _ => 1 | None => 0 end.
Proof.
  unfold count_calls, dispatched.
  assert (Hnotin : ∀ l', h ∉ l' →
    length (filter (λ e, e = (h, "frameCallback"))
              ((λ h0, (h0, "frameCallback")) <$>
               filter (λ h0, is_Some (frame_hook w h0)) l')) = 0).
  { induction l' as [|y l' IH']; intros Hy; [done|].
    apply not_elem_of_cons in Hy as [Hne Hy].
    destruct (decide (is_Some (frame_hook w y))) as [Hsome|Hnone].
    - rewrite filter_cons_True, fmap_cons by done.
      rewrite filter_cons_False by congruence. by apply IH'.
    - rewrite filter_cons_False by done. by apply IH'. }
  induction l as [|x l IH]; intros Hnodup Hin; [by apply elem_of_nil in Hin|].
  apply NoDup_cons in Hnodup as [Hx Hnodup].
  apply elem_of_cons in Hin as [->|Hin].
  - destruct (frame_hook w x) as [s|] eqn:Hs.
    + rewrite filter_cons_True, fmap_cons by (rewrite Hs; eauto).
      rewrite filter_cons_True, length_cons by done.
      by rewrite (Hnotin l Hx).
    + rewrite filter_cons_False by (rewrite Hs; intros [? ?]; done).
      by apply Hnotin.
  - assert (x ≠ h) by (intros ->; done).
    destruct (decide (is_Some (frame_hook w x))) as [Hsome|Hnone].
    + rewrite filter_cons_True, fmap_cons by done.
      rewrite filter_cons_False by congruence. by apply IH.
    + rewrite filter_cons_False by done. by apply IH.
Qed.

Lemma calm_check_sound w : calm_check w = true → calm w.
Proof.
  unfold calm_check. rewrite forallb_forall.
  intros Hall h s Hin Hs. specialize (Hall h). rewrite Hs in Hall.
  assert (Hbody : forallb (calm_cmd_check w h) (body s) = true).
  { apply Hall. apply list_elem_of_In. by apply elem_of_elements. }
  rewrite forallb_forall in Hbody. apply Forall_forall. intros c Hc.
  specialize (Hbody c (proj1 (list_elem_of_In _ _) Hc)).
  destruct c as [t|n k|t v|t v|t|t]; try done.
  - destruct v; [done|]. simpl in *. by eapply bool_decide_eq_true.
  - simpl in *. by eapply bool_decide_eq_true.
Qed.

Lemma subscribers_live_check_sound w :
  subscribers_live_check w = true → subscribers_live w.
Proof.
  unfold subscribers_live_check. rewrite forallb_forall.
  intros Hall h Hin. specialize (Hall h).
  destruct (heap w !! h) as [o|].
  - exists o. split; [done|].
    assert (Hsome : is_Some (gritClass o)).
    { eapply bool_decide_eq_true, Hall.
      apply list_elem_of_In. by apply elem_of_elements. }
    destruct Hsome as [k Hk]. congruence.
  - exfalso. apply diff_false_true, Hall.
    apply list_elem_of_In. by apply elem_of_elements.
Qed.


(** Callbacks that only change subscriptions. When the subscribers are
    live and their callbacks only change subscriptions, never subscribing
    to frame callbacks ([calm]), the pass returns at every depth of the
    host, the log grows by exactly the callbacks that resolve for the
    snapshot, in order, and the pass subscribes nobody. *)
Lemma object_do_frame_callbacks_calm d elapsed w :
  wf w →
  subscribers_live w →
  calm w →
  ∃ w',
    object_do_frame_callbacks (host (S d)) elapsed w = Ret tt w' ∧
    calls w' =
      (calls w ++ dispatched w (GObjSet_iter (objs_needing_frame_callbacks w)))%list ∧
    (∀ h, h ∈ objs_needing_frame_callbacks w →
          count_calls
            (dispatched w (GObjSet_iter (objs_needing_frame_callbacks w)))
            h "frameCallback"
          = match frame_hook w h with Some _ => 1%nat | None => 0%nat end) ∧
    objs_needing_frame_callbacks w' ⊆ objs_needing_frame_callbacks w ∧
    (∀ h, h ∈ objs_needing_frame_callbacks w → stops w h →
          h ∉ objs_needing_frame_callbacks w').
Proof.
  intros Hwf Hlive Hcalm.
  destruct (returns_inv _ _ _
    (for_each_dispatch d elapsed w (GObjSet_iter (objs_needing_frame_callbacks w)) w
       Hwf Hlive Hcalm (λ h, proj1 (GObjSet_iter_elem _ h)) (steady_refl w)
       (wf_frame w Hwf)))
    as ([] & w' & Hrun & Hst & _ & Hcalls & Hout).
  exists w'. split_and!.
  - exact Hrun.
  - exact Hcalls.
  - intros h Hin. apply count_calls_dispatched.
    + apply GObjSet_iter_NoDup.
    + by apply GObjSet_iter_elem.
  - apply (steady_frame _ _ Hst).
  - intros h Hin. apply Hout. by apply GObjSet_iter_elem.
Qed.

(** Example: in [pass_world] the callback of record 1 unsubscribes
    record 2, record 3 has no hook and the hook of record 4 raises. *)
Lemma object_do_frame_callbacks_calm_example :
  ∃ w',
    object_do_frame_callbacks (host 1) 0 pass_world = Ret tt w' ∧
    count_calls
      (dispatched pass_world (GObjSet_iter (objs_needing_frame_callbacks pass_world)))
      2%positive "frameCallback" = 1%nat ∧
    (3%positive ∉ objs_needing_frame_callbacks w') ∧
    (4%positive ∉ objs_needing_frame_callbacks w').
Proof.
  destruct (object_do_frame_callbacks_calm 0 0 pass_world)
    as (w' & Hrun & _ & Hcount & _ & Hout).
  - apply wf_check_sound. by vm_compute.
  - apply subscribers_live_check_sound. by vm_compute.
  - apply calm_check_sound. by vm_compute.
  - exists w'. split; [exact Hrun|]. split; [|split].
    + rewrite (Hcount 2%positive); by vm_compute.
    + apply Hout; [by vm_compute|]. left. by vm_compute.
    + apply Hout; [by vm_compute|]. right. eexists. split; by vm_compute.
Defined.

(* ================================================================= *)
(** ** More on the registry *)

Lemma bind_Ret_inv {A B} (m : M A) (k : A → M B) w b w' :
  bind m k w = Ret b w' → ∃ a w1, m w = Ret a w1 ∧ k a w1 = Ret b w'.
Proof. unfold bind. destruct (m w) as [a w1| | |]; try done. eauto. Qed.

(** Whatever the hooks do, a [destroy] that returns leaves the record
    with a null class reference. *)
Lemma destroy_returns_dead run h w w' :
  destroy run h w = Ret tt w' →
  ∃ o', heap w' !! h = Some o' ∧ gritClass o' = None.
Proof.
  unfold destroy. intros Hrun.
  apply bind_Ret_inv in Hrun as (o & w0 & Hderef & Hrun).
  unfold deref in Hderef. destruct (heap w !! h) as [o0|] eqn:Ho; [|done].
  simplify_eq.
  destruct (gritClass o) as [k|] eqn:Hk.
  2:{ unfold ret in Hrun. simplify_eq. by exists o. }
  apply bind_Ret_inv in Hrun as (? & w1 & _ & Hrun).
  apply bind_Ret_inv in Hrun as (? & w2 & _ & Hrun).
  apply bind_Ret_inv in Hrun as (? & w3 & _ & Hrun).
  apply bind_Ret_inv in Hrun as (? & w4 & _ & Hrun).
  apply bind_Ret_inv in Hrun as (? & w5 & _ & Hrun).
  apply bind_Ret_inv in Hrun as (o5 & w5' & Hderef & Hrun).
  unfold deref in Hderef. destruct (heap w5 !! h) as [o5'|] eqn:Ho5; [|done].
  simplify_eq.
  destruct (gritClass o5) as [k5|]; [|done].
  apply bind_Ret_inv in Hrun as (? & w6 & Hrel & Hrun).
  unfold class_release in Hrel.
  apply bind_Ret_inv in Hrel as (c5 & w5'' & Hderef & Hrel).
  unfold deref_class in Hderef. destruct (classes w5' !! k5); [|done].
  unfold modify in Hrel. simplify_eq.
  unfold tryUnloadResources, bind, modify in Hrun. simplify_eq.
  rewrite !heap_alter_obj_eq. simpl. rewrite Ho5. by eexists.
Qed.

(** Whatever the hooks do, an [object_del] that returns leaves the
    record destroyed, unlisted and its name free. *)
Lemma object_del_returns_dead run h w w' :
  object_del run h w = Ret tt w' →
  ∃ o', heap w' !! h = Some o' ∧ gritClass o' = None ∧ index o' = (-1)%Z ∧
        objs w' !! name o' = None.
Proof.
  unfold object_del. intros Hrun.
  apply bind_Ret_inv in Hrun as ([] & w1 & Hdestroy & Hrun).
  destruct (destroy_returns_dead run h w w1 Hdestroy) as (o1 & Ho1 & Hdead).
  apply bind_Ret_inv in Hrun as ([] & w2 & Hunlist & Hrun).
  assert (Ho2 : heap w2 !! h = Some (obj_set_index (-1) o1) ∧ objs w2 = objs w1).
  { revert Hunlist. unfold streamer_unlist, bind, deref, ret, modify. rewrite Ho1.
    destruct (decide (index o1 = (-1)%Z)) as [Hi|Hi]; intros Heq;
      injection Heq as <-.
    - split; [|done]. rewrite Ho1. f_equal. destruct o1; simpl in *. by rewrite Hi.
    - split; [|done]. simpl. by rewrite lookup_alter_eq, Ho1. }
  destruct Ho2 as [Ho2 Hobjs].
  unfold bind, deref in Hrun. rewrite Ho2 in Hrun. simpl in Hrun.
  exists (obj_set_index (-1) o1).
  destruct (objs w2 !! name o1) eqn:Hname; injection Hrun as <-; simpl.
  - split_and!; try done. apply lookup_delete_eq.
  - split_and!; done.
Qed.



(** X2. After [object_del] of a registered record the name is gone:
    [object_has] is false and [object_get] throws "GritObject does not
    exist"; the record itself stays behind with a null class reference.
    (Hooks are those of [ranked].) *)
Theorem object_del_then_get rank d w n h :
  wf w →
  ranked rank w →
  rank h < d →
  objs w !! n = Some h →
  ∃ w' o',
    object_del (host d) h w = Ret tt w' ∧
    object_has w' n = false ∧
    object_get n w' = Throw ("GritObject does not exist: " ++ n) w' ∧
    heap w' !! h = Some o' ∧ gritClass o' = None.
Proof.
  intros Hwf Hr Hrank Hn.
  destruct (wf_objs _ Hwf n h Hn) as (o & Ho & Hname).
  destruct (returns_inv _ _ _
    (object_del_total rank d w h Hrank Hwf Hr (ex_intro _ o Ho)))
    as ([] & w' & Hdel & [Hd (o' & Ho' & Hdead & Hnone) _] & _).
  destruct (desc_heap _ _ Hd h o Ho) as (o2 & Ho2 & Ha).
  assert (o2 = o') as -> by congruence.
  rewrite (after_name _ _ Ha), Hname in Hnone.
  exists w', o'. split_and!; try done.
  - unfold object_has. rewrite Hnone. apply bool_decide_eq_false. by intros [? ?].
  - unfold object_get. by rewrite Hnone.
Qed.

Lemma object_del_then_get_witness :
  ∃ w' o',
    object_del (host 2) 1%positive chain_world = Ret tt w' ∧
    object_has w' "A" = false ∧
    object_get "A" w' = Throw "GritObject does not exist: A" w' ∧
    heap w' !! 1%positive = Some o' ∧ gritClass o' = None.
Proof.
  apply (object_del_then_get chain_rank 2 chain_world "A" 1%positive).
  - apply wf_check_sound. by vm_compute.
  - apply ranked_check_sound. by vm_compute.
  - vm_compute. lia.
  - by vm_compute.
Defined.

(** X3. Whatever the hooks are: once an [object_del] of a record has
    returned, deleting the same handle again right away is a no-op. *)
Theorem object_del_again run run' h w w' :
  object_del run h w = Ret tt w' →
  object_del run' h w' = Ret tt w'.
Proof.
  intros Hrun.
  destruct (object_del_returns_dead run h w w' Hrun)
    as (o' & Ho' & Hdead & Hindex & Hnone).
  by apply (object_del_destroyed_absent run' w' h o').
Qed.

Lemma object_del_again_witness :
  object_del (host 0) 1%positive
    (world_of (object_del (host 2) 1%positive chain_world))
  = Ret tt (world_of (object_del (host 2) 1%positive chain_world)).
Proof.
  apply (object_del_again (host 2) (host 0) 1%positive chain_world).
  by vm_compute.
Defined.

(** X4. [object_del] on a record that is already destroyed and unlisted
    touches nothing but the registry entry of the record's name: it is a
    no-op when that name is free, and otherwise erases the entry,
    whichever record it belongs to. *)
Theorem object_del_of_dead_record run w h o :
  heap w !! h = Some o →
  gritClass o = None →
  index o = (-1)%Z →
  (objs w !! name o = None → object_del run h w = Ret tt w) ∧
  (is_Some (objs w !! name o) →
   object_del run h w = Ret tt (set_objs (delete (name o)) w)).
Proof.
  intros Ho Hdead Hindex. split.
  - by apply object_del_destroyed_absent.
  - intros [other Hother]. by eapply object_del_destroyed_namesake.
Qed.

Lemma object_del_of_dead_record_witness :
  object_del (host 0) 1%positive replaced_world
  = Ret tt (set_objs (delete "x") replaced_world).
Proof.
  destruct (object_del_of_dead_record (host 0) replaced_world 1%positive
              (default (example_object "" None) (heap replaced_world !! 1%positive)))
    as [_ Htaken].
  - by vm_compute.
  - by vm_compute.
  - by vm_compute.
  - apply Htaken. vm_compute. by eexists.
Defined.

(* ================================================================= *)
(** ** Deleting a record that is not activated

    No hook runs, so the outcome does not depend on the host. *)

Lemma set_heap_id w : set_heap (λ m, m) w = w.
Proof. by destruct w. Qed.

Lemma set_frame_set_const w :
  set_frame_set (λ _, objs_needing_frame_callbacks w) w = w.
Proof. by destruct w. Qed.

Lemma set_step_set_const w :
  set_step_set (λ _, objs_needing_step_callbacks w) w = w.
Proof. by destruct w. Qed.

Lemma deactivate_inactive run w h o :
  heap w !! h = Some o → gritClass o ≠ None → isActivated o = false →
  deactivate run h w = Ret false w.
Proof.
  intros Ho Hlive Hinactive. unfold deactivate, bind, deref. rewrite Ho.
  destruct (gritClass o); [|done]. by rewrite Hinactive.
Qed.

(** Unlinking changes the heap only. *)
Lemma setNearObj_None_heap w self o :
  heap w !! self = Some o →
  returns (setNearObj self None) w (λ _ w',
    ∃ f, w' = set_heap f w ∧ ∀ m x, is_Some (f m !! x) ↔ is_Some (m !! x)).
Proof.
  intros Ho. unfold setNearObj.
  apply returns_bind. eapply returns_deref; [done|].
  destruct (decide (nearObj o = None)) as [Hnone|Hsome].
  { apply returns_ret. exists (λ m, m). by rewrite set_heap_id. }
  destruct (nearObj o) as [n|] eqn:Hn; [|done].
  apply returns_bind, returns_modify.
  apply returns_bind, returns_modify.
  apply returns_ret.
  exists (λ m, alter (obj_set_nearObj None) self (alter (obj_set_farObj None) n m)).
  split; [done|]. intros m x. by rewrite !lookup_alter_is_Some.
Qed.

Lemma setFarObj_None_heap w self o :
  heap w !! self = Some o →
  returns (setFarObj self None) w (λ _ w',
    ∃ f, w' = set_heap f w ∧ ∀ m x, is_Some (f m !! x) ↔ is_Some (m !! x)).
Proof.
  intros Ho. unfold setFarObj.
  apply returns_bind. eapply returns_deref; [done|].
  destruct (decide (farObj o = None)) as [Hnone|Hsome].
  { apply returns_ret. exists (λ m, m). by rewrite set_heap_id. }
  destruct (farObj o) as [n|] eqn:Hn; [|done].
  apply returns_bind, returns_modify.
  apply returns_bind, returns_modify.
  apply returns_ret.
  exists (λ m, alter (obj_set_farObj None) self (alter (obj_set_nearObj None) n m)).
  split; [done|]. intros m x. by rewrite !lookup_alter_is_Some.
Qed.

Lemma drop_from_frame_set_exact w h (flag : bool) :
  (h ∈ objs_needing_frame_callbacks w → flag = true) →
  (if flag then modify (set_frame_set (λ s, s ∖ {[h]})) else ret tt) w
  = Ret tt (set_frame_set (λ _, objs_needing_frame_callbacks w ∖ {[h]}) w).
Proof.
  intros Hflag. destruct flag; [done|].
  unfold ret. f_equal.
  assert (objs_needing_frame_callbacks w ∖ {[h]} = objs_needing_frame_callbacks w)
    as ->; [|by rewrite set_frame_set_const].
  apply set_eq. intros x. rewrite elem_of_difference, elem_of_singleton.
  split; [tauto|]. intros Hx. split; [done|]. intros ->.
  by specialize (Hflag Hx).
Qed.

Lemma drop_from_step_set_exact w h (flag : bool) :
  (h ∈ objs_needing_step_callbacks w → flag = true) →
  (if flag then modify (set_step_set (λ s, s ∖ {[h]})) else ret tt) w
  = Ret tt (set_step_set (λ _, objs_needing_step_callbacks w ∖ {[h]}) w).
Proof.
  intros Hflag. destruct flag; [done|].
  unfold ret. f_equal.
  assert (objs_needing_step_callbacks w ∖ {[h]} = objs_needing_step_callbacks w)
    as ->; [|by rewrite set_step_set_const].
  apply set_eq. intros x. rewrite elem_of_difference, elem_of_singleton.
  split; [tauto|]. intros Hx. split; [done|]. intros ->.
  by specialize (Hflag Hx).
Qed.

Lemma object_del_inactive run w h o k c :
  wf w →
  heap w !! h = Some o → gritClass o = Some k → classes w !! k = Some c →
  isActivated o = false →
  returns (object_del run h) w (λ _ w', deleted_quietly w h o k c w').
Proof.
  intros Hwf Ho Hk Hc Hinactive. unfold object_del, destroy.
  apply returns_bind, returns_bind. eapply returns_deref; [done|]. rewrite Hk.
  (* out of the callback sets *)
  apply returns_bind. eapply returns_intro.
  { apply drop_from_frame_set_exact. intros Hin.
    destruct (wf_frame _ Hwf h Hin) as (o0 & Ho0 & Hflag). congruence. }
  set (wa := set_frame_set _ w).
  apply returns_bind. eapply returns_intro.
  { apply (drop_from_step_set_exact wa). intros Hin.
    destruct (wf_step _ Hwf h Hin) as (o0 & Ho0 & Hflag). congruence. }
  set (wb := set_step_set _ wa).
  (* unlinked *)
  apply returns_bind. eapply returns_conseq.
  { apply returns_and;
      [apply (setNearObj_None wb h o Ho) | apply (setNearObj_None_heap wb h o Ho)]. }
  intros _ w1 ((_ & o1 & Ho1 & Hrl1 & Hnear1) & f1 & -> & Hdom1).
  apply returns_bind. eapply returns_conseq.
  { apply returns_and;
      [apply (setFarObj_None _ h o1 Ho1) | apply (setFarObj_None_heap _ h o1 Ho1)]. }
  intros _ w2 ((_ & o2 & Ho2 & Hrl2 & Hfar2 & Hnear2) & f2 & -> & Hdom2).
  specialize (Hnear2 Hnear1).
  pose proof (relinked_trans _ _ _ Hrl1 Hrl2) as Hrl.
  (* nothing to deactivate *)
  apply returns_bind. eapply returns_intro.
  { apply (deactivate_inactive run _ h o2 Ho2).
    - rewrite (rl_class _ _ Hrl). congruence.
    - unfold isActivated. rewrite (rl_lua _ _ Hrl). exact Hinactive. }
  (* released *)
  apply returns_bind. eapply returns_deref; [done|].
  rewrite (rl_class _ _ Hrl), Hk.
  unfold class_release, tryUnloadResources.
  apply returns_bind, returns_bind. eapply returns_deref_class; [exact Hc|].
  apply returns_modify.
  apply returns_bind, returns_modify.
  apply returns_bind, returns_modify.
  apply returns_modify.
  set (o3 := obj_set_userValues ∅
               (obj_set_demand_loaded false (obj_set_gritClass None o2))).
  set (w3 := alter_obj (obj_set_userValues ∅) h _).
  assert (Ho3 : heap w3 !! h = Some o3).
  { unfold w3. rewrite !heap_alter_obj_eq.
    change (heap (set_classes _ _)) with (heap (set_heap f2 (set_heap f1 wb))).
    by rewrite Ho2. }
  (* out of the streamer *)
  apply returns_bind.
  assert (Hunlist : returns (streamer_unlist h) w3 (λ _ w4,
            heap w4 = <[h := obj_set_index (-1) o3]> (heap w3) ∧
            objs w4 = objs w ∧ classes w4 = classes w3 ∧
            objs_needing_frame_callbacks w4 = objs_needing_frame_callbacks wa ∧
            objs_needing_step_callbacks w4 = objs_needing_step_callbacks wb ∧
            calls w4 = calls w ∧
            name_generation_counter w4 = name_generation_counter w)).
  { unfold streamer_unlist.
    apply returns_bind. eapply returns_deref; [exact Ho3|].
    destruct (decide (index o3 = (-1)%Z)) as [Hi|Hi].
    - apply returns_ret. split_and!; try done.
      symmetry. apply insert_id. rewrite Ho3. f_equal.
      destruct o3; simpl in *. by rewrite Hi.
    - apply returns_modify. split_and!; try done. simpl.
      apply map_eq. intros x. destruct (decide (h = x)) as [<-|Hne].
      + rewrite lookup_alter_eq, lookup_insert_eq.
        change (alter (obj_set_userValues ∅) h _ !! h) with (heap w3 !! h).
        by rewrite Ho3.
      + by rewrite lookup_alter_ne, lookup_insert_ne. }
  eapply returns_conseq; [exact Hunlist|].
  intros _ w4 (Hheap4 & Hobjs4 & Hclasses4 & Hframe4 & Hstep4 & Hcalls4 & Hcounter4).
  assert (Ho4 : heap w4 !! h = Some (obj_set_index (-1) o3)).
  { rewrite Hheap4. apply lookup_insert_eq. }
  apply returns_bind. eapply returns_deref; [exact Ho4|].
  assert (Hname : name (obj_set_index (-1) o3) = name o).
  { simpl. apply (rl_name _ _ Hrl). }
  assert (Hdom : ∀ w5, heap w5 = heap w4 →
            ∀ x, is_Some (heap w5 !! x) ↔ is_Some (heap w !! x)).
  { intros w5 Heq x. rewrite Heq, Hheap4.
    assert (Hx : is_Some (heap w3 !! x) ↔ is_Some (heap w !! x)).
    { unfold w3. unfold alter_obj. simpl.
      rewrite !lookup_alter_is_Some, Hdom2, Hdom1. done. }
    destruct (decide (h = x)) as [<-|Hne].
    - rewrite lookup_insert_eq. split; [intros _; by eexists | by eexists].
    - by rewrite lookup_insert_ne. }
  assert (Hfinal : ∀ w5,
    heap w5 = heap w4 → classes w5 = classes w4 →
    objs_needing_frame_callbacks w5 = objs_needing_frame_callbacks w4 →
    objs_needing_step_callbacks w5 = objs_needing_step_callbacks w4 →
    calls w5 = calls w4 →
    name_generation_counter w5 = name_generation_counter w4 →
    objs w5 = delete (name o) (objs w) →
    deleted_quietly w h o k c w5).
  { intros w5 Hh5 Hc5 Hf5 Hs5 Hcalls5 Hcounter5 Hobjs5. split.
    - split.
      + rewrite Hf5, Hframe4. simpl.
        apply not_elem_of_difference. right. by apply elem_of_singleton.
      + rewrite Hs5, Hstep4. simpl.
        apply not_elem_of_difference. right. by apply elem_of_singleton.
      + exists (obj_set_index (-1) o3). rewrite Hh5, Ho4, Hname, Hobjs5.
        split_and!; try done.
        * unfold isActivated. simpl. rewrite (rl_lua _ _ Hrl). exact Hinactive.
        * apply lookup_delete_eq.
    - exists (obj_set_index (-1) o3). by rewrite Hh5, Ho4.
    - done.
    - by rewrite Hf5, Hframe4.
    - by rewrite Hs5, Hstep4.
    - by rewrite Hc5, Hclasses4.
    - by rewrite Hcalls5, Hcalls4.
    - by rewrite Hcounter5, Hcounter4.
    - by apply Hdom. }
  unfold returns. rewrite Hname, Hobjs4.
  destruct (objs w !! name o) eqn:Hreg.
  - apply Hfinal; try done. simpl. by rewrite Hobjs4.
  - apply Hfinal; try done. rewrite Hobjs4. symmetry. by apply delete_id.
Qed.

(* ================================================================= *)
(** ** Records that delete themselves *)

Lemma wf_object_add_free w n c cc self w' o' :
  wf w →
  heap w !! self = None →
  objs w' = <[n := self]> (objs w) →
  heap w' = <[self := o']> (heap w) →
  name o' = n → gritClass o' = Some c →
  classes w' = <[c := cc]> (classes w) →
  objs_needing_frame_callbacks w' = objs_needing_frame_callbacks w →
  objs_needing_step_callbacks w' = objs_needing_step_callbacks w →
  wf w'.
Proof.
  intros Hwf Hfresh Hobjs Hheap Hname Hclass Hclasses Hframe Hstep.
  assert (Hold : ∀ h o, heap w !! h = Some o → heap w' !! h = Some o).
  { intros h o Ho. rewrite Hheap, lookup_insert_ne; [done|]. congruence. }
  split.
  - intros h o k Ho Hk. rewrite Hclasses.
    destruct (decide (c = k)) as [->|Hne]; [rewrite lookup_insert_eq; by eexists|].
    rewrite lookup_insert_ne by done.
    rewrite Hheap in Ho. destruct (decide (self = h)) as [->|Hne'].
    + rewrite lookup_insert_eq in Ho. congruence.
    + rewrite lookup_insert_ne in Ho by done. by apply (wf_class _ Hwf h o k).
  - intros n' h Hn'. rewrite Hobjs in Hn'.
    destruct (decide (n = n')) as [->|Hne].
    + rewrite lookup_insert_eq in Hn'. simplify_eq.
      exists o'. by rewrite Hheap, lookup_insert_eq.
    + rewrite lookup_insert_ne in Hn' by done.
      destruct (wf_objs _ Hwf n' h Hn') as (o & Ho & Hno). exists o. auto.
  - intros h Hin. rewrite Hframe in Hin.
    destruct (wf_frame _ Hwf h Hin) as (o & Ho & Hflag). exists o. auto.
  - intros h Hin. rewrite Hstep in Hin.
    destruct (wf_step _ Hwf h Hin) as (o & Ho & Hflag). exists o. auto.
Qed.

(** X5. Adding a record under a free name and deleting it again gives
    back the registry, both callback sets and the class table, reference
    count included; no hook is called on the way. *)
Theorem object_add_then_del run run' w n c :
  wf w →
  n ≠ "" →
  objs w !! n = None →
  is_Some (classes w !! c) →
  ∃ self w1 w2,
    object_add run n c w = Ret self w1 ∧
    object_del run' self w1 = Ret tt w2 ∧
    objs w2 = objs w ∧
    classes w2 = classes w ∧
    object_count w2 = object_count w ∧
    objs_needing_frame_callbacks w2 = objs_needing_frame_callbacks w ∧
    objs_needing_step_callbacks w2 = objs_needing_step_callbacks w ∧
    calls w2 = calls w.
Proof.
  intros Hwf Hn Hfree [cc Hc].
  destruct (object_add_free run w n c cc Hn Hfree Hc)
    as (self & w1 & o1 & Hadd & _ & Hfresh & Hobjs & Hheap & Hname & _ & Hclass
        & Hinactive & _ & _ & Hclasses & Hframe & Hstep & _).
  assert (Hwf1 : wf w1) by (by eapply wf_object_add_free).
  assert (Ho1 : heap w1 !! self = Some o1).
  { rewrite Hheap. apply lookup_insert_eq. }
  assert (Hc1 : classes w1 !! c =
                Some (mkClass (cname cc) (refCount cc + 1) (cfields cc))).
  { rewrite Hclasses. apply lookup_insert_eq. }
  destruct (returns_inv _ _ _
    (object_del_inactive run' w1 self o1 c _ Hwf1 Ho1 Hclass Hc1 Hinactive))
    as ([] & w2 & Hdel & Hq).
  assert (Hobjs2 : objs w2 = objs w).
  { rewrite (dq_objs _ _ _ _ _ _ Hq), Hname, Hobjs. by apply delete_insert_id. }
  assert (Hnotin : ∀ s : gset handle,
            (∀ x, x ∈ s → is_Some (heap w !! x)) → s ∖ {[self]} = s).
  { intros s Hs. apply set_eq. intros x.
    rewrite elem_of_difference, elem_of_singleton.
    split; [tauto|]. intros Hx. split; [done|]. intros ->.
    destruct (Hs self Hx) as [? ?]. congruence. }
  exists self, w1, w2. split_and!; try done.
  - rewrite (dq_classes _ _ _ _ _ _ Hq), Hclasses. simpl.
    rewrite insert_insert_eq. apply insert_id. rewrite Hc. f_equal.
    destruct cc; simpl. f_equal. lia.
  - unfold object_count. by rewrite Hobjs2.
  - rewrite (dq_frame _ _ _ _ _ _ Hq), Hframe. apply Hnotin.
    intros x Hx. destruct (wf_frame _ Hwf x Hx) as (o & -> & _). by eexists.
  - rewrite (dq_step _ _ _ _ _ _ Hq), Hstep. apply Hnotin.
    intros x Hx. destruct (wf_step _ Hwf x Hx) as (o & -> & _). by eexists.
  - rewrite (dq_calls _ _ _ _ _ _ Hq).
    revert Hadd. unfold object_add, bind, ret. rewrite decide_False by done.
    simpl. rewrite Hfree.
    unfold new_GritObject, class_acquire, bind, deref_class, modify, ret. simpl.
    rewrite Hc.
    unfold streamer_list, bind, deref, ret. simpl.
    rewrite lookup_alter_eq, lookup_insert_eq. simpl.
    intros Heq. by simplify_eq.
Qed.

Lemma object_add_then_del_witness :
  ∃ self w1 w2,
    object_add (host 0) "C" 2%positive chain_world = Ret self w1 ∧
    object_del (host 0) self w1 = Ret tt w2 ∧
    objs w2 = objs chain_world ∧
    classes w2 = classes chain_world.
Proof.
  destruct (object_add_then_del (host 0) (host 0) chain_world "C" 2%positive)
    as (self & w1 & w2 & Hadd & Hdel & Hobjs & Hclasses & _).
  - apply wf_check_sound. by vm_compute.
  - done.
  - by vm_compute.
  - vm_compute. by eexists.
  - exists self, w1, w2. exact (conj Hadd (conj Hdel (conj Hobjs Hclasses))).
Defined.

Lemma wf_alter_demand w h b : wf w → wf (alter_obj (obj_set_demand_loaded b) h w).
Proof.
  intros Hwf.
  assert (Hlook : ∀ x o, heap w !! x = Some o →
    ∃ o', heap (alter_obj (obj_set_demand_loaded b) h w) !! x = Some o' ∧
          gritClass o' = gritClass o ∧ name o' = name o ∧
          needsFrameCallbacks o' = needsFrameCallbacks o ∧
          needsStepCallbacks o' = needsStepCallbacks o).
  { intros x o Ho. destruct (decide (h = x)) as [<-|Hne].
    - rewrite heap_alter_obj_eq, Ho. by eexists.
    - rewrite heap_alter_obj_ne, Ho by done. by eexists. }
  split.
  - intros x o' k Ho' Hk.
    destruct (heap w !! x) as [o|] eqn:Ho.
    + destruct (Hlook x o Ho) as (o2 & Ho2 & Hc & _).
      apply (wf_class _ Hwf x o k Ho). congruence.
    + destruct (decide (h = x)) as [<-|Hne].
      * rewrite heap_alter_obj_eq, Ho in Ho'. done.
      * rewrite heap_alter_obj_ne, Ho in Ho' by done. done.
  - intros n x Hn. destruct (wf_objs _ Hwf n x Hn) as (o & Ho & Hname).
    destruct (Hlook x o Ho) as (o2 & Ho2 & _ & Hn2 & _). exists o2. split; congruence.
  - intros x Hin. destruct (wf_frame _ Hwf x Hin) as (o & Ho & Hflag).
    destruct (Hlook x o Ho) as (o2 & Ho2 & _ & _ & Hf2 & _). exists o2. split; congruence.
  - intros x Hin. destruct (wf_step _ Hwf x Hin) as (o & Ho & Hflag).
    destruct (Hlook x o Ho) as (o2 & Ho2 & _ & _ & _ & Hs2). exists o2. split; congruence.
Qed.

(** X6. [activate] on a live, inactive record for which no "activate"
    behaviour resolves does not activate it: after the demand load the
    record deletes itself. It ends up torn down, its name is out of the
    registry while the other entries stay, and no hook is called. *)
Theorem activate_without_hook run w h o :
  wf w →
  heap w !! h = Some o →
  gritClass o ≠ None →
  isActivated o = false →
  demand_loaded o = true ∨ demand_loadable o = true →
  lookup_field w o "activate" = None →
  ∃ w',
    activate run h w = Ret tt w' ∧
    torn_down w' h ∧
    object_has w' (name o) = false ∧
    objs w' = delete (name o) (objs w) ∧
    calls w' = calls w.
Proof.
  intros Hwf Ho Hlive Hinactive Hload Hhook.
  destruct (gritClass o) as [k|] eqn:Hk; [|done].
  destruct (wf_class _ Hwf h o k Ho Hk) as [c Hc].
  assert (Hgen : ∀ w0 o0,
    wf w0 → heap w0 !! h = Some o0 → gritClass o0 = Some k →
    isActivated o0 = false → classes w0 = classes w → objs w0 = objs w →
    calls w0 = calls w → name o0 = name o → userValues o0 = userValues o →
    ∃ w',
      (do f <- getField h "activate";
       match f with
       | None => object_del run h
       | Some s =>
           do ref <- luaL_ref;
           modify (alter_obj (obj_set_lua ref) h) ;;
           do status <- lua_pcall run h "activate" s;
           match status with
           | PErr => object_del run h
           | POk _ =>
               streamer_list_as_activated h ;;
               modify (alter_obj (obj_set_lastFade (-1)) h)
           end
       end) w0 = Ret tt w' ∧
      torn_down w' h ∧ object_has w' (name o) = false ∧
      objs w' = delete (name o) (objs w) ∧ calls w' = calls w).
  { intros w0 o0 Hwf0 Ho0 Hk0 Hin0 Hcl0 Hobjs0 Hcalls0 Hname0 Hu0.
    assert (Hc0 : classes w0 !! k = Some c) by (by rewrite Hcl0).
    destruct (returns_inv _ _ _
      (object_del_inactive run w0 h o0 k c Hwf0 Ho0 Hk0 Hc0 Hin0))
      as ([] & w' & Hdel & Hq).
    exists w'. split_and!.
    - unfold bind at 1.
      rewrite (getField_live w0 h o0 k "activate" Ho0 Hk0 (ex_intro _ c Hc0)).
      assert (lookup_field w0 o0 "activate" = None) as ->; [|done].
      rewrite <- Hhook. unfold lookup_field. by rewrite Hu0, Hk0, Hk, Hcl0.
    - apply (dq_torn _ _ _ _ _ _ Hq).
    - unfold object_has. rewrite (dq_objs _ _ _ _ _ _ Hq), Hname0, lookup_delete_eq.
      apply bool_decide_eq_false. by intros [? ?].
    - by rewrite (dq_objs _ _ _ _ _ _ Hq), Hname0, Hobjs0.
    - by rewrite (dq_calls _ _ _ _ _ _ Hq). }
  unfold activate. unfold bind at 1. unfold deref. rewrite Ho, Hinactive, Hk.
  destruct (demand_loaded o) eqn:Hloaded.
  - unfold bind at 1. unfold ret at 1. simpl. by apply (Hgen w o).
  - destruct Hload as [?|Hloadable]; [done|].
    unfold bind at 1. unfold demand_immediateLoad, bind, deref. rewrite Ho, Hloadable.
    simpl. apply (Hgen _ (obj_set_demand_loaded true o)); try done.
    + by apply wf_alter_demand.
    + by rewrite heap_alter_obj_eq, Ho.
Qed.

Lemma activate_without_hook_witness :
  ∃ w',
    activate (host 0) 1%positive bare_world = Ret tt w' ∧
    torn_down w' 1%positive ∧
    object_has w' "a" = false.
Proof.
  destruct (activate_without_hook (host 0) bare_world 1%positive
              (default (example_object "" None) (heap bare_world !! 1%positive)))
    as (w' & Hrun & Htorn & Hhas & _).
  - apply wf_check_sound. by vm_compute.
  - by vm_compute.
  - by vm_compute.
  - by vm_compute.
  - right. by vm_compute.
  - by vm_compute.
  - exists w'. exact (conj Hrun (conj Htorn Hhas)).
Defined.

(** X7. [activate] on a live, inactive record whose resources are not
    loaded and fail to load deletes the record without resolving any
    behaviour. *)
Theorem activate_load_failure run w h o :
  wf w →
  heap w !! h = Some o →
  gritClass o ≠ None →
  isActivated o = false →
  demand_loaded o = false →
  demand_loadable o = false →
  ∃ w',
    activate run h w = Ret tt w' ∧
    torn_down w' h ∧
    object_has w' (name o) = false ∧
    objs w' = delete (name o) (objs w) ∧
    calls w' = calls w.
Proof.
  intros Hwf Ho Hlive Hinactive Hloaded Hloadable.
  destruct (gritClass o) as [k|] eqn:Hk; [|done].
  destruct (wf_class _ Hwf h o k Ho Hk) as [c Hc].
  destruct (returns_inv _ _ _
    (object_del_inactive run w h o k c Hwf Ho Hk Hc Hinactive))
    as ([] & w' & Hdel & Hq).
  exists w'. split_and!.
  - unfold activate. unfold bind at 1. unfold deref. rewrite Ho, Hinactive, Hk, Hloaded.
    unfold bind at 1. unfold demand_immediateLoad, bind, deref.
    rewrite Ho, Hloadable. simpl. exact Hdel.
  - apply (dq_torn _ _ _ _ _ _ Hq).
  - unfold object_has. rewrite (dq_objs _ _ _ _ _ _ Hq), lookup_delete_eq.
    apply bool_decide_eq_false. by intros [? ?].
  - apply (dq_objs _ _ _ _ _ _ Hq).
  - apply (dq_calls _ _ _ _ _ _ Hq).
Qed.

Lemma activate_load_failure_witness :
  ∃ w',
    activate (host 0) 1%positive unloadable_world = Ret tt w' ∧
    torn_down w' 1%positive ∧
    object_has w' "a" = false.
Proof.
  destruct (activate_load_failure (host 0) unloadable_world 1%positive
              (default (example_object "" None) (heap unloadable_world !! 1%positive)))
    as (w' & Hrun & Htorn & Hhas & _).
  - apply wf_check_sound. by vm_compute.
  - by vm_compute.
  - by vm_compute.
  - by vm_compute.
  - by vm_compute.
  - by vm_compute.
  - exists w'. exact (conj Hrun (conj Htorn Hhas)).
Defined.

(** X8. [init] on a live, inactive record for which no "init" behaviour
    resolves deletes the record. *)
Theorem init_without_hook run w h o :
  wf w →
  heap w !! h = Some o →
  gritClass o ≠ None →
  isActivated o = false →
  lookup_field w o "init" = None →
  ∃ w',
    init run h w = Ret tt w' ∧
    torn_down w' h ∧
    object_has w' (name o) = false ∧
    objs w' = delete (name o) (objs w) ∧
    calls w' = calls w.
Proof.
  intros Hwf Ho Hlive Hinactive Hhook.
  destruct (gritClass o) as [k|] eqn:Hk; [|done].
  destruct (wf_class _ Hwf h o k Ho Hk) as [c Hc].
  destruct (returns_inv _ _ _
    (object_del_inactive run w h o k c Hwf Ho Hk Hc Hinactive))
    as ([] & w' & Hdel & Hq).
  exists w'. split_and!.
  - unfold init. unfold bind at 1. unfold deref. rewrite Ho, Hk.
    unfold bind at 1.
    rewrite (getField_live w h o k "init" Ho Hk (ex_intro _ c Hc)), Hhook.
    exact Hdel.
  - apply (dq_torn _ _ _ _ _ _ Hq).
  - unfold object_has. rewrite (dq_objs _ _ _ _ _ _ Hq), lookup_delete_eq.
    apply bool_decide_eq_false. by intros [? ?].
  - apply (dq_objs _ _ _ _ _ _ Hq).
  - apply (dq_calls _ _ _ _ _ _ Hq).
Qed.

Lemma init_without_hook_witness :
  ∃ w',
    init (host 0) 1%positive bare_world = Ret tt w' ∧
    torn_down w' 1%positive ∧
    object_has w' "a" = false.
Proof.
  destruct (init_without_hook (host 0) bare_world 1%positive
              (default (example_object "" None) (heap bare_world !! 1%positive)))
    as (w' & Hrun & Htorn & Hhas & _).
  - apply wf_check_sound. by vm_compute.
  - by vm_compute.
  - by vm_compute.
  - by vm_compute.
  - by vm_compute.
  - exists w'. exact (conj Hrun (conj Htorn Hhas)).
Defined.

(** X9. [notifyFade] on a live record is silent when there is nothing to
    notify: it returns and changes nothing when the record is not
    activated, and also when it is activated but no "setFade" behaviour
    resolves. Unlike for "activate" and "init", the missing behaviour
    does not cost the record its life. *)
Theorem notifyFade_silent run w h o fade :
  wf w →
  heap w !! h = Some o →
  gritClass o ≠ None →
  isActivated o = false ∨ lookup_field w o "setFade" = None →
  notifyFade run h fade w = Ret tt w.
Proof.
  intros Hwf Ho Hlive Hcase.
  destruct (gritClass o) as [k|] eqn:Hk; [|done].
  unfold notifyFade. unfold bind at 1. unfold deref. rewrite Ho, Hk.
  destruct (isActivated o) eqn:Hact; [|done].
  destruct Hcase as [?|Hhook]; [done|]. simpl.
  unfold bind.
  rewrite (getField_live w h o k "setFade" Ho Hk (wf_class _ Hwf h o k Ho Hk)).
  by rewrite Hhook.
Qed.

Lemma notifyFade_silent_witness :
  notifyFade (host 0) 1%positive (1 # 2) chain_world = Ret tt chain_world.
Proof.
  apply (notifyFade_silent (host 0) chain_world 1%positive
           (default (example_object "" None) (heap chain_world !! 1%positive))).
  - apply wf_check_sound. by vm_compute.
  - by vm_compute.
  - by vm_compute.
  - right. by vm_compute.
Defined.

(* ================================================================= *)
(** ** What [deactivate] reports *)

Lemma returns_inv_value {A} (m : M A) w (a : A) (Q : World → Prop) :
  returns m w (λ a' w', a' = a ∧ Q w') → ∃ w', m w = Ret a w' ∧ Q w'.
Proof. unfold returns. destruct (m w) as [a' w'| | |]; try done. intros [-> ?]. eauto. Qed.

(** X10. [deactivate] on a live, activated record returns the
    "destroy me" signal: true when no "deactivate" behaviour resolves or
    the hook raises, and otherwise the value the hook returns. In every
    case the record is still live afterwards and no longer activated.
    (Hooks are those of [ranked].) *)
Theorem deactivate_reports rank d w h o :
  wf w →
  ranked rank w →
  (rank h ≤ d)%nat →
  heap w !! h = Some o →
  gritClass o ≠ None →
  isActivated o = true →
  ∃ w',
    deactivate (host (S d)) h w
      = Ret (match lookup_field w o "deactivate" with
             | None => true
             | Some s =>
                 match finish s with
                 | Returns v => v
                 | Raises => true
                 end
             end) w' ∧
    ∃ o', heap w' !! h = Some o' ∧
          isActivated o' = false ∧
          gritClass o' = gritClass o.
Proof.
  intros Hwf Hr Hrank Ho Hlive Hact.
  destruct (gritClass o) as [k|] eqn:Hk; [|done].
  apply returns_inv_value.
  unfold deactivate.
  apply returns_bind. eapply returns_deref; [done|]. rewrite Hk, Hact. simpl.
  apply returns_bind, returns_modify.
  set (w1 := set_activated _ w).
  assert (Hd1 : descends w w1) by apply descends_set_activated.
  apply returns_bind. eapply returns_intro.
  { apply (getField_live w1 h o k); [done | done |].
    exact (wf_class w Hwf h o k Ho Hk). }
  change (lookup_field w1 o "deactivate") with (lookup_field w o "deactivate").
  destruct (lookup_field w o "deactivate") as [s|] eqn:Hhook.
  - unfold lua_pcall.
    apply returns_bind, returns_bind, returns_modify.
    set (w2 := set_calls _ w1).
    assert (Hd2 : descends w w2).
    { eapply descends_trans; [done | apply descends_set_calls]. }
    change (host (S d) h s) with (run_script (exec_cmd (host d) h) s).
    unfold run_script. apply returns_bind.
    eapply returns_conseq.
    { apply (run_body_ranked rank d (object_del_total rank d) h (body s) w2 Hrank).
      - eapply Forall_impl; [by apply (Hr h o s); rewrite ?Hk|].
        intros c. by apply ranked_cmd_descends.
      - by eapply wf_descends.
      - by eapply ranked_descends. }
    intros ok w3 (-> & Hd3 & Hkeep3).
    apply returns_ret.
    destruct (Hkeep3 h o) as (o3 & Ho3 & Hrl); [lia | done |].
    apply returns_bind. eapply returns_deref; [done|].
    apply returns_bind, returns_ret.
    apply returns_bind, returns_modify, returns_ret.
    split; [by destruct (finish s)|].
    rewrite heap_alter_obj_eq, Ho3. eexists. split; [done|].
    split; [done|]. simpl. by rewrite (rl_class _ _ Hrl).
  - apply returns_bind. eapply returns_deref; [done|].
    apply returns_bind, returns_ret.
    apply returns_bind, returns_modify, returns_ret.
    split; [done|].
    rewrite heap_alter_obj_eq. change (heap w1) with (heap w). rewrite Ho.
    eexists. split; [done|]. by split.
Qed.

Lemma deactivate_reports_witness :
  ∃ w',
    deactivate (host 2) 1%positive chain_world = Ret false w' ∧
    ∃ o', heap w' !! 1%positive = Some o' ∧ isActivated o' = false.
Proof.
  destruct (deactivate_reports chain_rank 1 chain_world 1%positive
              (default (example_object "" None) (heap chain_world !! 1%positive)))
    as (w' & Hrun & o' & Ho' & Hinactive & _).
  - apply wf_check_sound. by vm_compute.
  - apply ranked_check_sound. by vm_compute.
  - vm_compute. lia.
  - by vm_compute.
  - by vm_compute.
  - by vm_compute.
  - exists w'. split; [exact Hrun|]. exists o'. exact (conj Ho' Hinactive).
Defined.

(* ================================================================= *)
(** ** Activation and back *)

(** X11. A live, inactive, loaded record whose "activate" and
    "deactivate" hooks make no calls and return: [activate] activates it
    (fresh instance reference, listed as activated, [lastFade] reset to
    -1); [activate] again is then a no-op; [deactivate] returns what the
    hook returns and leaves the record live, inactive, unlisted as
    activated and still registered. Each hook is called once. *)
Theorem activate_then_deactivate d w h o k sa sd va vd :
  wf w →
  heap w !! h = Some o →
  gritClass o = Some k →
  isActivated o = false →
  demand_loaded o = true →
  lua_next_ref w ≠ LUA_NOREF →
  lookup_field w o "activate" = Some sa →
  body sa = [] → finish sa = Returns va →
  lookup_field w o "deactivate" = Some sd →
  body sd = [] → finish sd = Returns vd →
  ∃ w1 w2 o1 o2,
    activate (host (S d)) h w = Ret tt w1 ∧
    heap w1 !! h = Some o1 ∧
    isActivated o1 = true ∧ lastFade o1 = (-1)%Q ∧
    h ∈ streamer_activated w1 ∧
    activate (host (S d)) h w1 = Ret tt w1 ∧
    deactivate (host (S d)) h w1 = Ret vd w2 ∧
    heap w2 !! h = Some o2 ∧
    isActivated o2 = false ∧ gritClass o2 = Some k ∧
    (h ∉ streamer_activated w2) ∧
    objs w2 = objs w ∧
    calls w2 = (calls w ++ [(h, "activate"); (h, "deactivate")])%list.
Proof.
  intros Hwf Ho Hk Hinactive Hloaded Href Ha Hba Hfa Hd Hbd Hfd.
  destruct sa as [ba fa], sd as [bd fd]. simpl in *. subst.
  pose proof (wf_class _ Hwf h o k Ho Hk) as Hclass.
  set (o1 := obj_set_lastFade (-1) (obj_set_lua (lua_next_ref w) o)).
  set (w1 := alter_obj (obj_set_lastFade (-1)) h
               (set_activated (λ s, {[h]} ∪ s)
                  (set_calls (λ l, (l ++ [(h, "activate")])%list)
                     (alter_obj (obj_set_lua (lua_next_ref w)) h
                        (set_lua_next_ref (lua_next_ref w + 1) w))))).
  assert (Ho1 : heap w1 !! h = Some o1).
  { unfold w1. rewrite !heap_alter_obj_eq. simpl. by rewrite lookup_alter_eq, Ho. }
  assert (Hact1 : isActivated o1 = true).
  { unfold isActivated, o1. simpl. apply negb_true_iff, Z.eqb_neq. exact Href. }
  assert (Hrun1 : activate (host (S d)) h w = Ret tt w1).
  { unfold activate. unfold bind at 1. unfold deref.
    rewrite Ho, Hinactive, Hk, Hloaded.
    unfold bind at 1. unfold ret at 1. simpl.
    unfold bind at 1.
    rewrite (getField_live w h o k "activate" Ho Hk Hclass), Ha.
    done. }
  set (w2 := alter_obj (obj_set_lua LUA_NOREF) h
               (set_calls (λ l, (l ++ [(h, "deactivate")])%list)
                  (set_activated (λ s, s ∖ {[h]}) w1))).
  assert (Hrun2 : deactivate (host (S d)) h w1 = Ret vd w2).
  { unfold deactivate. unfold bind at 1. unfold deref.
    rewrite Ho1. change (gritClass o1) with (gritClass o). rewrite Hk, Hact1.
    simpl. unfold bind at 1. unfold streamer_unlist_as_activated, modify.
    unfold bind at 1.
    rewrite (getField_live _ h o1 k "deactivate"); [| exact Ho1 | exact Hk | exact Hclass].
    change (lookup_field _ o1 "deactivate") with (lookup_field w o "deactivate").
    rewrite Hd. unfold lua_pcall, bind, modify, deref. simpl.
    rewrite lookup_alter_eq. simpl. rewrite lookup_alter_eq, Ho. done. }
  exists w1, w2, o1, (obj_set_lua LUA_NOREF o1).
  split_and!; try done.
  - unfold w1. simpl. apply elem_of_union_l. by apply elem_of_singleton.
  - unfold activate, bind, deref. by rewrite Ho1, Hact1.
  - unfold w2. rewrite heap_alter_obj_eq.
    change (heap (set_calls _ (set_activated _ w1))) with (heap w1).
    by rewrite Ho1.
  - unfold w2. simpl. apply not_elem_of_difference. right. by apply elem_of_singleton.
  - unfold w2. simpl. by rewrite <- app_assoc.
Qed.

Lemma activate_then_deactivate_witness :
  ∃ w1 w2,
    activate (host 1) 1%positive loaded_world = Ret tt w1 ∧
    deactivate (host 1) 1%positive w1 = Ret false w2 ∧
    objs w2 = objs loaded_world.
Proof.
  destruct (activate_then_deactivate 0 loaded_world 1%positive
              (default (example_object "" None) (heap loaded_world !! 1%positive))
              1%positive (Script [] (Returns false)) (Script [] (Returns false))
              false false)
    as (w1 & w2 & o1 & o2 & Hrun1 & _ & _ & _ & _ & _ & Hrun2 & _ & _ & _ & _ & Hobjs & _).
  - apply wf_check_sound. by vm_compute.
  - by vm_compute.
  - by vm_compute.
  - by vm_compute.
  - by vm_compute.
  - by vm_compute.
  - by vm_compute.
  - done.
  - done.
  - by vm_compute.
  - done.
  - done.
  - exists w1, w2. exact (conj Hrun1 (conj Hrun2 Hobjs)).
Defined.

(* ================================================================= *)
(** ** Subscriptions *)

Lemma mirrors_frame_check_sound w : mirrors_frame_check w = true → mirrors_frame w.
Proof.
  unfold mirrors_frame_check. rewrite forallb_forall.
  intros Hall h o Ho Hlive. specialize (Hall (h, o)). simpl in Hall.
  destruct (gritClass o); [|done].
  assert (Heq : bool_decide (h ∈ objs_needing_frame_callbacks w)
                = needsFrameCallbacks o).
  { eapply bool_decide_eq_true, Hall.
    apply list_elem_of_In. by apply elem_of_map_to_list. }
  rewrite <- Heq. symmetry. apply bool_decide_eq_true.
Qed.

Lemma mirrors_step_check_sound w : mirrors_step_check w = true → mirrors_step w.
Proof.
  unfold mirrors_step_check. rewrite forallb_forall.
  intros Hall h o Ho Hlive. specialize (Hall (h, o)). simpl in Hall.
  destruct (gritClass o); [|done].
  assert (Heq : bool_decide (h ∈ objs_needing_step_callbacks w)
                = needsStepCallbacks o).
  { eapply bool_decide_eq_true, Hall.
    apply list_elem_of_In. by apply elem_of_map_to_list. }
  rewrite <- Heq. symmetry. apply bool_decide_eq_true.
Qed.

(** X12. [setNeedsFrameCallbacks (v)] on a live record keeps the frame
    set in step with the flags of the live records: afterwards the record
    is in the set exactly when [v] is true, no other record's membership
    has changed, the step set is untouched, and asking for the same value
    again changes nothing. *)
Theorem setNeedsFrameCallbacks_mirrors w h o v :
  mirrors_frame w →
  heap w !! h = Some o →
  gritClass o ≠ None →
  ∃ w',
    setNeedsFrameCallbacks h v w = Ret tt w' ∧
    mirrors_frame w' ∧
    (h ∈ objs_needing_frame_callbacks w' ↔ v = true) ∧
    (∀ x, x ≠ h →
          (x ∈ objs_needing_frame_callbacks w' ↔ x ∈ objs_needing_frame_callbacks w)) ∧
    objs_needing_step_callbacks w' = objs_needing_step_callbacks w ∧
    setNeedsFrameCallbacks h v w' = Ret tt w'.
Proof.
  intros Hm Ho Hlive.
  destruct (gritClass o) as [k|] eqn:Hk; [|done].
  unfold setNeedsFrameCallbacks at 1. unfold bind at 1. unfold deref. rewrite Ho, Hk.
  destruct (decide (v = needsFrameCallbacks o)) as [Heq|Hne].
  - exists w. split_and!; try done.
    + rewrite (Hm h o Ho) by congruence. by rewrite Heq.
    + unfold setNeedsFrameCallbacks, bind, deref. rewrite Ho, Hk.
      by rewrite decide_True.
  - set (w' := (if negb v
                then set_frame_set (λ s, s ∖ {[h]})
                else set_frame_set (λ s, {[h]} ∪ s))
                 (alter_obj (obj_set_needsFrameCallbacks v) h w)).
    exists w'.
    assert (Ho' : heap w' !! h = Some (obj_set_needsFrameCallbacks v o)).
    { unfold w'. destruct v; simpl; by rewrite lookup_alter_eq, Ho. }
    assert (Hother : ∀ x, x ≠ h → heap w' !! x = heap w !! x).
    { intros x Hx. unfold w'. destruct v; simpl; by rewrite lookup_alter_ne. }
    assert (Hin : h ∈ objs_needing_frame_callbacks w' ↔ v = true).
    { unfold w'. destruct v; simpl.
      - split; [done|]. intros _. apply elem_of_union_l. by apply elem_of_singleton.
      - split; [|done]. intros Hx. apply elem_of_difference in Hx as [_ Hx].
        exfalso. apply Hx. by apply elem_of_singleton. }
    assert (Hout : ∀ x, x ≠ h →
      (x ∈ objs_needing_frame_callbacks w' ↔ x ∈ objs_needing_frame_callbacks w)).
    { intros x Hx. unfold w'. destruct v; simpl.
      - rewrite elem_of_union, elem_of_singleton. tauto.
      - rewrite elem_of_difference, elem_of_singleton. tauto. }
    split_and!; try done.
    + unfold bind, modify. unfold w'. by destruct v.
    + intros x ox Hx Hlx. destruct (decide (x = h)) as [->|Hxh].
      * rewrite Hin. rewrite Ho' in Hx. simplify_eq. done.
      * rewrite Hout by done. rewrite Hother in Hx by done. by apply Hm.
    + unfold w'. by destruct v.
    + unfold setNeedsFrameCallbacks, bind, deref. rewrite Ho'. simpl. rewrite Hk.
      by rewrite decide_True.
Qed.

Lemma setNeedsFrameCallbacks_mirrors_witness :
  ∃ w',
    setNeedsFrameCallbacks 1%positive false chain_world = Ret tt w' ∧
    mirrors_frame w' ∧
    ¬ (1%positive ∈ objs_needing_frame_callbacks w').
Proof.
  destruct (setNeedsFrameCallbacks_mirrors chain_world 1%positive
              (default (example_object "" None) (heap chain_world !! 1%positive))
              false)
    as (w' & Hrun & Hm & Hin & _).
  - apply mirrors_frame_check_sound. by vm_compute.
  - by vm_compute.
  - by vm_compute.
  - exists w'. split; [exact Hrun|]. split; [exact Hm|].
    intros Hx. by apply Hin in Hx.
Defined.

(** X13. The same for [setNeedsStepCallbacks] and the step set. *)
Theorem setNeedsStepCallbacks_mirrors w h o v :
  mirrors_step w →
  heap w !! h = Some o →
  gritClass o ≠ None →
  ∃ w',
    setNeedsStepCallbacks h v w = Ret tt w' ∧
    mirrors_step w' ∧
    (h ∈ objs_needing_step_callbacks w' ↔ v = true) ∧
    (∀ x, x ≠ h →
          (x ∈ objs_needing_step_callbacks w' ↔ x ∈ objs_needing_step_callbacks w)) ∧
    objs_needing_frame_callbacks w' = objs_needing_frame_callbacks w ∧
    setNeedsStepCallbacks h v w' = Ret tt w'.
Proof.
  intros Hm Ho Hlive.
  destruct (gritClass o) as [k|] eqn:Hk; [|done].
  unfold setNeedsStepCallbacks at 1. unfold bind at 1. unfold deref. rewrite Ho, Hk.
  destruct (decide (v = needsStepCallbacks o)) as [Heq|Hne].
  - exists w. split_and!; try done.
    + rewrite (Hm h o Ho) by congruence. by rewrite Heq.
    + unfold setNeedsStepCallbacks, bind, deref. rewrite Ho, Hk.
      by rewrite decide_True.
  - set (w' := (if negb v
                then set_step_set (λ s, s ∖ {[h]})
                else set_step_set (λ s, {[h]} ∪ s))
                 (alter_obj (obj_set_needsStepCallbacks v) h w)).
    exists w'.
    assert (Ho' : heap w' !! h = Some (obj_set_needsStepCallbacks v o)).
    { unfold w'. destruct v; simpl; by rewrite lookup_alter_eq, Ho. }
    assert (Hother : ∀ x, x ≠ h → heap w' !! x = heap w !! x).
    { intros x Hx. unfold w'. destruct v; simpl; by rewrite lookup_alter_ne. }
    assert (Hin : h ∈ objs_needing_step_callbacks w' ↔ v = true).
    { unfold w'. destruct v; simpl.
      - split; [done|]. intros _. apply elem_of_union_l. by apply elem_of_singleton.
      - split; [|done]. intros Hx. apply elem_of_difference in Hx as [_ Hx].
        exfalso. apply Hx. by apply elem_of_singleton. }
    assert (Hout : ∀ x, x ≠ h →
      (x ∈ objs_needing_step_callbacks w' ↔ x ∈ objs_needing_step_callbacks w)).
    { intros x Hx. unfold w'. destruct v; simpl.
      - rewrite elem_of_union, elem_of_singleton. tauto.
      - rewrite elem_of_difference, elem_of_singleton. tauto. }
    split_and!; try done.
    + unfold bind, modify. unfold w'. by destruct v.
    + intros x ox Hx Hlx. destruct (decide (x = h)) as [->|Hxh].
      * rewrite Hin. rewrite Ho' in Hx. simplify_eq. done.
      * rewrite Hout by done. rewrite Hother in Hx by done. by apply Hm.
    + unfold w'. by destruct v.
    + unfold setNeedsStepCallbacks, bind, deref. rewrite Ho'. simpl. rewrite Hk.
      by rewrite decide_True.
Qed.

Lemma setNeedsStepCallbacks_mirrors_witness :
  ∃ w',
    setNeedsStepCallbacks 1%positive true chain_world = Ret tt w' ∧
    mirrors_step w' ∧
    1%positive ∈ objs_needing_step_callbacks w'.
Proof.
  destruct (setNeedsStepCallbacks_mirrors chain_world 1%positive
              (default (example_object "" None) (heap chain_world !! 1%positive))
              true)
    as (w' & Hrun & Hm & Hin & _).
  - apply mirrors_step_check_sound. by vm_compute.
  - by vm_compute.
  - by vm_compute.
  - exists w'. split; [exact Hrun|]. split; [exact Hm|]. by apply Hin.
Defined.

(* ================================================================= *)
(** ** More on fading *)

Section FadeMore.

Local Open Scope Q_scope.

Variable sqrtf : Q → Q.

Lemma clamp0_nonneg q : 0 <= clamp0 q.
Proof. unfold clamp0. destruct (Qlt_le_dec q 0); lra. Qed.

Lemma clamp0_id q : 0 <= q → clamp0 q = q.
Proof. unfold clamp0. destruct (Qlt_le_dec q 0); [lra|done]. Qed.

(** Every call whose near pointer, if set, is valid, in terms of
    [near_fade]. *)
Lemma calcFade_exact w self o range2 overlap :
  heap w !! self = Some o →
  near_valid w o →
  calcFade sqrtf self range2 overlap w =
    Ret (clamp0 (fade_bands (streamer_fade_out_factor w)
                   (streamer_fade_overlap_factor w) (sqrtf range2) (near_fade w o)
                   (bool_decide (is_Some (farObj o)))).1,
         if Qlt_le_dec (near_fade w o) 1 then true else overlap)
        (alter_obj
           (obj_set_imposedFarFade
              (clamp0 (fade_bands (streamer_fade_out_factor w)
                         (streamer_fade_overlap_factor w) (sqrtf range2) (near_fade w o)
                         (bool_decide (is_Some (farObj o)))).2))
           self w).
Proof.
  intros Hself Hnear.
  unfold calcFade, bind, deref, ret. rewrite Hself.
  unfold near_valid in Hnear. unfold near_fade.
  destruct (nearObj o) as [n|].
  - destruct Hnear as [no Hno]. rewrite Hno.
    destruct (isActivated no).
    + unfold fade_bands, clamp0.
      destruct (farObj o); simpl; repeat (destruct (Qlt_le_dec _ _); simpl); done.
    + destruct (Qlt_le_dec 1 1) as [?|_]; [lra|].
      unfold fade_bands, clamp0.
      destruct (farObj o); simpl; repeat (destruct (Qlt_le_dec _ _); simpl); done.
  - destruct (Qlt_le_dec 1 1) as [?|_]; [lra|].
    unfold fade_bands, clamp0.
    destruct (farObj o); simpl; repeat (destruct (Qlt_le_dec _ _); simpl); done.
Qed.

(** X14. Whatever the range and the two factors are, [calcFade] on a
    record whose near pointer is valid returns; the fade it returns and
    the [imposedFarFade] it writes are never negative; without a far
    neighbour the value written is 1; and the call changes nothing in the
    world but that one field of that one record. *)
Theorem calcFade_clamped w self o range2 overlap :
  heap w !! self = Some o →
  near_valid w o →
  ∃ fade ov imposed,
    calcFade sqrtf self range2 overlap w
      = Ret (fade, ov) (alter_obj (obj_set_imposedFarFade imposed) self w) ∧
    0 <= fade ∧ 0 <= imposed ∧
    (farObj o = None → imposed = 1).
Proof.
  intros Hself Hnear.
  rewrite (calcFade_exact w self o range2 overlap Hself Hnear).
  do 3 eexists. split; [reflexivity|].
  split; [apply clamp0_nonneg|]. split; [apply clamp0_nonneg|].
  intros ->.
  change (bool_decide (is_Some (@None handle))) with false.
  unfold fade_bands.
  destruct (Qlt_le_dec _ _); simpl; by apply clamp0_id.
Qed.

(** X15. The by-reference overlap flag: [calcFade] sets it exactly when
    an activated near neighbour imposes a fade below 1, and never clears
    it. *)
Theorem calcFade_overlap_flag w self o range2 overlap :
  heap w !! self = Some o →
  near_valid w o →
  ∃ fade ov w',
    calcFade sqrtf self range2 overlap w = Ret (fade, ov) w' ∧
    (ov = true ↔
     overlap = true ∨
     ∃ n no, nearObj o = Some n ∧ heap w !! n = Some no ∧
             isActivated no = true ∧ imposedFarFade no < 1).
Proof.
  intros Hself Hnear.
  rewrite (calcFade_exact w self o range2 overlap Hself Hnear).
  do 3 eexists. split; [reflexivity|].
  unfold near_fade, near_valid in *.
  destruct (nearObj o) as [n|].
  - destruct Hnear as [no Hno]. rewrite Hno.
    destruct (isActivated no) eqn:Hact.
    + destruct (Qlt_le_dec (imposedFarFade no) 1) as [Hlt|Hge].
      * split; [|done]. intros _. right. by exists n, no.
      * split; [by left|]. intros [?|(n' & no' & ? & ? & _ & ?)]; [done|].
        simplify_eq. lra.
    + destruct (Qlt_le_dec 1 1) as [?|_]; [lra|].
      split; [by left|]. intros [?|(n' & no' & ? & ? & ? & _)]; [done|].
      simplify_eq. congruence.
  - destruct (Qlt_le_dec 1 1) as [?|_]; [lra|].
    split; [by left|]. by intros [?|(n' & no' & ? & _)].
Qed.

(** X16. Cross-fading of a pair. Let [n] be activated with far
    neighbour [f], whose near neighbour is [n]. After [calcFade] on [n],
    a [calcFade] on [f] at a range within [f]'s own threshold returns as
    its fade exactly the [imposedFarFade] that the call on [n] wrote, and
    raises the overlap flag when that value is below 1. *)
Theorem calcFade_pair w n no f fo range2n ovn range2f ovf :
  heap w !! n = Some no →
  near_valid w no →
  isActivated no = true →
  farObj no = Some f →
  heap w !! f = Some fo →
  nearObj fo = Some n →
  n ≠ f →
  sqrtf range2f <= fade_threshold w fo →
  ∃ fade_n ov w1 imposed fade_f ov' w2,
    calcFade sqrtf n range2n ovn w = Ret (fade_n, ov) w1 ∧
    getImposedFarFade w1 n = Some imposed ∧
    calcFade sqrtf f range2f ovf w1 = Ret (fade_f, ov') w2 ∧
    fade_f = imposed ∧
    (imposed < 1 → ov' = true).
Proof.
  intros Hn Hnear Hact Hfar Hf Hnf Hne Hrange.
  set (imposed := clamp0 (fade_bands (streamer_fade_out_factor w)
                            (streamer_fade_overlap_factor w) (sqrtf range2n)
                            (near_fade w no)
                            (bool_decide (is_Some (farObj no)))).2).
  set (w1 := alter_obj (obj_set_imposedFarFade imposed) n w).
  assert (Hn1 : heap w1 !! n = Some (obj_set_imposedFarFade imposed no)).
  { unfold w1. simpl. by rewrite lookup_alter_eq, Hn. }
  assert (Hf1 : heap w1 !! f = Some fo).
  { unfold w1. simpl. by rewrite lookup_alter_ne. }
  assert (Hnf1 : near_fade w1 fo = imposed).
  { unfold near_fade. rewrite Hnf, Hn1.
    change (isActivated (obj_set_imposedFarFade imposed no)) with (isActivated no).
    by rewrite Hact. }
  assert (Hvalid1 : near_valid w1 fo).
  { unfold near_valid. rewrite Hnf, Hn1. by eexists. }
  eexists _, _, w1, imposed, _, _, _.
  split; [by apply calcFade_exact|].
  split; [by apply (getImposedFarFade_written w n no)|].
  split; [by apply (calcFade_exact w1 f fo)|].
  rewrite Hnf1.
  split.
  - change (streamer_fade_out_factor w1) with (streamer_fade_out_factor w).
    change (streamer_fade_overlap_factor w1) with (streamer_fade_overlap_factor w).
    unfold fade_threshold in Hrange. unfold fade_bands.
    destruct (farObj fo); simpl.
    + destruct (Qlt_le_dec _ (sqrtf range2f)) as [?|_]; [lra|].
      destruct (Qlt_le_dec _ (sqrtf range2f)); simpl;
        apply clamp0_id, clamp0_nonneg.
    + destruct (Qlt_le_dec _ (sqrtf range2f)) as [?|_]; [lra|].
      simpl. apply clamp0_id, clamp0_nonneg.
  - intros Hlt. by destruct (Qlt_le_dec imposed 1) as [_|?]; [|lra].
Qed.

End FadeMore.

Lemma calcFade_clamped_witness :
  ∃ fade ov imposed,
    calcFade sqrtf_floor 1%positive 4 false (fade_world_far (1 # 2))
      = Ret (fade, ov)
          (alter_obj (obj_set_imposedFarFade imposed) 1%positive
             (fade_world_far (1 # 2))) ∧
    (0 <= fade)%Q ∧ (0 <= imposed)%Q.
Proof.
  destruct (calcFade_clamped sqrtf_floor (fade_world_far (1 # 2)) 1%positive
              (obj_set_farObj (Some 2%positive) (example_object "a" (Some 1%positive)))
              4 false)
    as (fade & ov & imposed & Hcall & Hf & Hi & _).
  - reflexivity.
  - exact I.
  - exists fade, ov, imposed. exact (conj Hcall (conj Hf Hi)).
Defined.

Lemma calcFade_overlap_flag_witness :
  ∃ fade ov w',
    calcFade sqrtf_floor 2%positive (1 # 4) false
      (alter_obj (obj_set_imposedFarFade (1 # 3)) 1%positive
         (fade_world_pair (1 # 2)))
      = Ret (fade, ov) w' ∧
    ov = true.
Proof.
  destruct (calcFade_overlap_flag sqrtf_floor
              (alter_obj (obj_set_imposedFarFade (1 # 3)) 1%positive
                 (fade_world_pair (1 # 2)))
              2%positive
              (obj_set_nearObj (Some 1%positive) (example_object "b" (Some 1%positive)))
              (1 # 4) false)
    as (fade & ov & w' & Hcall & Hov).
  - reflexivity.
  - vm_compute. by eexists.
  - exists fade, ov, w'. split; [exact Hcall|].
    apply Hov. right. eexists 1%positive, _.
    split; [reflexivity|]. split; [reflexivity|]. split; by vm_compute.
Defined.

Lemma calcFade_pair_witness :
  ∃ fade_n ov w1 imposed fade_f ov' w2,
    calcFade sqrtf_floor 1%positive (9 # 25) false (fade_world_pair (1 # 2))
      = Ret (fade_n, ov) w1 ∧
    getImposedFarFade w1 1%positive = Some imposed ∧
    calcFade sqrtf_floor 2%positive (1 # 4) false w1 = Ret (fade_f, ov') w2 ∧
    fade_f = imposed.
Proof.
  destruct (calcFade_pair sqrtf_floor (fade_world_pair (1 # 2)) 1%positive
              (obj_set_lua 7
                 (obj_set_farObj (Some 2%positive)
                    (example_object "a" (Some 1%positive))))
              2%positive
              (obj_set_nearObj (Some 1%positive) (example_object "b" (Some 1%positive)))
              (9 # 25) false (1 # 4) false)
    as (fade_n & ov & w1 & imposed & fade_f & ov' & w2 & H1 & H2 & H3 & H4 & _).
  - reflexivity.
  - exact I.
  - reflexivity.
  - reflexivity.
  - reflexivity.
  - reflexivity.
  - done.
  - by vm_compute.
  - exists fade_n, ov, w1, imposed, fade_f, ov', w2.
    exact (conj H1 (conj H2 (conj H3 H4))).
Defined.


(* ================================================================= *)
(** ** Anonymous names across the wrap of the counter *)

Lemma counter_succ_lt k : (counter_succ k < 2 ^ 64)%N.
Proof. unfold counter_succ. by apply N.mod_lt. Qed.

Lemma counter_succ_add k j :
  ((counter_succ k + j) mod 2 ^ 64 = (k + (j + 1)) mod 2 ^ 64)%N.
Proof.
  unfold counter_succ. rewrite N.Div0.add_mod_idemp_l. f_equal. lia.
Qed.

(** The loop stops at the first value, counted modulo [2^64], whose name
    is free. *)
Lemma generate_name_finds_wrap cn (m : gmap string handle) : ∀ tries k j,
  (j ≤ tries)%nat →
  (k < 2 ^ 64)%N →
  (∀ i, (i < j)%nat →
        is_Some (m !! anonymous_name cn ((k + N.of_nat i) mod 2 ^ 64))) →
  m !! anonymous_name cn ((k + N.of_nat j) mod 2 ^ 64) = None →
  generate_name cn m tries k =
    Some (anonymous_name cn ((k + N.of_nat j) mod 2 ^ 64),
          counter_succ ((k + N.of_nat j) mod 2 ^ 64)).
Proof.
  induction tries as [|tries IH]; intros k j Hj Hk Htaken Hfree.
  - assert (j = 0)%nat as -> by lia. simpl.
    rewrite N.add_0_r, N.mod_small in * by done. by rewrite Hfree.
  - destruct j as [|j].
    + simpl. rewrite N.add_0_r, N.mod_small in * by done. by rewrite Hfree.
    + simpl. destruct (Htaken 0%nat ltac:(lia)) as [h Hh].
      rewrite N.add_0_r, N.mod_small in Hh by done. rewrite Hh.
      rewrite (IH (counter_succ k) j).
      * rewrite counter_succ_add.
        replace (N.of_nat j + 1)%N with (N.of_nat (S j)) by lia. done.
      * lia.
      * apply counter_succ_lt.
      * intros i Hi. rewrite counter_succ_add.
        replace (N.of_nat i + 1)%N with (N.of_nat (S i)) by lia.
        apply Htaken. lia.
      * rewrite counter_succ_add.
        by replace (N.of_nat j + 1)%N with (N.of_nat (S j)) by lia.
Qed.

(** Offsets below [2^64] lead to different counter values. *)
Lemma wrap_offset_inj (k a b : N) :
  (a < 2 ^ 64)%N → (b < 2 ^ 64)%N →
  ((k + a) mod 2 ^ 64 = (k + b) mod 2 ^ 64)%N → a = b.
Proof.
  intros Ha Hb Heq.
  pose proof (N.div_mod (k + a) (2 ^ 64) ltac:(done)) as Hda.
  pose proof (N.div_mod (k + b) (2 ^ 64) ltac:(done)) as Hdb.
  rewrite Heq in Hda.
  set (M := (2 ^ 64)%N) in *.
  set (qa := ((k + a) / M)%N) in *. set (qb := ((k + b) / M)%N) in *.
  set (rr := ((k + b) mod M)%N) in *.
  destruct (N.lt_trichotomy qa qb) as [Hlt|[Heq'|Hgt]].
  - assert (M * (qa + 1) ≤ M * qb)%N by (apply N.mul_le_mono_l; lia). lia.
  - rewrite Heq' in Hda. lia.
  - assert (M * (qb + 1) ≤ M * qa)%N by (apply N.mul_le_mono_l; lia). lia.
Qed.

(** Among [size m + 1] consecutive values of the counter, one has a free
    name, as long as the registry holds fewer than [2^64] names. *)
Lemma free_name_exists_wrap cn (m : gmap string handle) k :
  (N.of_nat (size m) < 2 ^ 64)%N →
  ∃ j, (j ≤ size m)%nat ∧
       m !! anonymous_name cn ((k + N.of_nat j) mod 2 ^ 64) = None.
Proof.
  intros Hsize.
  set (names := (λ j, anonymous_name cn ((k + N.of_nat j) mod 2 ^ 64))
                  <$> seq 0 (S (size m))).
  destruct (decide (Forall (λ x, is_Some (m !! x)) names)) as [Hall|Hex].
  - exfalso.
    assert (Hnodup : NoDup names).
    { apply NoDup_fmap_2_strong; [|apply NoDup_seq].
      intros j1 j2 Hj1 Hj2 Heq. apply anonymous_name_inj in Heq.
      apply elem_of_seq in Hj1, Hj2.
      apply wrap_offset_inj in Heq; lia. }
    assert (Hsub : (list_to_set names : gset string) ⊆ dom m).
    { intros x Hx. apply elem_of_list_to_set in Hx. apply elem_of_dom.
      rewrite Forall_forall in Hall. by apply Hall. }
    apply subseteq_size in Hsub.
    rewrite size_list_to_set, size_dom in Hsub by done.
    unfold names in Hsub. rewrite length_fmap, length_seq in Hsub. lia.
  - apply not_Forall_Exists in Hex; [|apply _].
    apply Exists_exists in Hex as (x & Hx & Hnone).
    apply list_elem_of_fmap in Hx as (j & -> & Hj).
    apply elem_of_seq in Hj.
    exists j. split; [lia|]. by apply eq_None_not_Some.
Qed.

(** The first index at which a sequence of names is free. *)
Lemma first_free_index (m : gmap string handle) (g : nat → string) : ∀ j0,
  m !! g j0 = None →
  ∃ j, (j ≤ j0)%nat ∧ m !! g j = None ∧ ∀ i, (i < j)%nat → is_Some (m !! g i).
Proof.
  induction j0 as [j0 IH] using lt_wf_ind. intros Hfree0.
  destruct (decide (Forall (λ i, is_Some (m !! g i)) (seq 0 j0))) as [Hall|Hex].
  - exists j0. split_and!; [done | done |].
    intros i Hi. rewrite Forall_forall in Hall. apply Hall, elem_of_seq. lia.
  - apply not_Forall_Exists in Hex; [|apply _].
    apply Exists_exists in Hex as (i & Hi & Hnone).
    apply elem_of_seq in Hi.
    destruct (IH i) as (j & Hj & Hfree & Htaken); [lia | by apply eq_None_not_Some |].
    exists j. split_and!; [lia | done | done].
Qed.

(** The name loop on a registry of fewer than [2^64] names: it stops
    within [size m + 1] tries, on a free name. *)
Lemma generate_name_total cn (m : gmap string handle) k :
  (k < 2 ^ 64)%N →
  (N.of_nat (size m) < 2 ^ 64)%N →
  ∃ k', (k' < 2 ^ 64)%N ∧
        m !! anonymous_name cn k' = None ∧
        generate_name cn m (size m) k = Some (anonymous_name cn k', counter_succ k').
Proof.
  intros Hk Hsize.
  destruct (free_name_exists_wrap cn m k Hsize) as (j0 & Hj0 & Hfree0).
  destruct (first_free_index m
              (λ j, anonymous_name cn ((k + N.of_nat j) mod 2 ^ 64)) j0 Hfree0)
    as (j & Hj & Hfree & Htaken).
  exists ((k + N.of_nat j) mod 2 ^ 64)%N.
  split; [by apply N.mod_lt|]. split; [done|].
  apply generate_name_finds_wrap; [lia | done | done | done].
Qed.

(** The cut-off of the name loop loses nothing: when [size m + 1] tries
    in a row are rejected, the name of every value of the 64-bit counter
    is taken, and the loop of the source goes on for ever. *)
Lemma generate_name_exhausted cn (m : gmap string handle) k :
  (k < 2 ^ 64)%N →
  generate_name cn m (size m) k = None →
  ∀ c, (c < 2 ^ 64)%N → is_Some (m !! anonymous_name cn c).
Proof.
  intros Hk Hnone c Hc.
  destruct (decide (N.of_nat (size m) < 2 ^ 64)%N) as [Hsmall|Hbig].
  - destruct (generate_name_total cn m k Hk Hsmall) as (k' & _ & _ & Hsome).
    congruence.
  - destruct (m !! anonymous_name cn c) as [h|] eqn:Hfree; [by eexists|].
    exfalso.
    set (j0 := N.to_nat ((c + 2 ^ 64 - k) mod 2 ^ 64)).
    assert (Hj0 : (N.of_nat j0 < 2 ^ 64)%N).
    { unfold j0. rewrite N2Nat.id. by apply N.mod_lt. }
    assert (Hc0 : ((k + N.of_nat j0) mod 2 ^ 64 = c)%N).
    { unfold j0. rewrite N2Nat.id.
      rewrite N.Div0.add_mod_idemp_r.
      replace (k + (c + 2 ^ 64 - k))%N with (c + 1 * 2 ^ 64)%N by lia.
      rewrite N.Div0.mod_add. by apply N.mod_small. }
    destruct (first_free_index m
                (λ j, anonymous_name cn ((k + N.of_nat j) mod 2 ^ 64)) j0)
      as (j & Hj & Hfreej & Htaken).
    { simpl. by rewrite Hc0. }
    rewrite (generate_name_finds_wrap cn m (size m) k j) in Hnone;
      [done | lia | done | done | done].
Qed.

(** X18. [object_add] with an empty name on a registry of fewer than
    [2^64] names always returns, also when the 64-bit counter wraps
    around: the record is registered under a generated name that was
    free, so no record is replaced or deleted and no hook is called; the
    counter is left one past the value used. *)
Theorem object_add_anonymous_fresh run w c cc :
  classes w !! c = Some cc →
  (name_generation_counter w < 2 ^ 64)%N →
  (N.of_nat (size (objs w)) < 2 ^ 64)%N →
  ∃ k self w' o',
    object_add run "" c w = Ret self w' ∧
    (k < 2 ^ 64)%N ∧
    objs w !! anonymous_name (cname cc) k = None ∧
    heap w !! self = None ∧
    objs w' = <[anonymous_name (cname cc) k := self]> (objs w) ∧
    heap w' = <[self := o']> (heap w) ∧
    name o' = anonymous_name (cname cc) k ∧ anonymous o' = true ∧
    gritClass o' = Some c ∧
    name_generation_counter w' = counter_succ k ∧
    calls w' = calls w.
Proof.
  intros Hc Hk Hsize.
  destruct (generate_name_total (cname cc) (objs w) (name_generation_counter w)
              Hk Hsize) as (k & Hklt & Hfree & Hgen).
  set (self := fresh (dom (heap w))).
  assert (Hfresh : heap w !! self = None).
  { apply not_elem_of_dom. apply is_fresh. }
  unfold object_add, bind, ret, deref_class. rewrite decide_True by done.
  rewrite Hc, Hgen. simpl. rewrite Hfree.
  unfold new_GritObject, class_acquire, bind, deref_class, modify, ret. simpl.
  rewrite Hc. fold self.
  unfold streamer_list, bind, deref, ret. simpl.
  rewrite lookup_alter_eq, lookup_insert_eq. simpl.
  exists k, self. eexists.
  exists (obj_set_index (streamer_next_index w)
            (obj_set_anonymous true
               (mkObject (anonymous_name (cname cc) k) false (Some c) LUA_NOREF
                  false false false 1 (-1) (0, 0, 0)%Q 0 (-1) None None ∅ false true))).
  split; [reflexivity|]. simpl.
  split_and!; try done.
  by rewrite alter_alter_eq, alter_insert_eq.
Qed.

Lemma object_add_anonymous_fresh_witness :
  ∃ k self w',
    object_add (host 1) "" 1%positive wrap_collision_world = Ret self w' ∧
    objs wrap_collision_world !! anonymous_name "K" k = None ∧
    objs w' !! anonymous_name "K" k = Some self.
Proof.
  destruct (object_add_anonymous_fresh (host 1) wrap_collision_world 1%positive
              (mkClass "K" 1 plain_fields))
    as (k & self & w' & o' & Hrun & _ & Hfree & _ & Hobjs & _).
  - by vm_compute.
  - by vm_compute.
  - by vm_compute.
  - exists k, self, w'. split; [exact Hrun|]. split; [exact Hfree|].
    rewrite Hobjs. apply lookup_insert_eq.
Defined.

(* ================================================================= *)
(** ** The bounding sphere *)

Lemma updateSphere_indexed_eq w h o p rad :
  heap w !! h = Some o →
  index o ≠ (-1)%Z →
  updateSphere h p rad w =
    Ret tt (set_spheres <[index o := (p, rad)]>
              (alter_obj (obj_set_sphere p rad) h w)).
Proof.
  intros Ho Hi. unfold updateSphere, bind, deref. rewrite Ho.
  by rewrite decide_False.
Qed.

(** X19. [updateSphere] on a record that is listed in the streamer
    stores position and radius in the record and in the record's slot of
    the streamer, and touches no other record and no other slot. The two
    short forms each keep the other component: moving the record and then
    resizing it ends in the same world as one call with both. *)
Theorem updateSphere_indexed w h o p rad :
  heap w !! h = Some o →
  index o ≠ (-1)%Z →
  ∃ w',
    updateSphere h p rad w = Ret tt w' ∧
    heap w' !! h = Some (obj_set_sphere p rad o) ∧
    streamer_spheres w' !! index o = Some (p, rad) ∧
    (∀ x, x ≠ h → heap w' !! x = heap w !! x) ∧
    (∀ i, i ≠ index o → streamer_spheres w' !! i = streamer_spheres w !! i) ∧
    objs w' = objs w ∧
    (updateSphere_pos h p ;; updateSphere_r h rad) w = Ret tt w'.
Proof.
  intros Ho Hi.
  rewrite (updateSphere_indexed_eq w h o p rad Ho Hi).
  eexists. split; [reflexivity|]. simpl.
  split_and!.
  - by rewrite lookup_alter_eq, Ho.
  - by rewrite lookup_insert_eq.
  - intros x Hx. by rewrite lookup_alter_ne.
  - intros i Hne. by rewrite lookup_insert_ne.
  - done.
  - unfold updateSphere_pos, updateSphere_r. unfold bind at 1 2. unfold deref at 1.
    rewrite Ho.
    rewrite (updateSphere_indexed_eq w h o p (r o) Ho Hi).
    unfold bind, deref. simpl. rewrite lookup_alter_eq, Ho. simpl.
    rewrite (updateSphere_indexed_eq _ h (obj_set_sphere p (r o) o) p rad);
      [| by simpl; rewrite lookup_alter_eq, Ho | done].
    f_equal. unfold set_spheres, alter_obj, set_heap. simpl.
    rewrite insert_insert_eq.
    f_equal. rewrite alter_alter_eq. by apply alter_ext.
Qed.

Lemma updateSphere_indexed_witness :
  ∃ w',
    updateSphere 1%positive (1, 2, 3)%Q 5 loaded_world = Ret tt w' ∧
    streamer_spheres w' !! 0%Z = Some ((1, 2, 3)%Q, 5%Q) ∧
    (updateSphere_pos 1%positive (1, 2, 3)%Q ;; updateSphere_r 1%positive 5)
      loaded_world = Ret tt w'.
Proof.
  destruct (updateSphere_indexed loaded_world 1%positive
              (default (example_object "" None) (heap loaded_world !! 1%positive))
              (1, 2, 3)%Q 5)
    as (w' & Hrun & _ & Hslot & _ & _ & _ & Hboth).
  - by vm_compute.
  - by vm_compute.
  - exists w'. exact (conj Hrun (conj Hslot Hboth)).
Defined.

(* ================================================================= *)
(** ** The step pass *)

Lemma quiet_steppers_check_sound w :
  quiet_steppers_check w = true → quiet_steppers w.
Proof.
  unfold quiet_steppers_check. rewrite forallb_forall.
  intros Hall h Hin. specialize (Hall h).
  unfold step_hook.
  destruct (heap w !! h) as [o|].
  - assert (Hh : In h (elements (objs_needing_step_callbacks w))).
    { apply list_elem_of_In. by apply elem_of_elements. }
    apply Hall in Hh. apply andb_true_iff in Hh as [Hlive Hbody].
    split.
    + exists o. split; [done|].
      apply bool_decide_eq_true in Hlive. by destruct Hlive as [? ->].
    + intros s Hs. rewrite Hs in Hbody. by destruct (body s).
  - exfalso. apply diff_false_true, Hall.
    apply list_elem_of_In. by apply elem_of_elements.
Qed.

(** The dispatch to one step subscriber whose hook makes no call. *)
Lemma step_one_eq d elapsed w h o k :
  heap w !! h = Some o →
  gritClass o = Some k →
  is_Some (classes w !! k) →
  needsStepCallbacks o = true →
  (∀ s, lookup_field w o "stepCallback" = Some s → body s = []) →
  (do ok <- stepCallback (host (S d)) h elapsed;
   if negb ok then setNeedsStepCallbacks h false else ret tt) w =
  Ret tt
    (match lookup_field w o "stepCallback" with
     | Some s =>
         match finish s with
         | Returns _ => set_calls (λ l, (l ++ [(h, "stepCallback")])%list) w
         | Raises =>
             set_step_set (λ s, s ∖ {[h]})
               (alter_obj (obj_set_needsStepCallbacks false) h
                  (set_calls (λ l, (l ++ [(h, "stepCallback")])%list) w))
         end
     | None =>
         set_step_set (λ s, s ∖ {[h]})
           (alter_obj (obj_set_needsStepCallbacks false) h w)
     end).
Proof.
  intros Ho Hk Hc Hflag Hquiet.
  assert (Hunsub : ∀ w1, heap w1 = heap w →
    setNeedsStepCallbacks h false w1 =
      Ret tt (set_step_set (λ s, s ∖ {[h]})
                (alter_obj (obj_set_needsStepCallbacks false) h w1))).
  { intros w1 Hw1. unfold setNeedsStepCallbacks, bind, deref.
    rewrite Hw1, Ho, Hk, Hflag. by rewrite decide_False. }
  unfold stepCallback. unfold bind at 1 2. unfold deref. rewrite Ho, Hk.
  unfold bind at 1. rewrite (getField_live w h o k) by done.
  destruct (lookup_field w o "stepCallback") as [s|] eqn:Hs.
  - unfold lua_pcall, bind, modify.
    change (host (S d) h s) with (run_script (exec_cmd (host d) h) s).
    unfold run_script, bind. rewrite (Hquiet s eq_refl). simpl.
    destruct (finish s); simpl; [done|].
    by rewrite Hunsub.
  - simpl. by rewrite Hunsub.
Qed.

Lemma dispatched_step_cons w h l :
  dispatched_step w (h :: l) =
    (match step_hook w h with Some _ => [(h, "stepCallback")] | None => [] end
     ++ dispatched_step w l)%list.
Proof.
  unfold dispatched_step.
  destruct (step_hook w h) as [s|] eqn:Hs.
  - rewrite filter_cons_True by (rewrite Hs; by eexists). done.
  - rewrite filter_cons_False by (rewrite Hs; by intros [? ?]). done.
Qed.

Lemma dispatched_step_ext w w1 l :
  (∀ x, x ∈ l → step_hook w1 x = step_hook w x) →
  dispatched_step w1 l = dispatched_step w l.
Proof.
  induction l as [|h l IH]; intros Hext; [done|].
  rewrite !dispatched_step_cons. rewrite (Hext h) by (by left).
  f_equal. apply IH. intros x Hx. apply Hext. by right.
Qed.

Lemma for_each_step_quiet d elapsed : ∀ l w,
  NoDup l →
  step_ready w l →
  ∃ w',
    for_each
      (λ i, do ok <- stepCallback (host (S d)) i elapsed;
            if negb ok then setNeedsStepCallbacks i false else ret tt) l w
      = Ret tt w' ∧
    calls w' = (calls w ++ dispatched_step w l)%list ∧
    (∀ x, x ∈ objs_needing_step_callbacks w' ↔
          x ∈ objs_needing_step_callbacks w ∧ (x ∈ l → step_returns w x)) ∧
    objs_needing_frame_callbacks w' = objs_needing_frame_callbacks w ∧
    objs w' = objs w ∧
    classes w' = classes w ∧
    (∀ x, x ∉ l → heap w' !! x = heap w !! x) ∧
    (∀ x o, heap w !! x = Some o →
            ∃ o', heap w' !! x = Some o' ∧ gritClass o' = gritClass o ∧
                  userValues o' = userValues o).
Proof.
  induction l as [|h l IH]; intros w Hnd Hready.
  - exists w. simpl. split; [done|].
    split; [by rewrite app_nil_r|].
    split.
    { intros x. split; [|by intros [? _]].
      intros Hx. split; [done|]. by intros ?%elem_of_nil. }
    split_and!; try done. intros x o Hx. by exists o.
  - apply NoDup_cons in Hnd as [Hnotin Hnd].
    destruct (Hready h ltac:(left)) as (o & k & Ho & Hk & Hc & Hflag & Hquiet).
    assert (Hhook : step_hook w h = lookup_field w o "stepCallback").
    { unfold step_hook. by rewrite Ho. }
    rewrite Hhook in Hquiet.
    pose proof (step_one_eq d elapsed w h o k Ho Hk Hc Hflag Hquiet) as Hone.
    set (w1 := match lookup_field w o "stepCallback" with
               | Some s =>
                   match finish s with
                   | Returns _ => set_calls (λ l, (l ++ [(h, "stepCallback")])%list) w
                   | Raises =>
                       set_step_set (λ s, s ∖ {[h]})
                         (alter_obj (obj_set_needsStepCallbacks false) h
                            (set_calls (λ l, (l ++ [(h, "stepCallback")])%list) w))
                   end
               | None =>
                   set_step_set (λ s, s ∖ {[h]})
                     (alter_obj (obj_set_needsStepCallbacks false) h w)
               end) in Hone.
    assert (Hclasses1 : classes w1 = classes w).
    { unfold w1. destruct (lookup_field w o "stepCallback") as [s|]; [|done].
      by destruct (finish s). }
    assert (Hobjs1 : objs w1 = objs w).
    { unfold w1. destruct (lookup_field w o "stepCallback") as [s|]; [|done].
      by destruct (finish s). }
    assert (Hframe1 : objs_needing_frame_callbacks w1 = objs_needing_frame_callbacks w).
    { unfold w1. destruct (lookup_field w o "stepCallback") as [s|]; [|done].
      by destruct (finish s). }
    assert (Hheap1 : ∀ x, x ≠ h → heap w1 !! x = heap w !! x).
    { intros x Hx. unfold w1.
      destruct (lookup_field w o "stepCallback") as [s|];
        [destruct (finish s)|]; simpl; try done; by rewrite lookup_alter_ne. }
    assert (Hself1 : ∃ o1, heap w1 !! h = Some o1 ∧ gritClass o1 = gritClass o ∧
                           userValues o1 = userValues o).
    { unfold w1.
      destruct (lookup_field w o "stepCallback") as [s|];
        [destruct (finish s)|]; simpl.
      - by exists o.
      - rewrite lookup_alter_eq, Ho. by eexists.
      - rewrite lookup_alter_eq, Ho. by eexists. }
    assert (Hcalls1 : calls w1 =
      (calls w ++ match step_hook w h with
                  | Some _ => [(h, "stepCallback")] | None => [] end)%list).
    { rewrite Hhook. unfold w1.
      destruct (lookup_field w o "stepCallback") as [s|];
        [destruct (finish s)|]; simpl; try done. by rewrite app_nil_r. }
    assert (Hstep1 : ∀ x, x ∈ objs_needing_step_callbacks w1 ↔
      x ∈ objs_needing_step_callbacks w ∧ (x = h → step_returns w x)).
    { intros x. unfold step_returns. unfold w1.
      destruct (lookup_field w o "stepCallback") as [s|] eqn:Hs;
        [destruct (finish s) as [v|] eqn:Hfin|]; simpl.
      - split; [|by intros [? _]]. intros Hx. split; [done|].
        intros ->. exists s, v. by rewrite Hhook.
      - rewrite elem_of_difference, elem_of_singleton.
        split; [intros [? ?]; by split|].
        intros [Hx Hret]. split; [done|]. intros ->.
        destruct (Hret eq_refl) as (s' & v & Hs' & Hv).
        rewrite Hhook in Hs'. simplify_eq. congruence.
      - rewrite elem_of_difference, elem_of_singleton.
        split; [intros [? ?]; by split|].
        intros [Hx Hret]. split; [done|]. intros ->.
        destruct (Hret eq_refl) as (s' & v & Hs' & _).
        rewrite Hhook in Hs'. congruence. }
    assert (Hhooks1 : ∀ x, x ≠ h → step_hook w1 x = step_hook w x).
    { intros x Hx. unfold step_hook. rewrite Hheap1 by done.
      destruct (heap w !! x) as [ox|]; [|done].
      unfold lookup_field. by rewrite Hclasses1. }
    assert (Hready1 : step_ready w1 l).
    { intros x Hx.
      assert (Hxh : x ≠ h) by (intros ->; done).
      destruct (Hready x ltac:(by right)) as (ox & kx & Hox & Hkx & Hcx & Hfx & Hqx).
      exists ox, kx. rewrite Hheap1, Hclasses1, Hhooks1 by done. done. }
    destruct (IH w1 Hnd Hready1)
      as (w' & Hrun & Hcalls & Hstep & Hframe & Hobjs & Hclasses & Hheap & Hkeep).
    exists w'. split.
    { change (for_each ?f (h :: l)) with (f h ;; for_each f l).
      unfold bind at 1. rewrite Hone. exact Hrun. }
    split.
    { rewrite Hcalls, Hcalls1, dispatched_step_cons, <- app_assoc. do 2 f_equal.
      apply dispatched_step_ext. intros x Hx. apply Hhooks1.
      intros ->. done. }
    split.
    { intros x. rewrite Hstep, Hstep1. unfold step_returns.
      destruct (decide (x = h)) as [->|Hxh].
      - split.
        + intros [[Hx Hret] _]. split; [done|]. intros _. by apply Hret.
        + intros [Hx Hret]. split; [|done]. split; [done|].
          intros _. apply Hret. by left.
      - rewrite Hhooks1 by done. split.
        + intros [[Hx _] Hret]. split; [done|].
          intros [?|Hin]%elem_of_cons; [done|]. by apply Hret.
        + intros [Hx Hret]. split; [by split|].
          intros Hin. apply Hret. by right. }
    split; [congruence|]. split; [congruence|]. split; [congruence|].
    split.
    { intros x Hx. apply not_elem_of_cons in Hx as [Hxh Hxl].
      rewrite Hheap by done. by apply Hheap1. }
    intros x ox Hox.
    destruct (decide (x = h)) as [->|Hxh].
    + destruct Hself1 as (o1 & Ho1 & Hk1 & Hu1).
      destruct (Hkeep h o1 Ho1) as (o' & Ho' & Hk' & Hu').
      simplify_eq. exists o'. split; [done|]. split; congruence.
    + apply Hkeep. by rewrite Hheap1.
Qed.

(** X20. A step pass over subscribers that are live and whose step
    callbacks make no call into the engine: the pass returns; it invokes,
    in the order of the set and once each, the [stepCallback] of every
    subscriber for which one resolves; a subscriber stays in the step set
    exactly when its callback resolved and returned, so one with no
    callback or with a callback that raises is unsubscribed; the frame
    set and the registry are as before. *)
Theorem object_do_step_callbacks_quiet d elapsed w :
  wf w →
  quiet_steppers w →
  ∃ w',
    object_do_step_callbacks (host (S d)) elapsed w = Ret tt w' ∧
    calls w' =
      (calls w ++ dispatched_step w (GObjSet_iter (objs_needing_step_callbacks w)))%list ∧
    (∀ h, h ∈ objs_needing_step_callbacks w' ↔
          h ∈ objs_needing_step_callbacks w ∧ step_returns w h) ∧
    (∀ h, h ∈ objs_needing_step_callbacks w →
          count_calls
            (dispatched_step w (GObjSet_iter (objs_needing_step_callbacks w)))
            h "stepCallback"
          = match step_hook w h with Some _ => 1%nat | None => 0%nat end) ∧
    objs_needing_frame_callbacks w' = objs_needing_frame_callbacks w ∧
    objs w' = objs w.
Proof.
  intros Hwf Hquiet.
  assert (Hready : step_ready w (GObjSet_iter (objs_needing_step_callbacks w))).
  { intros h Hh. apply GObjSet_iter_elem in Hh.
    destruct (Hquiet h Hh) as [(o & Ho & Hlive) Hq].
    destruct (gritClass o) as [k|] eqn:Hk; [|done].
    destruct (wf_step _ Hwf h Hh) as (o' & Ho' & Hflag).
    simplify_eq. exists o, k. split_and!; try done.
    by apply (wf_class _ Hwf h o). }
  destruct (for_each_step_quiet d elapsed _ w
              (GObjSet_iter_NoDup (objs_needing_step_callbacks w)) Hready)
    as (w' & Hrun & Hcalls & Hstep & Hframe & Hobjs & _).
  exists w'. split; [exact Hrun|]. split; [exact Hcalls|].
  split.
  { intros h. rewrite Hstep. split.
    - intros [Hh Hret]. split; [done|]. apply Hret. by apply GObjSet_iter_elem.
    - intros [Hh Hret]. by split. }
  split; [|by split].
  intros h Hh. unfold count_calls, dispatched_step.
  assert (Hnd := GObjSet_iter_NoDup (objs_needing_step_callbacks w)).
  assert (Hin : h ∈ GObjSet_iter (objs_needing_step_callbacks w))
    by by apply GObjSet_iter_elem.
  revert Hnd Hin. generalize (GObjSet_iter (objs_needing_step_callbacks w)).
  induction l as [|x l IH]; intros Hnd Hin; [by apply elem_of_nil in Hin|].
  apply NoDup_cons in Hnd as [Hx Hnd].
  assert (Hnone : ∀ l', h ∉ l' →
    length (filter (λ e, e = (h, "stepCallback"))
              ((λ y, (y, "stepCallback")) <$> filter (λ y, is_Some (step_hook w y)) l'))
    = 0%nat).
  { induction l' as [|y l' IH']; intros Hy; [done|].
    apply not_elem_of_cons in Hy as [Hhy Hy].
    destruct (decide (is_Some (step_hook w y))).
    - rewrite filter_cons_True by done. simpl.
      rewrite filter_cons_False by (intros [=]; done). by apply IH'.
    - rewrite filter_cons_False by done. by apply IH'. }
  apply elem_of_cons in Hin as [<-|Hin].
  - destruct (step_hook w h) as [s|] eqn:Hs.
    + rewrite filter_cons_True by (rewrite Hs; by eexists). simpl.
      rewrite filter_cons_True by done. simpl. by rewrite Hnone.
    + rewrite filter_cons_False by (rewrite Hs; by intros [? ?]). by rewrite Hnone.
  - assert (h ≠ x) by (intros ->; done).
    destruct (decide (is_Some (step_hook w x))).
    + rewrite filter_cons_True by done. simpl.
      rewrite filter_cons_False by (intros [=]; done). by apply IH.
    + rewrite filter_cons_False by done. by apply IH.
Qed.

Lemma object_do_step_callbacks_quiet_witness :
  ∃ w',
    object_do_step_callbacks (host 1) 1 step_world = Ret tt w' ∧
    calls w' = [(1%positive, "stepCallback"); (3%positive, "stepCallback")] ∧
    (1%positive ∈ objs_needing_step_callbacks w') ∧
    (2%positive ∉ objs_needing_step_callbacks w') ∧
    (3%positive ∉ objs_needing_step_callbacks w').
Proof.
  destruct (object_do_step_callbacks_quiet 0 1 step_world)
    as (w' & Hrun & Hcalls & Hstep & _).
  - apply wf_check_sound. by vm_compute.
  - apply quiet_steppers_check_sound. by vm_compute.
  - exists w'. split; [exact Hrun|].
    split; [rewrite Hcalls; by vm_compute|].
    split; [|split].
    + apply Hstep. split; [by vm_compute|].
      eexists _, _. split; by vm_compute.
    + intros Hin. apply Hstep in Hin as [_ (s & v & Hs & _)]. by vm_compute in Hs.
    + intros Hin. apply Hstep in Hin as [_ (s & v & Hs & Hv)].
      vm_compute in Hs. injection Hs as <-. by vm_compute in Hv.
Defined.

(* ================================================================= *)
(** ** Hooks that fail *)

(** A protected call of a hook that makes no call into the engine. *)
Lemma lua_pcall_quiet d w h f s :
  body s = [] →
  lua_pcall (host (S d)) h f s w =
    Ret (match finish s with Returns v => POk v | Raises => PErr end)
        (set_calls (λ l, (l ++ [(h, f)])%list) w).
Proof.
  intros Hbody. unfold lua_pcall, bind, modify.
  change (host (S d) h s) with (run_script (exec_cmd (host d) h) s).
  unfold run_script, bind. rewrite Hbody. simpl. by destruct (finish s).
Qed.

(** [object_del] right after a hook of the record has been logged. *)
Lemma object_del_logged rank d w h o f :
  wf w → ranked rank w → (rank h ≤ d)%nat →
  heap w !! h = Some o → gritClass o ≠ None →
  ∃ w',
    object_del (host (S d)) h (set_calls (λ l, (l ++ [(h, f)])%list) w) = Ret tt w' ∧
    torn_down w' h ∧
    object_has w' (name o) = false ∧
    objs w' ⊆ objs w.
Proof.
  intros Hwf Hr Hrank Ho Hlive.
  set (w1 := set_calls (λ l, (l ++ [(h, f)])%list) w).
  assert (Hd1 : descends w w1) by apply descends_set_calls.
  assert (Ho1 : heap w1 !! h = Some o) by done.
  destruct (returns_inv _ _ _
    (object_del_total rank (S d) w1 h ltac:(lia)
       (wf_descends _ _ Hwf Hd1) (ranked_descends rank _ _ Hwf Hd1 Hr)
       (ex_intro _ o Ho1)))
    as ([] & w' & Hdel & Hdeleted & _).
  exists w'. split; [exact Hdel|].
  destruct (deleted_live _ _ _ Hdeleted o Ho1 Hlive) as [Htorn _].
  split; [exact Htorn|].
  pose proof (deleted_descends _ _ _ Hdeleted) as Hd.
  split.
  - destruct (torn_record _ _ Htorn) as (o' & Ho' & _ & _ & _ & _ & _ & Hnone).
    destruct (desc_heap _ _ Hd h o Ho1) as (o2 & Ho2 & Hafter).
    simplify_eq. rewrite (after_name _ _ Hafter) in Hnone.
    unfold object_has. rewrite Hnone.
    apply bool_decide_eq_false. by intros [? ?].
  - apply (desc_objs _ _ Hd).
Qed.

(** X21. [init] on a live record whose "init" behaviour makes no call
    into the engine. When the behaviour returns, it has been invoked once
    and nothing else has changed: the record stays registered as it was.
    When it raises, the record is deleted: torn down and out of the
    registry. (The [deactivate] hooks that the deletion may run are those
    of [ranked].) *)
Theorem init_with_hook rank d w h o s :
  wf w →
  ranked rank w →
  (rank h ≤ d)%nat →
  heap w !! h = Some o →
  gritClass o ≠ None →
  lookup_field w o "init" = Some s →
  body s = [] →
  ∃ w',
    init (host (S d)) h w = Ret tt w' ∧
    match finish s with
    | Returns _ => w' = set_calls (λ l, (l ++ [(h, "init")])%list) w
    | Raises =>
        torn_down w' h ∧ object_has w' (name o) = false ∧ objs w' ⊆ objs w
    end.
Proof.
  intros Hwf Hr Hrank Ho Hlive Hhook Hbody.
  destruct (gritClass o) as [k|] eqn:Hk; [|done].
  assert (Hc := wf_class _ Hwf h o k Ho Hk).
  unfold init. unfold bind at 1. unfold deref. rewrite Ho, Hk.
  unfold bind at 1. rewrite (getField_live w h o k "init" Ho Hk Hc), Hhook.
  unfold bind at 1. rewrite (lua_pcall_quiet d w h "init" s Hbody).
  destruct (finish s).
  - by eexists.
  - destruct (object_del_logged rank d w h o "init" Hwf Hr Hrank Ho)
      as (w' & Hdel & Htorn & Hhas & Hsub); [congruence|].
    by exists w'.
Qed.

Lemma init_with_hook_witness :
  ∃ w',
    init (host 1) 1%positive loaded_world = Ret tt w' ∧
    w' = set_calls (λ l, (l ++ [(1%positive, "init")])%list) loaded_world.
Proof.
  destruct (init_with_hook (λ _, 0%nat) 0 loaded_world 1%positive
              (default (example_object "" None) (heap loaded_world !! 1%positive))
              (Script [] (Returns false)))
    as (w' & Hrun & Hw').
  - apply wf_check_sound. by vm_compute.
  - apply ranked_check_sound. by vm_compute.
  - done.
  - by vm_compute.
  - by vm_compute.
  - by vm_compute.
  - done.
  - exists w'. exact (conj Hrun Hw').
Defined.

(** X22. [notifyFade] on a live, activated record whose "setFade"
    behaviour makes no call into the engine. When the behaviour returns,
    it has been invoked once and nothing else has changed; when it raises,
    the record is deleted: torn down and out of the registry. (The
    [deactivate] hooks that the deletion runs are those of [ranked].) *)
Theorem notifyFade_with_hook rank d w h o s fade :
  wf w →
  ranked rank w →
  (rank h ≤ d)%nat →
  heap w !! h = Some o →
  gritClass o ≠ None →
  isActivated o = true →
  lookup_field w o "setFade" = Some s →
  body s = [] →
  ∃ w',
    notifyFade (host (S d)) h fade w = Ret tt w' ∧
    match finish s with
    | Returns _ => w' = set_calls (λ l, (l ++ [(h, "setFade")])%list) w
    | Raises =>
        torn_down w' h ∧ object_has w' (name o) = false ∧ objs w' ⊆ objs w
    end.
Proof.
  intros Hwf Hr Hrank Ho Hlive Hact Hhook Hbody.
  destruct (gritClass o) as [k|] eqn:Hk; [|done].
  assert (Hc := wf_class _ Hwf h o k Ho Hk).
  unfold notifyFade. unfold bind at 1. unfold deref. rewrite Ho, Hk, Hact.
  change (negb true) with false. cbv iota.
  unfold bind at 1. rewrite (getField_live w h o k "setFade" Ho Hk Hc), Hhook.
  unfold bind at 1. rewrite (lua_pcall_quiet d w h "setFade" s Hbody).
  destruct (finish s).
  - by eexists.
  - destruct (object_del_logged rank d w h o "setFade" Hwf Hr Hrank Ho)
      as (w' & Hdel & Htorn & Hhas & Hsub); [congruence|].
    by exists w'.
Qed.

Lemma notifyFade_with_hook_witness :
  ∃ w',
    notifyFade (host 1) 1%positive (1 # 2) fading_world = Ret tt w' ∧
    torn_down w' 1%positive ∧
    object_has w' "a" = false.
Proof.
  destruct (notifyFade_with_hook (λ _, 0%nat) 0 fading_world 1%positive
              (default (example_object "" None) (heap fading_world !! 1%positive))
              (Script [] Raises) (1 # 2))
    as (w' & Hrun & Htorn & Hhas & _).
  - apply wf_check_sound. by vm_compute.
  - apply ranked_check_sound. by vm_compute.
  - done.
  - by vm_compute.
  - by vm_compute.
  - by vm_compute.
  - by vm_compute.
  - done.
  - exists w'. exact (conj Hrun (conj Htorn Hhas)).
Defined.

(* ================================================================= *)
(** ** Listing the registry *)

Lemma name_le_total : Total name_le.
Proof.
  intros a b. unfold name_le.
  destruct (String.leb_total a.1 b.1) as [H|H]; rewrite H; [by left | by right].
Qed.

(** X23. The four read-only views of the registry agree. [object_all]
    walks the entries in the order of their names, each name once;
    [object_count] is the number of entries walked, as long as that
    number fits the [int] it is returned in; an entry is walked exactly
    when [object_get] of its name returns its handle; and [object_has]
    holds of exactly the names walked. *)
Theorem object_all_consistent w :
  Sorted name_le (object_all w) ∧
  NoDup (object_all w).*1 ∧
  ((length (object_all w) < 2 ^ 31)%nat →
   object_count w = Z.of_nat (length (object_all w))) ∧
  (∀ n h, (n, h) ∈ object_all w ↔ object_get n w = Ret h w) ∧
  (∀ n, object_has w n = true ↔ n ∈ (object_all w).*1).
Proof.
  unfold object_all, GObjMap_iter, object_count.
  assert (Hperm : merge_sort name_le (map_to_list (objs w)) ≡ₚ map_to_list (objs w))
    by apply merge_sort_Permutation.
  split; [apply Sorted_merge_sort, name_le_total|].
  split; [rewrite Hperm; apply NoDup_fst_map_to_list|].
  split; [intros _; by rewrite Hperm, length_map_to_list|].
  split.
  - intros n h. rewrite Hperm, elem_of_map_to_list. unfold object_get.
    destruct (objs w !! n) as [h'|]; [|done].
    split; [by intros [= ->] | by intros [= ->]].
  - intros n. rewrite Hperm. unfold object_has.
    rewrite bool_decide_eq_true. rewrite list_elem_of_fmap. split.
    + intros [h Hh]. exists (n, h). split; [done|]. by apply elem_of_map_to_list.
    + intros ([n' h] & -> & Hin). apply elem_of_map_to_list in Hin. by exists h.
Qed.

(* ================================================================= *)
(** ** Deleting a record whose [deactivate] behaviour is quiet *)

Lemma obj_set_lua_id o : lua o = LUA_NOREF → obj_set_lua LUA_NOREF o = o.
Proof. intros H. destruct o. simpl in *. by rewrite H. Qed.

Lemma deactivate_quiet d wx h ox k :
  heap wx !! h = Some ox →
  gritClass ox = Some k →
  is_Some (classes wx !! k) →
  quiet_deactivate wx ox →
  ∃ b wy,
    deactivate (host (S d)) h wx = Ret b wy ∧
    heap wy !! h = Some (obj_set_lua LUA_NOREF ox) ∧
    (∀ x, x ≠ h → heap wy !! x = heap wx !! x) ∧
    classes wy = classes wx ∧
    objs wy = objs wx ∧
    objs_needing_frame_callbacks wy = objs_needing_frame_callbacks wx ∧
    objs_needing_step_callbacks wy = objs_needing_step_callbacks wx ∧
    name_generation_counter wy = name_generation_counter wx ∧
    calls wy = (calls wx ++ deactivate_call wx h ox)%list.
Proof.
  intros Ho Hk Hc Hquiet.
  unfold deactivate_call.
  destruct (isActivated ox) eqn:Hact.
  - unfold deactivate. unfold bind at 1. unfold deref. rewrite Ho, Hk, Hact.
    change (negb true) with false. cbv iota.
    unfold bind at 1. unfold streamer_unlist_as_activated, modify.
    unfold bind at 1.
    rewrite (getField_live _ h ox k "deactivate"); [| exact Ho | exact Hk | exact Hc].
    change (lookup_field (set_activated _ wx) ox "deactivate")
      with (lookup_field wx ox "deactivate").
    destruct (lookup_field wx ox "deactivate") as [s|] eqn:Hs.
    + unfold bind at 1. rewrite (lua_pcall_quiet d _ h "deactivate" s (Hquiet s Hs)).
      unfold bind, deref, luaL_unref, modify, ret. simpl. rewrite Ho.
      eexists _, _. split; [reflexivity|]. simpl.
      split_and!; try done.
      * by rewrite lookup_alter_eq, Ho.
      * intros x Hx. by rewrite lookup_alter_ne.
    + unfold bind, deref, luaL_unref, modify, ret. simpl. rewrite Ho.
      eexists _, _. split; [reflexivity|]. simpl.
      split_and!; try done.
      * by rewrite lookup_alter_eq, Ho.
      * intros x Hx. by rewrite lookup_alter_ne.
      * by rewrite app_nil_r.
  - exists false, wx. split.
    { apply (deactivate_inactive _ wx h ox Ho); [congruence | done]. }
    split_and!; try done.
    + by rewrite obj_set_lua_id by (by apply isActivated_false_lua).
    + by rewrite app_nil_r.
Qed.

(** Deleting a live record with a quiet [deactivate] behaviour. *)
Lemma object_del_quiet_returns d w h o k c :
  wf w →
  heap w !! h = Some o →
  gritClass o = Some k →
  classes w !! k = Some c →
  quiet_deactivate w o →
  returns (object_del (host (S d)) h) w (λ _ w',
    torn_down w' h ∧
    objs w' = delete (name o) (objs w) ∧
    calls w' = (calls w ++ deactivate_call w h o)%list ∧
    classes w' = <[k := mkClass (cname c) (refCount c - 1) (cfields c)]> (classes w) ∧
    objs_needing_frame_callbacks w' = objs_needing_frame_callbacks w ∖ {[h]} ∧
    objs_needing_step_callbacks w' = objs_needing_step_callbacks w ∖ {[h]}).
Proof.
  intros Hwf Ho Hk Hc Hquiet.
  unfold object_del, destroy.
  apply returns_bind, returns_bind. eapply returns_deref; [done|]. rewrite Hk.
  (* out of the callback sets *)
  apply returns_bind. eapply returns_intro.
  { apply drop_from_frame_set_exact. intros Hin.
    destruct (wf_frame _ Hwf h Hin) as (o0 & Ho0 & Hflag). congruence. }
  set (wa := set_frame_set _ w).
  apply returns_bind. eapply returns_intro.
  { apply (drop_from_step_set_exact wa). intros Hin.
    destruct (wf_step _ Hwf h Hin) as (o0 & Ho0 & Hflag). congruence. }
  set (wb := set_step_set _ wa).
  (* unlinked *)
  apply returns_bind. eapply returns_conseq.
  { apply returns_and;
      [apply (setNearObj_None wb h o Ho) | apply (setNearObj_None_heap wb h o Ho)]. }
  intros _ w1 ((_ & o1 & Ho1 & Hrl1 & Hnear1) & f1 & -> & Hdom1).
  apply returns_bind. eapply returns_conseq.
  { apply returns_and;
      [apply (setFarObj_None _ h o1 Ho1) | apply (setFarObj_None_heap _ h o1 Ho1)]. }
  intros _ w2 ((_ & o2 & Ho2 & Hrl2 & Hfar2 & Hnear2) & f2 & -> & Hdom2).
  specialize (Hnear2 Hnear1).
  pose proof (relinked_trans _ _ _ Hrl1 Hrl2) as Hrl.
  set (wx := set_heap f2 (set_heap f1 wb)) in *.
  assert (Hk2 : gritClass o2 = Some k) by (by rewrite (rl_class _ _ Hrl)).
  assert (Hfield : lookup_field wx o2 "deactivate" = lookup_field w o "deactivate").
  { unfold lookup_field. by rewrite (rl_values _ _ Hrl), (rl_class _ _ Hrl). }
  assert (Hcall : deactivate_call wx h o2 = deactivate_call w h o).
  { unfold deactivate_call, isActivated. by rewrite Hfield, (rl_lua _ _ Hrl). }
  (* the deactivate behaviour *)
  destruct (deactivate_quiet d wx h o2 k Ho2 Hk2 (ex_intro _ c Hc))
    as (b & wy & Hdeact & Hoy & Hothers & Hclasses_y & Hobjs_y & Hframe_y & Hstep_y
        & Hcounter_y & Hcalls_y).
  { intros s Hs. apply Hquiet. by rewrite <- Hfield. }
  rewrite Hcall in Hcalls_y.
  apply returns_bind. eapply returns_intro; [exact Hdeact|].
  (* released *)
  apply returns_bind. eapply returns_deref; [exact Hoy|].
  change (gritClass (obj_set_lua LUA_NOREF o2)) with (gritClass o2). rewrite Hk2.
  unfold class_release, tryUnloadResources.
  apply returns_bind, returns_bind. eapply returns_deref_class.
  { rewrite Hclasses_y. exact Hc. }
  apply returns_modify.
  apply returns_bind, returns_modify.
  apply returns_bind, returns_modify.
  apply returns_modify.
  set (o3 := obj_set_userValues ∅
               (obj_set_demand_loaded false
                  (obj_set_gritClass None (obj_set_lua LUA_NOREF o2)))).
  set (w3 := alter_obj (obj_set_userValues ∅) h _).
  assert (Ho3 : heap w3 !! h = Some o3).
  { unfold w3. rewrite !heap_alter_obj_eq.
    change (heap (set_classes _ wy)) with (heap wy).
    by rewrite Hoy. }
  (* out of the streamer *)
  apply returns_bind.
  assert (Hunlist : returns (streamer_unlist h) w3 (λ _ w4,
            heap w4 !! h = Some (obj_set_index (-1) o3) ∧
            objs w4 = objs w3 ∧ classes w4 = classes w3 ∧
            objs_needing_frame_callbacks w4 = objs_needing_frame_callbacks w3 ∧
            objs_needing_step_callbacks w4 = objs_needing_step_callbacks w3 ∧
            calls w4 = calls w3)).
  { unfold streamer_unlist.
    apply returns_bind. eapply returns_deref; [exact Ho3|].
    destruct (decide (index o3 = (-1)%Z)) as [Hi|Hi].
    - apply returns_ret. split_and!; try done.
      rewrite Ho3. f_equal. destruct o3; simpl in *. by rewrite Hi.
    - apply returns_modify. split_and!; try done. simpl.
      rewrite lookup_alter_eq.
      change (alter (obj_set_userValues ∅) h _ !! h) with (heap w3 !! h).
      by rewrite Ho3. }
  eapply returns_conseq; [exact Hunlist|].
  intros _ w4 (Ho4 & Hobjs4 & Hclasses4 & Hframe4 & Hstep4 & Hcalls4).
  apply returns_bind. eapply returns_deref; [exact Ho4|].
  assert (Hname : name (obj_set_index (-1) o3) = name o).
  { simpl. apply (rl_name _ _ Hrl). }
  assert (Hobjs3 : objs w3 = objs w) by (unfold w3; simpl; by rewrite Hobjs_y).
  assert (Hclasses3 : classes w3
            = <[k := mkClass (cname c) (refCount c - 1) (cfields c)]> (classes w)).
  { unfold w3. simpl. by rewrite Hclasses_y. }
  assert (Hframe3 : objs_needing_frame_callbacks w3
            = objs_needing_frame_callbacks w ∖ {[h]}).
  { unfold w3. simpl. by rewrite Hframe_y. }
  assert (Hstep3 : objs_needing_step_callbacks w3
            = objs_needing_step_callbacks w ∖ {[h]}).
  { unfold w3. simpl. by rewrite Hstep_y. }
  assert (Hcalls3 : calls w3 = (calls w ++ deactivate_call w h o)%list).
  { unfold w3. simpl. by rewrite Hcalls_y. }
  assert (Hfinal : ∀ w5,
    heap w5 = heap w4 → classes w5 = classes w4 →
    objs_needing_frame_callbacks w5 = objs_needing_frame_callbacks w4 →
    objs_needing_step_callbacks w5 = objs_needing_step_callbacks w4 →
    calls w5 = calls w4 →
    objs w5 = delete (name o) (objs w) →
    torn_down w5 h ∧
    objs w5 = delete (name o) (objs w) ∧
    calls w5 = (calls w ++ deactivate_call w h o)%list ∧
    classes w5 = <[k := mkClass (cname c) (refCount c - 1) (cfields c)]> (classes w) ∧
    objs_needing_frame_callbacks w5 = objs_needing_frame_callbacks w ∖ {[h]} ∧
    objs_needing_step_callbacks w5 = objs_needing_step_callbacks w ∖ {[h]}).
  { intros w5 Hh5 Hc5 Hf5 Hs5 Hcalls5 Hobjs5.
    split_and!; try congruence.
    split.
    - rewrite Hf5, Hframe4, Hframe3.
      apply not_elem_of_difference. right. by apply elem_of_singleton.
    - rewrite Hs5, Hstep4, Hstep3.
      apply not_elem_of_difference. right. by apply elem_of_singleton.
    - exists (obj_set_index (-1) o3). rewrite Hh5, Ho4, Hname, Hobjs5.
      split_and!; try done. apply lookup_delete_eq. }
  unfold returns. rewrite Hname, Hobjs4, Hobjs3.
  destruct (objs w !! name o) eqn:Hreg.
  - apply Hfinal; try done. simpl. by rewrite Hobjs4, Hobjs3.
  - apply Hfinal; try done. rewrite Hobjs4, Hobjs3. symmetry. by apply delete_id.
Qed.

(** X24. [object_del] on a live record whose [deactivate] behaviour, if
    one resolves, makes no call into the engine: the record is torn down
    and its name leaves the registry; if the record was activated and a
    behaviour resolves, that behaviour is invoked, once, and no other hook
    is; the class gives up one reference; the record leaves both callback
    sets, whose other members stay. *)
Theorem object_del_quiet d w h o k c :
  wf w →
  heap w !! h = Some o →
  gritClass o = Some k →
  classes w !! k = Some c →
  quiet_deactivate w o →
  ∃ w',
    object_del (host (S d)) h w = Ret tt w' ∧
    torn_down w' h ∧
    objs w' = delete (name o) (objs w) ∧
    calls w' = (calls w ++ deactivate_call w h o)%list ∧
    classes w' = <[k := mkClass (cname c) (refCount c - 1) (cfields c)]> (classes w) ∧
    objs_needing_frame_callbacks w' = objs_needing_frame_callbacks w ∖ {[h]} ∧
    objs_needing_step_callbacks w' = objs_needing_step_callbacks w ∖ {[h]}.
Proof.
  intros Hwf Ho Hk Hc Hquiet.
  destruct (returns_inv _ _ _
    (object_del_quiet_returns d w h o k c Hwf Ho Hk Hc Hquiet))
    as ([] & w' & Hrun & Hpost).
  by exists w'.
Qed.

Lemma object_del_quiet_witness :
  ∃ w',
    object_del (host 1) 2%positive chain_world = Ret tt w' ∧
    torn_down w' 2%positive ∧
    calls w' = (calls chain_world ++ [(2%positive, "deactivate")])%list.
Proof.
  destruct (object_del_quiet 0 chain_world 2%positive
              (default (example_object "" None) (heap chain_world !! 2%positive))
              2%positive
              (default (mkClass "" 0 ∅) (classes chain_world !! 2%positive)))
    as (w' & Hrun & Htorn & _ & Hcalls & _).
  - apply wf_check_sound. by vm_compute.
  - by vm_compute.
  - by vm_compute.
  - by vm_compute.
  - intros s Hs. vm_compute in Hs. by injection Hs as <-.
  - exists w'. exact (conj Hrun (conj Htorn Hcalls)).
Defined.

Lemma wf_alter_lua w h z : wf w → wf (alter_obj (obj_set_lua z) h w).
Proof.
  intros Hwf.
  assert (Hlook : ∀ x o, heap w !! x = Some o →
    ∃ o', heap (alter_obj (obj_set_lua z) h w) !! x = Some o' ∧
          gritClass o' = gritClass o ∧ name o' = name o ∧
          needsFrameCallbacks o' = needsFrameCallbacks o ∧
          needsStepCallbacks o' = needsStepCallbacks o).
  { intros x o Ho. destruct (decide (h = x)) as [<-|Hne].
    - rewrite heap_alter_obj_eq, Ho. by eexists.
    - rewrite heap_alter_obj_ne, Ho by done. by eexists. }
  split.
  - intros x o' k Ho' Hk.
    destruct (heap w !! x) as [o|] eqn:Ho.
    + destruct (Hlook x o Ho) as (o2 & Ho2 & Hc & _).
      apply (wf_class _ Hwf x o k Ho). congruence.
    + destruct (decide (h = x)) as [<-|Hne].
      * rewrite heap_alter_obj_eq, Ho in Ho'. done.
      * rewrite heap_alter_obj_ne, Ho in Ho' by done. done.
  - intros n x Hn. destruct (wf_objs _ Hwf n x Hn) as (o & Ho & Hname).
    destruct (Hlook x o Ho) as (o2 & Ho2 & _ & Hn2 & _). exists o2. split; congruence.
  - intros x Hin. destruct (wf_frame _ Hwf x Hin) as (o & Ho & Hflag).
    destruct (Hlook x o Ho) as (o2 & Ho2 & _ & _ & Hf2 & _). exists o2. split; congruence.
  - intros x Hin. destruct (wf_step _ Hwf x Hin) as (o & Ho & Hflag).
    destruct (Hlook x o Ho) as (o2 & Ho2 & _ & _ & _ & Hs2). exists o2. split; congruence.
Qed.

(** X25. A failed activation runs the [deactivate] behaviour. When the
    "activate" behaviour of a live, inactive, loaded record raises, the
    record is deleted; as the instance reference is taken before the call,
    the record counts as activated during the deletion, so its
    "deactivate" behaviour, if one resolves, is invoked right after
    "activate". The record ends up torn down and out of the registry.
    (Both behaviours make no call into the engine.) *)
Theorem activate_hook_raises d w h o sa :
  wf w →
  heap w !! h = Some o →
  gritClass o ≠ None →
  isActivated o = false →
  demand_loaded o = true →
  lua_next_ref w ≠ LUA_NOREF →
  lookup_field w o "activate" = Some sa →
  body sa = [] →
  finish sa = Raises →
  quiet_deactivate w o →
  ∃ w',
    activate (host (S d)) h w = Ret tt w' ∧
    torn_down w' h ∧
    objs w' = delete (name o) (objs w) ∧
    calls w' =
      (calls w ++ (h, "activate") ::
         match lookup_field w o "deactivate" with
         | Some _ => [(h, "deactivate")]
         | None => []
         end)%list.
Proof.
  intros Hwf Ho Hlive Hinactive Hloaded Href Ha Hba Hfa Hquiet.
  destruct (gritClass o) as [k|] eqn:Hk; [|done].
  destruct (wf_class _ Hwf h o k Ho Hk) as [c Hc].
  set (o1 := obj_set_lua (lua_next_ref w) o).
  set (w1 := set_calls (λ l, (l ++ [(h, "activate")])%list)
               (alter_obj (obj_set_lua (lua_next_ref w)) h
                  (set_lua_next_ref (lua_next_ref w + 1) w))).
  assert (Ho1 : heap w1 !! h = Some o1).
  { unfold w1. simpl. by rewrite lookup_alter_eq, Ho. }
  assert (Hact1 : isActivated o1 = true).
  { unfold isActivated, o1. simpl. apply negb_true_iff, Z.eqb_neq. exact Href. }
  assert (Hwf1 : wf w1).
  { unfold w1.
    apply (wf_descends (alter_obj (obj_set_lua (lua_next_ref w)) h
                          (set_lua_next_ref (lua_next_ref w + 1) w)));
      [|apply descends_set_calls].
    apply wf_alter_lua. by destruct Hwf. }
  assert (Hquiet1 : quiet_deactivate w1 o1).
  { intros s Hs. by apply Hquiet. }
  destruct (returns_inv _ _ _
    (object_del_quiet_returns d w1 h o1 k c Hwf1 Ho1 Hk Hc Hquiet1))
    as ([] & w' & Hdel & Htorn & Hobjs & Hcalls & _).
  exists w'. split.
  { unfold activate. unfold bind at 1. unfold deref.
    rewrite Ho, Hinactive, Hk, Hloaded.
    unfold bind at 1. unfold ret at 1. simpl.
    unfold bind at 1.
    rewrite (getField_live w h o k "activate" Ho Hk (ex_intro _ c Hc)), Ha.
    unfold bind at 1. unfold luaL_ref.
    unfold bind at 1. unfold modify at 1.
    unfold bind at 1.
    rewrite (lua_pcall_quiet d _ h "activate" sa Hba), Hfa.
    exact Hdel. }
  split; [exact Htorn|]. split; [exact Hobjs|].
  rewrite Hcalls. unfold deactivate_call. rewrite Hact1.
  change (lookup_field w1 o1 "deactivate") with (lookup_field w o "deactivate").
  unfold w1. simpl. by rewrite <- app_assoc.
Qed.

Lemma activate_hook_raises_witness :
  ∃ w',
    activate (host 1) 1%positive failing_world = Ret tt w' ∧
    torn_down w' 1%positive ∧
    calls w' = [(1%positive, "activate"); (1%positive, "deactivate")].
Proof.
  destruct (activate_hook_raises 0 failing_world 1%positive
              (default (example_object "" None) (heap failing_world !! 1%positive))
              (Script [] Raises))
    as (w' & Hrun & Htorn & _ & Hcalls).
  - apply wf_check_sound. by vm_compute.
  - by vm_compute.
  - by vm_compute.
  - by vm_compute.
  - by vm_compute.
  - by vm_compute.
  - by vm_compute.
  - done.
  - done.
  - intros s Hs. vm_compute in Hs. by injection Hs as <-.
  - exists w'. split; [exact Hrun|]. split; [exact Htorn|].
    rewrite Hcalls. by vm_compute.
Defined.

(* ================================================================= *)
(** ** Anonymous adds in a row *)

Lemma names_tried_finds cn (m : gmap string handle) : ∀ tries k j,
  (j ≤ tries)%nat →
  (k < 2 ^ 64)%N →
  (∀ i, (i < j)%nat →
        is_Some (m !! anonymous_name cn ((k + N.of_nat i) mod 2 ^ 64))) →
  m !! anonymous_name cn ((k + N.of_nat j) mod 2 ^ 64) = None →
  names_tried cn m tries k = S j.
Proof.
  induction tries as [|tries IH]; intros k j Hj Hk Htaken Hfree.
  - assert (j = 0)%nat as -> by lia. simpl.
    rewrite N.add_0_r, N.mod_small in * by done. by rewrite Hfree.
  - destruct j as [|j].
    + simpl. rewrite N.add_0_r, N.mod_small in * by done. by rewrite Hfree.
    + simpl. destruct (Htaken 0%nat ltac:(lia)) as [h Hh].
      rewrite N.add_0_r, N.mod_small in Hh by done. rewrite Hh.
      f_equal. apply IH.
      * lia.
      * apply counter_succ_lt.
      * intros i Hi. rewrite counter_succ_add.
        replace (N.of_nat i + 1)%N with (N.of_nat (S i)) by lia.
        apply Htaken. lia.
      * rewrite counter_succ_add.
        by replace (N.of_nat j + 1)%N with (N.of_nat (S j)) by lia.
Qed.

Lemma names_tried_pos cn (m : gmap string handle) tries k :
  (1 ≤ names_tried cn m tries k)%nat.
Proof. destruct tries; simpl; destruct (m !! _); lia. Qed.

(** One [object_add ("", c)], with the number of names it tries. *)
Lemma object_add_anonymous_tried run w c cc :
  classes w !! c = Some cc →
  (name_generation_counter w < 2 ^ 64)%N →
  (N.of_nat (size (objs w)) < 2 ^ 64)%N →
  ∃ j self w' o',
    object_add run "" c w = Ret self w' ∧
    names_tried (cname cc) (objs w) (size (objs w)) (name_generation_counter w) = S j ∧
    objs w !! anonymous_name (cname cc)
               ((name_generation_counter w + N.of_nat j) mod 2 ^ 64) = None ∧
    heap w !! self = None ∧
    objs w' = <[anonymous_name (cname cc)
                  ((name_generation_counter w + N.of_nat j) mod 2 ^ 64) := self]> (objs w) ∧
    heap w' = <[self := o']> (heap w) ∧
    name o' = anonymous_name (cname cc)
                ((name_generation_counter w + N.of_nat j) mod 2 ^ 64) ∧
    anonymous o' = true ∧
    name_generation_counter w' =
      ((name_generation_counter w + N.of_nat (S j)) mod 2 ^ 64)%N ∧
    classes w' = <[c := mkClass (cname cc) (refCount cc + 1) (cfields cc)]> (classes w).
Proof.
  intros Hc Hk Hsize.
  destruct (free_name_exists_wrap (cname cc) (objs w) (name_generation_counter w) Hsize)
    as (j0 & Hj0 & Hfree0).
  destruct (first_free_index (objs w)
              (λ j, anonymous_name (cname cc)
                      ((name_generation_counter w + N.of_nat j) mod 2 ^ 64)) j0 Hfree0)
    as (j & Hj & Hfree & Htaken).
  set (k := ((name_generation_counter w + N.of_nat j) mod 2 ^ 64)%N) in *.
  set (self := fresh (dom (heap w))).
  assert (Hfresh : heap w !! self = None).
  { apply not_elem_of_dom. apply is_fresh. }
  unfold object_add, bind, ret, deref_class. rewrite decide_True by done.
  rewrite Hc.
  rewrite (generate_name_finds_wrap (cname cc) (objs w) (size (objs w))
             (name_generation_counter w) j ltac:(lia) Hk Htaken Hfree).
  fold k. simpl. rewrite Hfree.
  unfold new_GritObject, class_acquire, bind, deref_class, modify, ret. simpl.
  rewrite Hc. fold self.
  unfold streamer_list, bind, deref, ret. simpl.
  rewrite lookup_alter_eq, lookup_insert_eq. simpl.
  exists j, self. eexists.
  exists (obj_set_index (streamer_next_index w)
            (obj_set_anonymous true
               (mkObject (anonymous_name (cname cc) k) false (Some c) LUA_NOREF
                  false false false 1 (-1) (0, 0, 0)%Q 0 (-1) None None ∅ false true))).
  split; [reflexivity|]. simpl.
  split_and!; try done.
  - apply (names_tried_finds (cname cc) (objs w) (size (objs w))
             (name_generation_counter w) j); [lia | done | done | done].
  - by rewrite alter_alter_eq, alter_insert_eq.
  - unfold counter_succ, k. rewrite N.Div0.add_mod_idemp_l. f_equal. lia.
Qed.

(** C6, as it holds. On a registry that stays below [2^64] names, [n]
    calls [object_add ("", c)] in a row all return, also across a wrap of
    the 64-bit counter; the records they create are registered under
    names [Unnamed:<class>:<counter>] none of which was in the registry
    before, and these names are pairwise distinct. The counter components
    are strictly increasing from call to call as long as the counter does
    not wrap before the last name is generated: the counter plus the
    number of names tried is at most [2^64]. Records and names that were
    there before are left as they were. *)
Theorem add_anonymous_names run c : ∀ n w cc,
  classes w !! c = Some cc →
  (name_generation_counter w < 2 ^ 64)%N →
  (N.of_nat (size (objs w) + n) ≤ 2 ^ 64)%N →
  ∃ ks hs w',
    add_anonymous run c n w = Ret hs w' ∧
    length hs = n ∧
    Forall2 (named_anonymously w' (cname cc)) hs ks ∧
    Forall (λ k, objs w !! anonymous_name (cname cc) k = None) ks ∧
    NoDup (anonymous_name (cname cc) <$> ks) ∧
    heap w ⊆ heap w' ∧
    objs w ⊆ objs w' ∧
    ((name_generation_counter w + N.of_nat (anonymous_tried run c n w) ≤ 2 ^ 64)%N →
     StronglySorted N.lt ks ∧
     Forall (λ k, (name_generation_counter w ≤ k)%N) ks).
Proof.
  induction n as [|n IH]; intros w cc Hc Hk Hsize.
  { exists [], [], w. split_and!; try done; try (by constructor).
    split; constructor. }
  destruct (object_add_anonymous_tried run w c cc Hc Hk ltac:(lia))
    as (j & self & w1 & o1 & Hadd & Htried & Hfree & Hfresh & Hobjs & Hheap
        & Hname & Hanon & Hcounter & Hclasses).
  set (k := ((name_generation_counter w + N.of_nat j) mod 2 ^ 64)%N) in *.
  assert (Hsize1 : size (objs w1) = S (size (objs w))).
  { rewrite Hobjs. by apply map_size_insert_None. }
  assert (Hc1 : classes w1 !! c
                = Some (mkClass (cname cc) (refCount cc + 1) (cfields cc))).
  { rewrite Hclasses. apply lookup_insert_eq. }
  destruct (IH w1 (mkClass (cname cc) (refCount cc + 1) (cfields cc)) Hc1)
    as (ks & hs & w' & Hrun & Hlen & Hnamed & Hfrees & Hnodup & Hheaps & Hnames
        & Hsorted).
  { rewrite Hcounter. by apply N.mod_lt. }
  { rewrite Hsize1. lia. }
  simpl in Hnamed, Hfrees, Hnodup, Hsorted.
  exists (k :: ks), (self :: hs), w'.
  rewrite map_subseteq_spec in Hheaps. rewrite map_subseteq_spec in Hnames.
  split_and!.
  - simpl. unfold bind. by rewrite Hadd, Hrun.
  - simpl. by rewrite Hlen.
  - constructor; [|done].
    exists o1. split_and!; try done.
    + apply Hheaps. rewrite Hheap. apply lookup_insert_eq.
    + apply Hnames. rewrite Hobjs. apply lookup_insert_eq.
  - constructor; [done|].
    eapply Forall_impl; [exact Hfrees|]. intros k' Hk'. simpl in Hk'.
    rewrite Hobjs in Hk'. apply lookup_insert_None in Hk'. tauto.
  - simpl. constructor; [|done].
    intros Hin. apply list_elem_of_fmap in Hin as (k' & Heq & Hin).
    rewrite Forall_forall in Hfrees. specialize (Hfrees k' Hin). simpl in Hfrees.
    rewrite <- Heq, Hobjs, lookup_insert_eq in Hfrees. done.
  - apply map_subseteq_spec. intros h o Ho. apply Hheaps.
    rewrite Hheap. rewrite lookup_insert_ne; [done|]. congruence.
  - apply map_subseteq_spec. intros x h Hx. apply Hnames.
    rewrite Hobjs. rewrite lookup_insert_ne; [done|]. congruence.
  - simpl. rewrite Hc, Htried, Hadd. simpl. intros Hnowrap.
    assert (Hksmall : (name_generation_counter w + N.of_nat j < 2 ^ 64)%N) by lia.
    assert (Hkeq : k = (name_generation_counter w + N.of_nat j)%N).
    { unfold k. by apply N.mod_small. }
    destruct n as [|n].
    + assert (ks = []) as ->.
      { apply Forall2_length in Hnamed. rewrite Hlen in Hnamed. by destruct ks. }
      split; repeat constructor. lia.
    + assert (Hpos : (1 ≤ anonymous_tried run c (S n) w1)%nat).
      { cbn [anonymous_tried]. rewrite Hc1.
        pose proof (names_tried_pos
                      (cname {| cname := cname cc; refCount := refCount cc + 1;
                                cfields := cfields cc |})
                      (objs w1) (size (objs w1)) (name_generation_counter w1)).
        lia. }
      assert (Hc1eq : name_generation_counter w1
                      = (name_generation_counter w + N.of_nat (S j))%N).
      { rewrite Hcounter. apply N.mod_small. lia. }
      destruct Hsorted as [Hsorted Hlow]; [rewrite Hc1eq; lia|].
      assert (Hlater : Forall (λ k', (k < k')%N) ks).
      { eapply Forall_impl; [exact Hlow|]. intros k'. simpl. lia. }
      split.
      * by constructor.
      * constructor; [lia|].
        eapply Forall_impl; [exact Hlow|]. intros k'. simpl. lia.
Qed.

(** Witness of C6: two anonymous adds with the counter three values
    before the wrap, the first of which is taken. Three names are tried,
    the last of them [2^64 - 1]: the counter wraps only after the last
    name has been generated. *)
Lemma add_anonymous_names_witness :
  ∃ ks hs w',
    add_anonymous (host 1) 1%positive 2 late_world = Ret hs w' ∧
    length hs = 2%nat ∧
    NoDup (anonymous_name "K" <$> ks) ∧
    StronglySorted N.lt ks.
Proof.
  destruct (add_anonymous_names (host 1) 1%positive 2 late_world
              (mkClass "K" 1 plain_fields))
    as (ks & hs & w' & Hrun & Hlen & _ & _ & Hnodup & _ & _ & Hsorted).
  - by vm_compute.
  - by vm_compute.
  - by vm_compute.
  - destruct Hsorted as [Hsorted _]; [by vm_compute|].
    exists ks, hs, w'. exact (conj Hrun (conj Hlen (conj Hnodup Hsorted))).
Defined.

(* ================================================================= *)
(** ** Rounding to binary32 *)

Section Binary32Facts.

Local Open Scope Q_scope.

Lemma rne_floor_le q : (Qfloor q <= rne q)%Z.
Proof. unfold rne. destruct (Qcompare _ _); [destruct (Z.even _)|..]; lia. Qed.

Lemma rne_le_floor q : (rne q <= Qfloor q + 1)%Z.
Proof. unfold rne. destruct (Qcompare _ _); [destruct (Z.even _)|..]; lia. Qed.

Lemma rne_Z z : rne (inject_Z z) = z.
Proof.
  unfold rne. rewrite Qfloor_Z.
  assert (H : Qcompare (inject_Z z - inject_Z z) (1 # 2) = Lt).
  { apply (proj1 (Qlt_alt _ _)). generalize (inject_Z z). intros a. lra. }
  by rewrite H.
Qed.

Lemma rne_mono x y : x <= y → (rne x <= rne y)%Z.
Proof.
  intros Hxy.
  pose proof (Qfloor_resp_le x y Hxy) as Hf.
  destruct (Z.eq_dec (Qfloor x) (Qfloor y)) as [Heq|Hne].
  - unfold rne. rewrite Heq.
    destruct (Qcompare (x - inject_Z (Qfloor y)) (1 # 2)) eqn:Hx;
      destruct (Qcompare (y - inject_Z (Qfloor y)) (1 # 2)) eqn:Hy;
      try (destruct (Z.even (Qfloor y))); try lia;
      exfalso;
      try apply (proj2 (Qeq_alt _ _)) in Hx; try apply (proj2 (Qlt_alt _ _)) in Hx;
      try apply (proj2 (Qgt_alt _ _)) in Hx;
      try apply (proj2 (Qeq_alt _ _)) in Hy; try apply (proj2 (Qlt_alt _ _)) in Hy;
      try apply (proj2 (Qgt_alt _ _)) in Hy;
      revert Hx Hy; generalize (inject_Z (Qfloor y)); intros a Hx Hy; lra.
  - pose proof (rne_le_floor x). pose proof (rne_floor_le y). lia.
Qed.

Lemma Qpower2_pos z : 0 < 2 ^ z.
Proof. by apply Qpower_0_lt. Qed.

Lemma Qpower2_succ z : 2 ^ (z + 1) == 2 * 2 ^ z.
Proof. rewrite Qpower_plus by done. change (2 ^ 1) with 2. ring. Qed.

Lemma Qpower2_pred z : 2 ^ z == 2 * 2 ^ (z - 1).
Proof.
  rewrite <- Qpower2_succ. by replace (z - 1 + 1)%Z with z by lia.
Qed.

Lemma ilog2_spec q : 0 < q → 2 ^ ilog2 q <= q ∧ q < 2 ^ (ilog2 q + 1).
Proof.
  intros Hq. destruct q as [n d]. unfold ilog2. simpl Qnum. simpl Qden.
  assert (Hn : (0 < n)%Z).
  { unfold Qlt in Hq. simpl in Hq. lia. }
  set (a := Z.log2 n). set (b := Z.log2 (Z.pos d)).
  destruct (Z.log2_spec n Hn) as [Ha1 Ha2]. fold a in Ha1, Ha2.
  destruct (Z.log2_spec (Z.pos d) ltac:(done)) as [Hb1 Hb2]. fold b in Hb1, Hb2.
  assert (Ha0 : (0 <= a)%Z) by apply Z.log2_nonneg.
  assert (Hb0 : (0 <= b)%Z) by apply Z.log2_nonneg.
  rewrite Z.pow_succ_r in Ha2, Hb2 by done.
  assert (HA : inject_Z (2 ^ a) == 2 ^ a) by (by apply Zpower_Qpower).
  assert (HB : inject_Z (2 ^ b) == 2 ^ b) by (by apply Zpower_Qpower).
  assert (Hz : 2 ^ (a - b) * 2 ^ b == 2 ^ a).
  { rewrite <- Qpower_plus by done. by replace (a - b + b)%Z with a by lia. }
  assert (Hx : (n # d) * inject_Z (Z.pos d) == inject_Z n).
  { rewrite (Qmake_Qdiv n d). field. done. }
  assert (H1 : inject_Z (2 ^ a) <= inject_Z n) by (by rewrite <- Zle_Qle).
  assert (H2 : inject_Z n < 2 * inject_Z (2 ^ a)).
  { change 2 with (inject_Z 2). rewrite <- inject_Z_mult, <- Zlt_Qlt. done. }
  assert (H3 : inject_Z (2 ^ b) <= inject_Z (Z.pos d)) by (by rewrite <- Zle_Qle).
  assert (H4 : inject_Z (Z.pos d) < 2 * inject_Z (2 ^ b)).
  { change 2 with (inject_Z 2). rewrite <- inject_Z_mult, <- Zlt_Qlt. done. }
  rewrite HA in H1, H2. rewrite HB in H3, H4.
  pose proof (Qpower2_pos a) as Hpa. pose proof (Qpower2_pos b) as Hpb.
  pose proof (Qpower2_pos (a - b)) as Hpz.
  revert Hx H1 H2 H3 H4 Hz Hpa Hpb Hpz.
  generalize (inject_Z n) (inject_Z (Z.pos d)) (2 ^ a) (2 ^ b).
  intros N D A B Hx H1 H2 H3 H4 Hz Hpa Hpb Hpz.
  destruct (Qle_bool (2 ^ (a - b)) (n # d)) eqn:Hle.
  - apply Qle_bool_iff in Hle. split; [done|].
    rewrite Qpower2_succ.
    revert Hx Hz Hpz Hq. generalize (2 ^ (a - b)) (n # d). intros y x Hx Hz Hpz Hq.
    nra.
  - assert (Hlt : n # d < 2 ^ (a - b)).
    { apply Qnot_le_lt. intros H. apply Qle_bool_iff in H. congruence. }
    replace (a - b - 1 + 1)%Z with (a - b)%Z by lia. split; [|done].
    pose proof (Qpower2_pred (a - b)) as Hp.
    pose proof (Qpower2_pos (a - b - 1)) as Hpz'.
    revert Hx Hz Hpz Hq Hp Hpz' Hlt.
    generalize (2 ^ (a - b)) (2 ^ (a - b - 1)) (n # d).
    intros y y' x Hx Hz Hpz Hq Hp Hpz' Hlt.
    nra.
Qed.

Lemma ilog2_unique q z : 0 < q → 2 ^ z <= q → q < 2 ^ (z + 1) → ilog2 q = z.
Proof.
  intros Hq H1 H2. destruct (ilog2_spec q Hq) as [H3 H4].
  assert (Ha : (ilog2 q < z + 1)%Z).
  { apply (Qpower_lt_compat_l_inv 2); [|done]. lra. }
  assert (Hb : (z < ilog2 q + 1)%Z).
  { apply (Qpower_lt_compat_l_inv 2); [|done]. lra. }
  lia.
Qed.

Lemma ilog2_mono x y : 0 < x → x <= y → (ilog2 x <= ilog2 y)%Z.
Proof.
  intros Hx Hxy.
  destruct (ilog2_spec x Hx) as [H1 H2].
  destruct (ilog2_spec y ltac:(lra)) as [H3 H4].
  assert (Ha : (ilog2 x < ilog2 y + 1)%Z).
  { apply (Qpower_lt_compat_l_inv 2); [|done]. lra. }
  lia.
Qed.

Lemma rne_ge z q : inject_Z z <= q → (z <= rne q)%Z.
Proof. intros H. rewrite <- (rne_Z z). by apply rne_mono. Qed.

Lemma rne_le z q : q <= inject_Z z → (rne q <= z)%Z.
Proof. intros H. rewrite <- (rne_Z z). by apply rne_mono. Qed.

Lemma binary32_pos_eq q : binary32_pos q = inject_Z (rne (q / 2 ^ cexp q)) * 2 ^ cexp q.
Proof. done. Qed.

Lemma Qdiv_pow2 q e : q / 2 ^ e * 2 ^ e == q.
Proof. field. apply Qpower_not_0. done. Qed.

Lemma Qdiv_pow2_le x y e : x <= y → x / 2 ^ e <= y / 2 ^ e.
Proof.
  intros H. pose proof (Qpower2_pos e).
  apply Qle_shift_div_l; [done|]. rewrite Qdiv_pow2. done.
Qed.

Lemma binary32_pos_nonneg q : 0 < q → 0 <= binary32_pos q.
Proof.
  intros Hq. rewrite binary32_pos_eq.
  pose proof (Qpower2_pos (cexp q)) as Hp.
  assert (H : (0 <= rne (q / 2 ^ cexp q))%Z).
  { apply rne_ge. change (inject_Z 0) with 0. apply Qle_shift_div_l; [done|]. lra. }
  rewrite Zle_Qle in H. change (inject_Z 0) with 0 in H.
  apply Qmult_le_0_compat; lra.
Qed.

Lemma binary32_pos_upper q : 0 < q → binary32_pos q <= 2 ^ (cexp q + 24).
Proof.
  intros Hq. rewrite binary32_pos_eq.
  pose proof (Qpower2_pos (cexp q)) as Hp.
  destruct (ilog2_spec q Hq) as [_ Hup].
  assert (Hle : 2 ^ (ilog2 q + 1) <= 2 ^ (cexp q + 24)).
  { apply Qpower_le_compat_l; [unfold cexp; lia | lra]. }
  assert (H : (rne (q / 2 ^ cexp q) <= 2 ^ 24)%Z).
  { apply rne_le. rewrite Zpower_Qpower by done. change (inject_Z 2) with 2.
    apply Qle_shift_div_r; [done|].
    rewrite <- Qpower_plus by done. rewrite Z.add_comm. lra. }
  rewrite Zle_Qle in H. rewrite Zpower_Qpower in H by done.
  change (inject_Z 2) with 2 in H.
  rewrite (Z.add_comm (cexp q) 24), Qpower_plus by done.
  apply Qmult_le_compat_r; lra.
Qed.

Lemma binary32_pos_lower q :
  0 < q → cexp q = (ilog2 q - 23)%Z → 2 ^ (cexp q + 23) <= binary32_pos q.
Proof.
  intros Hq He. rewrite binary32_pos_eq.
  pose proof (Qpower2_pos (cexp q)) as Hp.
  destruct (ilog2_spec q Hq) as [Hlo _].
  assert (H : (2 ^ 23 <= rne (q / 2 ^ cexp q))%Z).
  { apply rne_ge. rewrite Zpower_Qpower by done. change (inject_Z 2) with 2.
    apply Qle_shift_div_l; [done|].
    rewrite <- Qpower_plus by done.
    replace (23 + cexp q)%Z with (ilog2 q) by lia. done. }
  rewrite Zle_Qle in H. rewrite Zpower_Qpower in H by done.
  change (inject_Z 2) with 2 in H.
  rewrite (Z.add_comm (cexp q) 23), Qpower_plus by done.
  apply Qmult_le_compat_r; lra.
Qed.

Lemma binary32_pos_mono x y : 0 < x → x <= y → binary32_pos x <= binary32_pos y.
Proof.
  intros Hx Hxy.
  assert (Hy : 0 < y) by lra.
  assert (He : (cexp x <= cexp y)%Z).
  { unfold cexp. pose proof (ilog2_mono x y Hx Hxy). lia. }
  destruct (Z.eq_dec (cexp x) (cexp y)) as [Heq|Hne].
  - rewrite !binary32_pos_eq, Heq.
    pose proof (Qpower2_pos (cexp y)) as Hp.
    apply Qmult_le_compat_r; [|lra].
    rewrite <- Zle_Qle. apply rne_mono. by apply Qdiv_pow2_le.
  - pose proof (binary32_pos_upper x Hx) as Hup.
    pose proof (binary32_pos_lower y Hy ltac:(unfold cexp in *; lia)) as Hlo.
    assert (Hle : 2 ^ (cexp x + 24) <= 2 ^ (cexp y + 23)).
    { apply Qpower_le_compat_l; [lia | lra]. }
    lra.
Qed.

Lemma binary32_mono x y : x <= y → binary32 x <= binary32 y.
Proof.
  intros Hxy. unfold binary32. rewrite !Qred_correct.
  destruct x as [nx dx], y as [ny dy]. simpl Qnum.
  assert (Hsx : ∀ n d, (0 < n)%Z → 0 < n # d) by (intros; unfold Qlt; simpl; lia).
  assert (Hnx : ∀ n d, (n < 0)%Z → 0 < - (n # d)) by (intros; unfold Qlt; simpl; lia).
  assert (Hord : (nx * Z.pos dy <= ny * Z.pos dx)%Z) by exact Hxy.
  destruct nx as [|px|px], ny as [|py|py]; try lra; try (exfalso; lia).
  - apply binary32_pos_nonneg. by apply Hsx.
  - apply binary32_pos_mono; [by apply Hsx | done].
  - pose proof (binary32_pos_nonneg (- (Z.neg px # dx)) ltac:(by apply Hnx)). lra.
  - pose proof (binary32_pos_nonneg (- (Z.neg px # dx)) ltac:(by apply Hnx)).
    pose proof (binary32_pos_nonneg (Z.pos py # dy) ltac:(by apply Hsx)). lra.
  - pose proof (binary32_pos_mono (- (Z.neg py # dy)) (- (Z.neg px # dx))
                  ltac:(by apply Hnx) ltac:(lra)). lra.
Qed.

Lemma binary32_proper x y : x == y → binary32 x == binary32 y.
Proof.
  intros Hxy. apply Qle_antisym; apply binary32_mono; lra.
Qed.

Lemma binary32_0 : binary32 0 = 0.
Proof. done. Qed.

Lemma binary32_1 : binary32 1 = 1.
Proof. by vm_compute. Qed.

Lemma binary32_nonneg x : 0 <= x → 0 <= binary32 x.
Proof. intros H. rewrite <- binary32_0. by apply binary32_mono. Qed.

Lemma binary32_le_1 x : x <= 1 → binary32 x <= 1.
Proof. intros H. rewrite <- binary32_1. by apply binary32_mono. Qed.

(** No binary32 value lies strictly between [1 - 2^-24] and 1. *)
Lemma binary32_below_1 y : binary32 y < 1 → binary32 y <= 1 - (1 # 16777216).
Proof.
  intros Hlt.
  destruct (Qlt_le_dec (1 # 2) y) as [Hhalf|Hhalf].
  - assert (Hy1 : y < 1).
    { apply Qnot_le_lt. intros H. apply binary32_mono in H.
      rewrite binary32_1 in H. lra. }
    assert (Hy0 : 0 < y) by lra.
    assert (Hlog : ilog2 y = (-1)%Z).
    { apply ilog2_unique; [done | |].
      - change (2 ^ (-1)) with (1 # 2). lra.
      - change (2 ^ (-1 + 1)) with 1. done. }
    assert (Heq : binary32 y == inject_Z (rne (y / 2 ^ (-24))) * 2 ^ (-24)).
    { unfold binary32. rewrite Qred_correct.
      destruct y as [n d]. simpl Qnum.
      assert (Hn : (0 < n)%Z) by (unfold Qlt in Hy0; simpl in Hy0; lia).
      destruct n; try lia.
      rewrite binary32_pos_eq. unfold cexp. rewrite Hlog. done. }
    rewrite Heq in Hlt |- *.
    assert (Hm : (rne (y / 2 ^ (-24)) < 2 ^ 24)%Z).
    { rewrite Zlt_Qlt. revert Hlt. generalize (inject_Z (rne (y / 2 ^ (-24)))).
      intros m Hlt. change (inject_Z (2 ^ 24)) with (16777216 # 1).
      change (2 ^ (-24)) with (1 # 16777216) in Hlt. lra. }
    assert (Hm' : (rne (y / 2 ^ (-24)) <= 2 ^ 24 - 1)%Z) by lia.
    rewrite Zle_Qle in Hm'. revert Hm'.
    generalize (inject_Z (rne (y / 2 ^ (-24)))). intros m Hm'.
    change (inject_Z (2 ^ 24 - 1)) with (16777215 # 1) in Hm'.
    change (2 ^ (-24)) with (1 # 16777216). lra.
  - apply binary32_mono in Hhalf.
    assert (H : binary32 (1 # 2) = 1 # 2) by (by vm_compute).
    rewrite H in Hhalf. lra.
Qed.

(** [1 - x] does not round to zero for a binary32 value [x] below 1. *)
Lemma binary32_one_minus y : binary32 y < 1 → 0 < binary32 (1 - binary32 y).
Proof.
  intros Hlt. pose proof (binary32_below_1 y Hlt) as Hle.
  assert (H : binary32 (1 # 16777216) <= binary32 (1 - binary32 y)).
  { apply binary32_mono. lra. }
  assert (Hc : binary32 (1 # 16777216) = 1 # 16777216) by (by vm_compute).
  rewrite Hc in H. lra.
Qed.

End Binary32Facts.

(* ================================================================= *)
(** ** The fade calculator in binary32 *)

(** [calcFade] is [calcFade_rounded] without rounding. *)
Lemma calcFade_rounded_exact sqrtf self range2 overlap w :
  calcFade_rounded (λ q, q) sqrtf self range2 overlap w
  = calcFade sqrtf self range2 overlap w.
Proof. reflexivity. Qed.

(** [binary32] agrees with the Standard Library's specification of IEEE
    754 arithmetic at precision 24 and maximal exponent 128 on the
    operations of the fade examples below, and also on a tie, on a
    subnormal result and on an underflow. *)
Lemma binary32_agrees_with_SpecFloat :
  Q_of_spec_float (SFdiv 24 128 (S754_finite false 14 0) (S754_finite false 15 0))
    = fdiv 14 15 ∧
  Q_of_spec_float (SFsub 24 128 (S754_finite false 1 0)
                     (S754_finite false 8388609 (-26)))
    = fsub 1 (8388609 # 67108864) ∧
  Q_of_spec_float (SFdiv 24 128 (S754_finite false 7 (-3)) (S754_finite false 15 (-4)))
    = fdiv (7 # 8) (15 # 16) ∧
  Q_of_spec_float (SFsqrt 24 128 (S754_finite false 4194305 (-28)))
    = sqrtf_binary32 (4194305 # 268435456) ∧
  Q_of_spec_float (SFsqrt 24 128 (S754_finite false 2 0)) = sqrtf_binary32 2 ∧
  Q_of_spec_float (SFadd 24 128 (S754_finite false 33554432 0) (S754_finite false 2 0))
    = fadd 33554432 2 ∧
  Q_of_spec_float (SFdiv 24 128 (S754_finite false 1 0) (S754_finite false 3 147))
    = fdiv 1 (3 * 2 ^ 147) ∧
  Q_of_spec_float (SFdiv 24 128 (S754_finite false 1 0) (S754_finite false 3 149))
    = fdiv 1 (3 * 2 ^ 149).
Proof. split_and!; by vm_compute. Qed.

Section Fade32.

Local Open Scope Q_scope.

Variable sqrtf : Q → Q.

Lemma clamp0_mono a b : a <= b → clamp0 a <= clamp0 b.
Proof.
  intros H. unfold clamp0.
  destruct (Qlt_le_dec a 0), (Qlt_le_dec b 0); lra.
Qed.

Lemma clamp0_nonpos a : a <= 0 → clamp0 a == 0.
Proof. intros H. unfold clamp0. destruct (Qlt_le_dec a 0); lra. Qed.

(** The linear fall-off [(1 - range) / (1 - t)] in binary32, for a
    threshold [t] whose distance to 1 does not round to zero. *)
Lemma ramp32_le_1 t range :
  0 < fsub 1 t → t <= range → fdiv (fsub 1 range) (fsub 1 t) <= 1.
Proof.
  intros Hpos Hle. unfold fdiv. apply binary32_le_1.
  apply Qle_shift_div_r; [done|].
  assert (fsub 1 range <= fsub 1 t) by (apply binary32_mono; lra).
  lra.
Qed.

Lemma ramp32_nonneg t range :
  0 < fsub 1 t → range <= 1 → 0 <= fdiv (fsub 1 range) (fsub 1 t).
Proof.
  intros Hpos Hle. unfold fdiv. apply binary32_nonneg.
  apply Qle_shift_div_l; [done|].
  assert (0 <= fsub 1 range) by (apply binary32_nonneg; lra).
  lra.
Qed.

Lemma ramp32_nonpos t range :
  0 < fsub 1 t → 1 <= range → fdiv (fsub 1 range) (fsub 1 t) <= 0.
Proof.
  intros Hpos Hle. unfold fdiv. rewrite <- binary32_0. apply binary32_mono.
  apply Qle_shift_div_r; [done|].
  assert (fsub 1 range <= 0).
  { unfold fsub. rewrite <- binary32_0. apply binary32_mono. lra. }
  lra.
Qed.

Lemma ramp32_mono t r r' :
  0 < fsub 1 t → r <= r' →
  fdiv (fsub 1 r') (fsub 1 t) <= fdiv (fsub 1 r) (fsub 1 t).
Proof.
  intros Hpos Hle. unfold fdiv. apply binary32_mono.
  apply Qle_shift_div_l; [done|].
  assert (fsub 1 r' <= fsub 1 r) by (apply binary32_mono; lra).
  assert (fsub 1 r' / fsub 1 t * fsub 1 t == fsub 1 r') by (field; lra).
  lra.
Qed.

(** For a binary32 value below 1 the distance to 1 is not rounded to
    zero. *)
Lemma fsub_one_pos x : binary32 x == x → x < 1 → 0 < fsub 1 x.
Proof.
  intros Hx Hlt. unfold fsub.
  assert (H : binary32 (1 - x) == binary32 (1 - binary32 x)).
  { apply binary32_proper. lra. }
  rewrite H. apply binary32_one_minus. lra.
Qed.

(** With no far neighbour and no activated near neighbour the call
    reduces to the fade-out ramp. *)
Lemma calcFade_binary32_no_far_eq w self o range2 overlap :
  heap w !! self = Some o → farObj o = None → no_active_near w o →
  calcFade_binary32 sqrtf self range2 overlap w =
    Ret (clamp0 (if Qlt_le_dec (streamer_fade_out_factor w) (sqrtf range2)
                 then fdiv (fsub 1 (sqrtf range2))
                        (fsub 1 (streamer_fade_out_factor w))
                 else 1), overlap)
        (alter_obj (obj_set_imposedFarFade 1) self w).
Proof.
  intros Hself Hfar Hnear.
  unfold calcFade_binary32, calcFade_rounded, bind, deref, ret. rewrite Hself.
  unfold no_active_near in Hnear. unfold clamp0, fdiv, fsub.
  destruct (nearObj o) as [n|].
  - destruct Hnear as (no & -> & ->). rewrite Hfar.
    destruct (Qlt_le_dec 1 0) as [?|_]; [lra|]. done.
  - rewrite Hfar.
    destruct (Qlt_le_dec 1 0) as [?|_]; [lra|]. done.
Qed.

(** C2, as it holds. For a record with no far neighbour and no
    activated near neighbour, a fade-out factor that is a binary32 value,
    and [range = sqrtf range2] in [[0,1]]: the fade returned is exactly 1
    when [range] is at or below the fade-out factor; above it the fade is
    the binary32 quotient of [1 - range] and [1 - fadeOutFactor], each
    rounded to binary32, which lies in [[0,1]] and is 0 at [range = 1];
    the fade does not increase when the range grows within [[0,1]]; the
    [imposedFarFade] written is 1. *)
Theorem calcFade_binary32_no_far w self o range2 overlap :
  heap w !! self = Some o →
  farObj o = None →
  no_active_near w o →
  in_unit_interval (sqrtf range2) →
  binary32 (streamer_fade_out_factor w) == streamer_fade_out_factor w →
  let range := sqrtf range2 in
  let out := streamer_fade_out_factor w in
  ∃ fade w',
    calcFade_binary32 sqrtf self range2 overlap w = Ret (fade, overlap) w' ∧
    getImposedFarFade w' self = Some 1 ∧
    (range <= out → fade = 1) ∧
    (out < range → fade = fdiv (fsub 1 range) (fsub 1 out)) ∧
    in_unit_interval fade ∧
    (out < range → range == 1 → fade == 0) ∧
    (∀ range2' overlap' fade' ov' w'',
       range <= sqrtf range2' → sqrtf range2' <= 1 →
       calcFade_binary32 sqrtf self range2' overlap' w = Ret (fade', ov') w'' →
       fade' <= fade).
Proof.
  intros Hself Hfar Hnear [Hr0 Hr1] Hout range out.
  pose proof (calcFade_binary32_no_far_eq w self o) as Heq.
  rewrite (Heq range2 overlap Hself Hfar Hnear).
  fold out range.
  assert (Hpos : ∀ x, out < x → x <= 1 → 0 < fsub 1 out).
  { intros x Hx Hx1. apply fsub_one_pos; [done | lra]. }
  assert (Hunit : ∀ x, 0 <= x → x <= 1 →
            in_unit_interval
              (clamp0 (if Qlt_le_dec out x
                       then fdiv (fsub 1 x) (fsub 1 out) else 1))).
  { intros x Hx0 Hx1. split; [apply clamp0_nonneg|].
    destruct (Qlt_le_dec out x) as [Hlt|Hle].
    - pose proof (ramp32_le_1 out x (Hpos x Hlt Hx1) ltac:(lra)).
      pose proof (ramp32_nonneg out x (Hpos x Hlt Hx1) Hx1).
      rewrite clamp0_id by done. done.
    - rewrite clamp0_id by lra. lra. }
  eexists _, _. split; [reflexivity|].
  split; [by eapply getImposedFarFade_written|].
  split_and!.
  - intros Hle. destruct (Qlt_le_dec out range) as [?|_]; [lra|].
    apply clamp0_id. lra.
  - intros Hlt. destruct (Qlt_le_dec out range) as [_|?]; [|lra].
    apply clamp0_id. apply ramp32_nonneg; [by apply (Hpos range) | done].
  - by apply Hunit.
  - intros Hlt Hone. destruct (Qlt_le_dec out range) as [_|?]; [|lra].
    apply clamp0_nonpos. apply ramp32_nonpos; [by apply (Hpos range) | lra].
  - intros range2' overlap' fade' ov' w'' Hle Hle1 Hcall.
    rewrite (Heq range2' overlap' Hself Hfar Hnear) in Hcall.
    fold out in Hcall. injection Hcall as <- _ _.
    destruct (Qlt_le_dec out range) as [Hlt|Hge].
    + destruct (Qlt_le_dec out (sqrtf range2')) as [_|?]; [|lra].
      apply clamp0_mono, ramp32_mono; [by apply (Hpos range) | done].
    + assert (Hr0' : 0 <= sqrtf range2') by (unfold range in Hle; lra).
      destruct (Hunit (sqrtf range2') Hr0' Hle1) as [_ Hup].
      rewrite (clamp0_id 1) by lra. exact Hup.
Qed.

(** Beyond [overmid], with a far neighbour. *)
Lemma calcFade_binary32_far_eq w self o far range2 overlap :
  heap w !! self = Some o →
  near_valid w o →
  farObj o = Some far →
  fdiv (fadd (streamer_fade_overlap_factor w) 1) 2 < sqrtf range2 →
  calcFade_binary32 sqrtf self range2 overlap w =
    Ret (clamp0 (fdiv (fsub 1 (sqrtf range2))
                   (fsub 1 (fdiv (fadd (streamer_fade_overlap_factor w) 1) 2))),
         if Qlt_le_dec (near_fade w o) 1 then true else overlap)
        (alter_obj (obj_set_imposedFarFade 1) self w).
Proof.
  intros Hself Hnear Hfar Hrange.
  unfold calcFade_binary32, calcFade_rounded, bind, deref, ret. rewrite Hself.
  unfold near_valid in Hnear. unfold near_fade, clamp0.
  unfold fdiv, fadd, fsub in *.
  destruct (nearObj o) as [n|].
  - destruct Hnear as [no Hno]. rewrite Hno, Hfar.
    destruct (isActivated no).
    + destruct (Qlt_le_dec _ (sqrtf range2)) as [_|?]; [|lra].
      destruct (Qlt_le_dec 1 0) as [?|_]; [lra|]. done.
    + destruct (Qlt_le_dec _ (sqrtf range2)) as [_|?]; [|lra].
      destruct (Qlt_le_dec 1 0) as [?|_]; [lra|].
      destruct (Qlt_le_dec 1 1) as [?|_]; [lra|]. done.
  - rewrite Hfar.
    destruct (Qlt_le_dec _ (sqrtf range2)) as [_|?]; [|lra].
    destruct (Qlt_le_dec 1 0) as [?|_]; [lra|].
    destruct (Qlt_le_dec 1 1) as [?|_]; [lra|]. done.
Qed.

(** X17. With a far neighbour, at a range beyond [overmid], computed in
    binary32 as [(overlapFactor + 1) / 2] and below 1, the record fades
    out by itself: [imposedFarFade] is 1, and the fade returned is the
    binary32 quotient of [1 - range] and [1 - overmid] clamped at 0,
    whatever a near neighbour imposes; it lies in [[0,1]], is 0 from
    range 1 on, and does not increase when the range grows. *)
Theorem calcFade_binary32_far_beyond w self o far range2 overlap :
  heap w !! self = Some o →
  near_valid w o →
  farObj o = Some far →
  let range := sqrtf range2 in
  let overmid := fdiv (fadd (streamer_fade_overlap_factor w) 1) 2 in
  overmid < 1 →
  overmid < range →
  ∃ fade ov w',
    calcFade_binary32 sqrtf self range2 overlap w = Ret (fade, ov) w' ∧
    getImposedFarFade w' self = Some 1 ∧
    fade = clamp0 (fdiv (fsub 1 range) (fsub 1 overmid)) ∧
    in_unit_interval fade ∧
    (1 <= range → fade == 0) ∧
    (∀ range2' overlap' fade' ov' w'',
       range <= sqrtf range2' →
       calcFade_binary32 sqrtf self range2' overlap' w = Ret (fade', ov') w'' →
       fade' <= fade).
Proof.
  intros Hself Hnear Hfar range overmid Hmid Hrange.
  assert (Hpos : 0 < fsub 1 overmid).
  { unfold fsub, overmid, fdiv. apply binary32_one_minus. exact Hmid. }
  rewrite (calcFade_binary32_far_eq w self o far range2 overlap Hself Hnear Hfar Hrange).
  fold overmid range.
  eexists _, _, _. split; [reflexivity|].
  split; [by eapply getImposedFarFade_written|].
  split; [reflexivity|].
  split; [split|split].
  - apply clamp0_nonneg.
  - pose proof (ramp32_le_1 overmid range Hpos ltac:(lra)).
    unfold clamp0. destruct (Qlt_le_dec _ 0); lra.
  - intros Hone. apply clamp0_nonpos. by apply ramp32_nonpos.
  - intros range2' overlap' fade' ov' w'' Hle Hcall.
    rewrite (calcFade_binary32_far_eq w self o far range2' overlap' Hself Hnear Hfar)
      in Hcall by (fold overmid; lra).
    fold overmid in Hcall. injection Hcall as <- _ _.
    by apply clamp0_mono, ramp32_mono.
Qed.

End Fade32.

(** Counterexample to C2 as stated: with the fade-out factor at 1/16,
    the ranges [1/8] and [1/8 + 2^-26], square roots of the binary32
    values [1/64] and [1/64 + 2^-28], both lie above the factor, and the
    program returns the same fade [0x0.eeeeef] for both: the fade is not
    strictly decreasing, and at the second range it is not
    [(1 - range) / (1 - fadeOutFactor)]. *)
Lemma calcFade_binary32_plateau :
  binary32 (1 # 16) = (1 # 16)%Q ∧
  binary32 (1 # 64) = (1 # 64)%Q ∧
  binary32 (4194305 # 268435456) = (4194305 # 268435456)%Q ∧
  sqrtf_binary32 (1 # 64) = (1 # 8)%Q ∧
  sqrtf_binary32 (4194305 # 268435456) = (8388609 # 67108864)%Q ∧
  (streamer_fade_out_factor fade_world_sixteenth < 1 # 8)%Q ∧
  (1 # 8 < 8388609 # 67108864)%Q ∧
  (8388609 # 67108864 <= 1)%Q ∧
  calcFade_binary32 sqrtf_binary32 1%positive (1 # 64) false fade_world_sixteenth
    = Ret ((15658735 # 16777216)%Q, false)
        (alter_obj (obj_set_imposedFarFade 1) 1%positive fade_world_sixteenth) ∧
  calcFade_binary32 sqrtf_binary32 1%positive (4194305 # 268435456) false
      fade_world_sixteenth
    = Ret ((15658735 # 16777216)%Q, false)
        (alter_obj (obj_set_imposedFarFade 1) 1%positive fade_world_sixteenth) ∧
  ¬ (15658735 # 16777216 == (1 - (8388609 # 67108864)) / (1 - (1 # 16)))%Q.
Proof. split_and!; by vm_compute. Qed.

(** Witness of C2: fade-out factor 1/2 and range2 = 9/16, so the range
    is 3/4 and the fade is 1/2. *)
Lemma calcFade_binary32_no_far_witness :
  ∃ fade w',
    calcFade_binary32 sqrtf_binary32 1%positive (9 # 16) false fade_world_no_far
      = Ret (fade, false) w' ∧
    getImposedFarFade w' 1%positive = Some 1%Q ∧
    fade = (1 # 2)%Q.
Proof.
  destruct (calcFade_binary32_no_far sqrtf_binary32 fade_world_no_far 1%positive
              (example_object "a" (Some 1%positive)) (9 # 16) false)
    as (fade & w' & Hcall & Himp & _ & Hramp & _).
  - reflexivity.
  - reflexivity.
  - exact I.
  - split; by vm_compute.
  - by vm_compute.
  - exists fade, w'. split; [exact Hcall|]. split; [exact Himp|].
    rewrite Hramp by (by vm_compute). by vm_compute.
Defined.

(** Witness of X17: overlap factor 1/2, so [overmid] is 3/4; range2 =
    49/64 puts the range at 7/8, and the fade is 1/2. *)
Lemma calcFade_binary32_far_beyond_witness :
  ∃ fade ov w',
    calcFade_binary32 sqrtf_binary32 1%positive (49 # 64) false
      (fade_world_far (1 # 2)) = Ret (fade, ov) w' ∧
    getImposedFarFade w' 1%positive = Some 1%Q ∧
    fade = (1 # 2)%Q.
Proof.
  destruct (calcFade_binary32_far_beyond sqrtf_binary32 (fade_world_far (1 # 2))
              1%positive
              (obj_set_farObj (Some 2%positive) (example_object "a" (Some 1%positive)))
              2%positive (49 # 64) false)
    as (fade & ov & w' & Hcall & Himp & Heq & _).
  - reflexivity.
  - exact I.
  - reflexivity.
  - by vm_compute.
  - by vm_compute.
  - exists fade, ov, w'. split; [exact Hcall|]. split; [exact Himp|].
    rewrite Heq. by vm_compute.
Defined.

(* ================================================================= *)
(** ** Deleting through a hook of any host *)

Lemma bind_Ret {A B} (m : M A) (k : A → M B) w a w1 :
  m w = Ret a w1 → bind m k w = k a w1.
Proof. unfold bind. by intros ->. Qed.

Lemma alter_obj_id f h w o :
  heap w !! h = Some o → f o = o → alter_obj f h w = w.
Proof.
  intros Ho Hf. unfold alter_obj, set_heap.
  assert (alter f h (heap w) = heap w) as ->; [|by destruct w].
  apply map_eq. intros x. destruct (decide (h = x)) as [<-|Hne].
  - by rewrite lookup_alter_eq, Ho; simpl; rewrite Hf.
  - by rewrite lookup_alter_ne.
Qed.

Lemma drop_if (flag : bool) (f : World → World) w :
  (if flag then modify f else ret tt) w = Ret tt (if flag then f w else w).
Proof. by destruct flag. Qed.

(** The first part of [destroy] returns; it relinks records and takes
    the record out of the callback sets, and nothing else. *)
Lemma unhook_returns w h o :
  heap w !! h = Some o →
  ∃ wu,
    unhook h w = Ret tt wu ∧
    (∃ ou, heap wu !! h = Some ou ∧ relinked o ou ∧
           nearObj ou = None ∧ farObj ou = None) ∧
    (∀ x ox, heap w !! x = Some ox →
             ∃ ox', heap wu !! x = Some ox' ∧ relinked ox ox') ∧
    (∀ x, heap w !! x = None → heap wu !! x = None) ∧
    classes wu = classes w ∧
    objs wu = objs w ∧
    objs_needing_frame_callbacks wu =
      (if needsFrameCallbacks o then objs_needing_frame_callbacks w ∖ {[h]}
       else objs_needing_frame_callbacks w) ∧
    objs_needing_step_callbacks wu =
      (if needsStepCallbacks o then objs_needing_step_callbacks w ∖ {[h]}
       else objs_needing_step_callbacks w) ∧
    streamer_activated wu = streamer_activated w ∧
    calls wu = calls w ∧
    name_generation_counter wu = name_generation_counter w.
Proof.
  intros Ho.
  apply returns_inv_value. unfold unhook.
  apply returns_bind. eapply returns_deref; [done|].
  apply returns_bind. eapply returns_intro; [apply drop_if|].
  set (wa := if needsFrameCallbacks o then _ else w).
  apply returns_bind. eapply returns_intro; [apply drop_if|].
  set (wb := if needsStepCallbacks o then _ else wa).
  assert (Hheap_b : heap wb = heap w).
  { unfold wb, wa. by destruct (needsFrameCallbacks o), (needsStepCallbacks o). }
  assert (Hob : heap wb !! h = Some o) by (by rewrite Hheap_b).
  apply returns_bind. eapply returns_conseq.
  { apply returns_and; [|apply returns_and];
      [apply (setNearObj_None wb h o Hob)
      |apply (setNearObj_None_heap wb h o Hob)
      |apply (setNearObj_None_keeps (λ _, 0%nat) 0 wb h o Hob)]. }
  intros _ w1 ((_ & o1 & Ho1 & Hrl1 & Hnear1) & (f1 & -> & Hdom1) & Hkeep1).
  eapply returns_conseq.
  { apply returns_and; [|apply returns_and];
      [apply (setFarObj_None _ h o1 Ho1)
      |apply (setFarObj_None_heap _ h o1 Ho1)
      |apply (setFarObj_None_keeps (λ _, 0%nat) 0 _ h o1 Ho1)]. }
  intros [] w2 ((_ & o2 & Ho2 & Hrl2 & Hfar2 & Hnear2) & (f2 & -> & Hdom2) & Hkeep2).
  split; [done|].
  split_and!.
  - exists o2. split_and!; [done | by eapply relinked_trans | by apply Hnear2 | done].
  - intros x ox Hx. rewrite <- Hheap_b in Hx.
    destruct (Hkeep1 x ox (Nat.le_0_l _) Hx) as (ox1 & Hx1 & Hr1).
    destruct (Hkeep2 x ox1 (Nat.le_0_l _) Hx1) as (ox2 & Hx2 & Hr2).
    exists ox2. split; [done | by eapply relinked_trans].
  - intros x Hx. rewrite <- Hheap_b in Hx. simpl.
    apply eq_None_not_Some. rewrite Hdom2, Hdom1. by rewrite Hx; intros [? ?].
  - simpl. unfold wb, wa. by destruct (needsFrameCallbacks o), (needsStepCallbacks o).
  - simpl. unfold wb, wa. by destruct (needsFrameCallbacks o), (needsStepCallbacks o).
  - simpl. unfold wb, wa. by destruct (needsFrameCallbacks o), (needsStepCallbacks o).
  - simpl. unfold wb, wa. by destruct (needsFrameCallbacks o), (needsStepCallbacks o).
  - simpl. unfold wb, wa. by destruct (needsFrameCallbacks o), (needsStepCallbacks o).
  - simpl. unfold wb, wa. by destruct (needsFrameCallbacks o), (needsStepCallbacks o).
  - simpl. unfold wb, wa. by destruct (needsFrameCallbacks o), (needsStepCallbacks o).
Qed.

Lemma lookup_field_relinked w w' o o' f :
  classes w' = classes w → relinked o o' →
  lookup_field w' o' f = lookup_field w o f.
Proof.
  intros Hc Hrl. unfold lookup_field.
  by rewrite Hc, (rl_values _ _ Hrl), (rl_class _ _ Hrl).
Qed.

(** [deactivate] in the world that the first part of [destroy] has left:
    it returns as soon as the hook, if one is called, has. *)
Lemma deactivate_through run w h o k wu wm om :
  heap w !! h = Some o →
  gritClass o = Some k →
  is_Some (classes w !! k) →
  unhook h w = Ret tt wu →
  (∃ ou, heap wu !! h = Some ou ∧ relinked o ou) →
  classes wu = classes w →
  hook_done run h w = Some wm →
  heap wm !! h = Some om →
  ∃ b, deactivate run h wu = Ret b (alter_obj (obj_set_lua LUA_NOREF) h wm).
Proof.
  intros Ho Hk Hc Hun (ou & Hou & Hrl) Hclasses Hdone Hom.
  unfold hook_done, deactivate_site, unlisted in Hdone.
  rewrite Ho, Hun in Hdone. simpl in Hdone.
  assert (Hku : gritClass ou = Some k) by (by rewrite (rl_class _ _ Hrl)).
  assert (Hact : isActivated ou = isActivated o).
  { unfold isActivated. by rewrite (rl_lua _ _ Hrl). }
  destruct (isActivated o) eqn:Hactive.
  - unfold deactivate.
    rewrite (bind_Ret _ _ wu ou wu) by (unfold deref; by rewrite Hou).
    rewrite Hku, Hact. change (negb true) with false. cbv iota.
    rewrite (bind_Ret _ _ _ tt (set_activated (λ s, s ∖ {[h]}) wu)) by done.
    rewrite (bind_Ret _ _ _ _ _
               (getField_live (set_activated (λ s, s ∖ {[h]}) wu) h ou k "deactivate"
                  Hou Hku ltac:(simpl; by rewrite Hclasses))).
    rewrite (lookup_field_relinked w (set_activated (λ s, s ∖ {[h]}) wu) o ou)
      by done.
    destruct (lookup_field w o "deactivate") as [s|] eqn:Hs.
    + destruct (run h s _) as [st wm'| | |] eqn:Hrun; try done.
      injection Hdone as ->.
      assert (Hcall : lua_pcall run h "deactivate" s
                        (set_activated (λ s, s ∖ {[h]}) wu) = Ret st wm).
      { unfold lua_pcall, bind, modify. exact Hrun. }
      rewrite (bind_Ret _ _ _ _ _ Hcall).
      rewrite (bind_Ret _ _ wm om wm) by (unfold deref; by rewrite Hom).
      unfold bind, luaL_unref, modify, ret. by eexists.
    + injection Hdone as <-.
      rewrite (bind_Ret _ _ _ ou (set_activated (λ s, s ∖ {[h]}) wu))
        by (unfold deref; simpl; by rewrite Hou).
      unfold bind, luaL_unref, modify, ret. by eexists.
  - injection Hdone as <-. exists false.
    rewrite (deactivate_inactive run wu h ou Hou) by congruence.
    f_equal. symmetry. apply (alter_obj_id _ h wu ou Hou).
    apply obj_set_lua_id. apply isActivated_false_lua. congruence.
Qed.

Lemma torn_unindexed o :
  index o = (-1)%Z →
  obj_set_userValues ∅
    (obj_set_demand_loaded false (obj_set_gritClass None (obj_set_lua LUA_NOREF o)))
  = torn o.
Proof. intros Hi. unfold torn. destruct o; simpl in *. by rewrite Hi. Qed.

(** [object_del] of a live record, in terms of the world [wm] in which
    [destroy] goes on after the hook: the record is torn down there, its
    class gives up a reference and the name of the record is erased;
    nothing else changes. *)
Lemma object_del_through run w h o k wm om km cm :
  heap w !! h = Some o →
  gritClass o = Some k →
  is_Some (classes w !! k) →
  hook_done run h w = Some wm →
  heap wm !! h = Some om →
  gritClass om = Some km →
  classes wm !! km = Some cm →
  ∃ w',
    object_del run h w = Ret tt w' ∧
    heap w' !! h = Some (torn om) ∧
    (∀ x, x ≠ h → heap w' !! x = heap wm !! x) ∧
    classes w' = <[km := mkClass (cname cm) (refCount cm - 1) (cfields cm)]> (classes wm) ∧
    objs w' = delete (name om) (objs wm) ∧
    objs_needing_frame_callbacks w' = objs_needing_frame_callbacks wm ∧
    objs_needing_step_callbacks w' = objs_needing_step_callbacks wm ∧
    streamer_activated w' = streamer_activated wm ∧
    calls w' = calls wm ∧
    name_generation_counter w' = name_generation_counter wm.
Proof.
  intros Ho Hk Hc Hdone Hom Hkm Hcm.
  destruct (unhook_returns w h o Ho)
    as (wu & Hun & (ou & Hou & Hrl & _) & _ & _ & Hclasses & _).
  destruct (deactivate_through run w h o k wu wm om Ho Hk Hc Hun
              (ex_intro _ ou (conj Hou Hrl)) Hclasses Hdone Hom) as [b Hde].
  assert (Hdestroy : ∃ wd,
    destroy run h w = Ret tt wd ∧
    heap wd !! h =
      Some (obj_set_userValues ∅
              (obj_set_demand_loaded false
                 (obj_set_gritClass None (obj_set_lua LUA_NOREF om)))) ∧
    (∀ x, x ≠ h → heap wd !! x = heap wm !! x) ∧
    classes wd = <[km := mkClass (cname cm) (refCount cm - 1) (cfields cm)]> (classes wm) ∧
    objs wd = objs wm ∧
    objs_needing_frame_callbacks wd = objs_needing_frame_callbacks wm ∧
    objs_needing_step_callbacks wd = objs_needing_step_callbacks wm ∧
    streamer_activated wd = streamer_activated wm ∧
    calls wd = calls wm ∧
    name_generation_counter wd = name_generation_counter wm).
  { pose proof Hun as Hun'.
    unfold unhook in Hun'.
    apply bind_Ret_inv in Hun' as (o0 & w0 & Hd & Hun').
    unfold deref in Hd. rewrite Ho in Hd. injection Hd as <- <-.
    apply bind_Ret_inv in Hun' as ([] & wa & Ha & Hun').
    apply bind_Ret_inv in Hun' as ([] & wb & Hb & Hun').
    apply bind_Ret_inv in Hun' as ([] & wc & Hcn & Hun').
    unfold destroy.
    rewrite (bind_Ret _ _ w o w) by (unfold deref; by rewrite Ho).
    rewrite Hk.
    rewrite (bind_Ret _ _ _ _ _ Ha), (bind_Ret _ _ _ _ _ Hb),
      (bind_Ret _ _ _ _ _ Hcn), (bind_Ret _ _ _ _ _ Hun'),
      (bind_Ret _ _ _ _ _ Hde).
    rewrite (bind_Ret _ _ _ (obj_set_lua LUA_NOREF om)
               (alter_obj (obj_set_lua LUA_NOREF) h wm))
      by (unfold deref; by rewrite heap_alter_obj_eq, Hom).
    change (gritClass (obj_set_lua LUA_NOREF om)) with (gritClass om). rewrite Hkm.
    unfold class_release, tryUnloadResources.
    rewrite (bind_Ret _ _ _ tt
               (set_classes <[km := mkClass (cname cm) (refCount cm - 1) (cfields cm)]>
                  (alter_obj (obj_set_lua LUA_NOREF) h wm))).
    2:{ rewrite (bind_Ret _ _ _ cm (alter_obj (obj_set_lua LUA_NOREF) h wm)); [done|].
        unfold deref_class. simpl. by rewrite Hcm. }
    unfold bind, modify. eexists. split; [reflexivity|].
    split_and!; try done.
    - rewrite !heap_alter_obj_eq. simpl. by rewrite lookup_alter_eq, Hom.
    - intros x Hx. rewrite !heap_alter_obj_ne by done. simpl.
      by rewrite lookup_alter_ne. }
  destruct Hdestroy as (wd & Hdestroy & Hhd & Hothers & Hcd & Hod & Hfd & Hsd & Had
                        & Hcalls & Hcounter).
  set (o3 := obj_set_userValues ∅
               (obj_set_demand_loaded false
                  (obj_set_gritClass None (obj_set_lua LUA_NOREF om)))) in *.
  assert (Hunlist : ∃ we,
    streamer_unlist h wd = Ret tt we ∧
    heap we !! h = Some (torn om) ∧
    (∀ x, x ≠ h → heap we !! x = heap wd !! x) ∧
    classes we = classes wd ∧ objs we = objs wd ∧
    objs_needing_frame_callbacks we = objs_needing_frame_callbacks wd ∧
    objs_needing_step_callbacks we = objs_needing_step_callbacks wd ∧
    streamer_activated we = streamer_activated wd ∧
    calls we = calls wd ∧
    name_generation_counter we = name_generation_counter wd).
  { unfold streamer_unlist.
    rewrite (bind_Ret _ _ wd o3 wd) by (unfold deref; by rewrite Hhd).
    destruct (decide (index o3 = (-1)%Z)) as [Hi|Hi].
    - exists wd. split; [done|]. split_and!; try done.
      rewrite Hhd. f_equal. by apply torn_unindexed.
    - unfold modify. eexists. split; [reflexivity|]. simpl.
      split_and!; try done.
      + by rewrite lookup_alter_eq, Hhd.
      + intros x Hx. by rewrite lookup_alter_ne. }
  destruct Hunlist as (we & Hunlist & Hhe & Hothers_e & Hce & Hoe & Hfe & Hse & Hae
                       & Hcalls_e & Hcounter_e).
  unfold object_del.
  rewrite (bind_Ret _ _ _ _ _ Hdestroy), (bind_Ret _ _ _ _ _ Hunlist).
  rewrite (bind_Ret _ _ we (torn om) we) by (unfold deref; by rewrite Hhe).
  change (name (torn om)) with (name om).
  destruct (objs we !! name om) as [x|] eqn:Hreg.
  - eexists. split; [reflexivity|]. simpl.
    split_and!; try congruence.
    intros x' Hx'. rewrite Hothers_e by done. by apply Hothers.
  - exists we. split; [reflexivity|].
    split_and!; try congruence.
    + intros x' Hx'. rewrite Hothers_e by done. by apply Hothers.
    + rewrite <- Hod, <- Hoe. symmetry. by apply delete_id.
Qed.

(** [object_del] of a destroyed record: the record is unlisted and the
    entry under its name, whatever it is, is erased. *)
Lemma object_del_dead run w h o :
  heap w !! h = Some o →
  gritClass o = None →
  ∃ w',
    object_del run h w = Ret tt w' ∧
    heap w' !! h = Some (obj_set_index (-1) o) ∧
    (∀ x, x ≠ h → heap w' !! x = heap w !! x) ∧
    classes w' = classes w ∧
    objs w' = delete (name o) (objs w).
Proof.
  intros Ho Hdead. unfold object_del.
  rewrite (bind_Ret _ _ _ _ _ (destroy_destroyed run w h o Ho Hdead)).
  assert (Hunlist : ∃ we,
    streamer_unlist h w = Ret tt we ∧
    heap we !! h = Some (obj_set_index (-1) o) ∧
    (∀ x, x ≠ h → heap we !! x = heap w !! x) ∧
    classes we = classes w ∧ objs we = objs w).
  { unfold streamer_unlist.
    rewrite (bind_Ret _ _ w o w) by (unfold deref; by rewrite Ho).
    destruct (decide (index o = (-1)%Z)) as [Hi|Hi].
    - exists w. split; [done|]. split_and!; try done.
      rewrite Ho. f_equal. destruct o; simpl in *. by rewrite Hi.
    - unfold modify. eexists. split; [reflexivity|]. simpl.
      split_and!; try done.
      + by rewrite lookup_alter_eq, Ho.
      + intros x Hx. by rewrite lookup_alter_ne. }
  destruct Hunlist as (we & Hunlist & Hhe & Hothers & Hce & Hoe).
  rewrite (bind_Ret _ _ _ _ _ Hunlist).
  rewrite (bind_Ret _ _ we (obj_set_index (-1) o) we)
    by (unfold deref; by rewrite Hhe).
  change (name (obj_set_index (-1) o)) with (name o).
  destruct (objs we !! name o) as [x|] eqn:Hreg.
  - eexists. split; [reflexivity|]. simpl. split_and!; try done; congruence.
  - exists we. split; [reflexivity|]. split_and!; try done.
    rewrite <- Hoe. symmetry. by apply delete_id.
Qed.

(* ================================================================= *)
(** ** Replacing a record through a hook of any host *)











(* ================================================================= *)
(** ** Deleting all records through hooks of any host *)

Lemma persists_refl w : persists w w.
Proof. intros x ox Hx. by exists ox. Qed.

Lemma persists_trans w1 w2 w3 : persists w1 w2 → persists w2 w3 → persists w1 w3.
Proof.
  intros H12 H23 x ox Hx.
  destruct (H12 x ox Hx) as (ox2 & Hx2 & Hn2 & Hd2).
  destruct (H23 x ox2 Hx2) as (ox3 & Hx3 & Hn3 & Hd3).
  exists ox3. split_and!; [done | congruence | auto].
Qed.

Lemma persists_same_heap w w' : heap w' = heap w → persists w w'.
Proof. intros Heq x ox Hx. exists ox. by rewrite Heq. Qed.

Lemma persists_check_sound w w' : persists_check w w' = true → persists w w'.
Proof.
  unfold persists_check. rewrite forallb_forall. intros Hall x ox Hx.
  specialize (Hall (x, ox)). simpl in Hall.
  assert (Hin : In (x, ox) (map_to_list (heap w))).
  { apply list_elem_of_In. by apply elem_of_map_to_list. }
  specialize (Hall Hin).
  destruct (heap w' !! x) as [ox'|]; [|done].
  apply andb_true_iff in Hall as [Hname Hdead].
  exists ox'. split_and!; [done | by eapply bool_decide_eq_true |].
  intros Hnone. rewrite Hnone in Hdead. by eapply bool_decide_eq_true.
Qed.

Lemma classes_valid_check_sound w : classes_valid_check w = true → classes_valid w.
Proof.
  unfold classes_valid_check. rewrite forallb_forall. intros Hall x ox k Hx Hk.
  specialize (Hall (x, ox)). simpl in Hall. rewrite Hk in Hall.
  eapply bool_decide_eq_true, Hall.
  apply list_elem_of_In. by apply elem_of_map_to_list.
Qed.

Lemma polite_check_sound h names ws wm :
  polite_check h names ws wm = true → polite h names ws wm.
Proof.
  unfold polite_check. rewrite !andb_true_iff.
  intros [[[Halive Hheap] Hclasses] Hnames]. split.
  - destruct (heap wm !! h) as [om|]; [|done].
    exists om. split; [done|].
    apply bool_decide_eq_true in Halive as [k Hk]. congruence.
  - by apply persists_check_sound.
  - by apply classes_valid_check_sound.
  - rewrite forallb_forall in Hnames. intros n [x Hx].
    specialize (Hnames (n, x)). simpl in Hnames.
    eapply bool_decide_eq_true, Hnames.
    apply list_elem_of_In. by apply elem_of_map_to_list.
Qed.

Lemma sweep_hook_check_sound run h names w :
  sweep_hook_check run h names w = true → sweep_hook run h names w.
Proof.
  unfold sweep_hook_check, sweep_hook.
  destruct (deactivate_hook w h) as [s|]; [|done].
  destruct (run h s _) as [st wm| | |]; try done.
  apply polite_check_sound.
Qed.

Lemma sweep_contract_check_sound run : ∀ l w,
  sweep_contract_check run l w = true → sweep_contract run l w.
Proof.
  induction l as [|e rest IH]; intros w Hcheck; [done|].
  simpl in Hcheck. apply andb_true_iff in Hcheck as [Hhook Hrest].
  split; [by apply sweep_hook_check_sound | by apply IH].
Qed.

(** The world in which [destroy] goes on is polite: by the contract when
    a hook is called, and by itself otherwise. *)
Lemma hook_done_polite run w h o k names :
  heap w !! h = Some o →
  gritClass o = Some k →
  classes_valid w →
  (∀ n, is_Some (objs w !! n) → n ∈ names) →
  sweep_hook run h names w →
  ∃ wm, hook_done run h w = Some wm ∧ persists w wm ∧
        (∃ om, heap wm !! h = Some om ∧ gritClass om ≠ None) ∧
        classes_valid wm ∧
        (∀ n, is_Some (objs wm !! n) → n ∈ names).
Proof.
  intros Ho Hk Hvalid Hnames Hcontract.
  destruct (unhook_returns w h o Ho)
    as (wu & Hun & (ou & Hou & Hrl & _) & Hheap & _ & Hclasses & Hobjs & _).
  assert (Hpu : persists w wu).
  { intros x ox Hx. destruct (Hheap x ox Hx) as (ox' & Hx' & Hr).
    exists ox'. split_and!; [done | apply (rl_name _ _ Hr) |].
    by rewrite (rl_class _ _ Hr). }
  assert (Hquiet : ∀ wm,
    heap wm = heap wu → classes wm = classes wu → objs wm = objs wu →
    persists w wm ∧ (∃ om, heap wm !! h = Some om ∧ gritClass om ≠ None) ∧
    classes_valid wm ∧ (∀ n, is_Some (objs wm !! n) → n ∈ names)).
  { intros wm Hh Hc Hob. split_and!.
    - eapply persists_trans; [exact Hpu | by apply persists_same_heap].
    - exists ou. rewrite Hh. split; [done|]. rewrite (rl_class _ _ Hrl). congruence.
    - intros x ox kx Hx Hkx. rewrite Hh in Hx. rewrite Hc, Hclasses.
      destruct (heap w !! x) as [ox0|] eqn:Hx0.
      + destruct (Hheap x ox0 Hx0) as (ox' & Hx' & Hr).
        assert (ox' = ox) as -> by congruence.
        apply (Hvalid x ox0 kx Hx0). by rewrite <- (rl_class _ _ Hr).
      + destruct (unhook_returns w h o Ho) as (wu' & Hun' & _ & _ & Hdom & _).
        assert (wu' = wu) as -> by congruence.
        rewrite (Hdom x Hx0) in Hx. done.
    - intros n. rewrite Hob, Hobjs. apply Hnames. }
  unfold sweep_hook, deactivate_hook in Hcontract.
  unfold hook_done, unlisted. rewrite Ho in *. rewrite Hk in Hcontract.
  unfold deactivate_site, unlisted in *. rewrite Hun in *. simpl world_of in *.
  destruct (isActivated o) eqn:Hact.
  - destruct (lookup_field w o "deactivate") as [s|].
    + destruct (run h s _) as [st wm| | |]; try done.
      destruct Hcontract as [Halive Hp Hv Hn].
      exists wm. split_and!; try done.
      eapply persists_trans; [exact Hpu|].
      eapply persists_trans; [|exact Hp]. by apply persists_same_heap.
    + eexists. split; [reflexivity|]. by apply Hquiet.
  - exists wu. split; [done|]. by apply Hquiet.
Qed.

(** The sweep over a list of entries whose records exist and carry the
    names of their entries, in a registry that holds no other name. *)
Lemma for_each_sweep run : ∀ (l : list (string * handle)) w,
  (∀ n h, (n, h) ∈ l → ∃ o, heap w !! h = Some o ∧ name o = n) →
  (∀ n, is_Some (objs w !! n) → n ∈ l.*1) →
  classes_valid w →
  sweep_contract run l w →
  ∃ w',
    for_each (λ i, object_del run i.2) l w = Ret tt w' ∧
    objs w' = ∅ ∧
    persists w w' ∧
    ∀ n h, (n, h) ∈ l → ∃ o', heap w' !! h = Some o' ∧ gritClass o' = None.
Proof.
  induction l as [|[n h] rest IH]; intros w Hentries Hnames Hvalid Hcontract.
  { exists w. split_and!; [done | | apply persists_refl |].
    - apply map_empty. intros n. apply eq_None_not_Some. intros Hn.
      specialize (Hnames n Hn). by apply elem_of_nil in Hnames.
    - intros n h Hin. by apply elem_of_nil in Hin. }
  destruct Hcontract as [Hhook Hrest]. simpl in Hhook, Hrest.
  destruct (Hentries n h) as (o & Ho & Hname); [left|].
  (* the deletion of the first entry *)
  assert (Hstep : ∃ w2,
    object_del run h w = Ret tt w2 ∧
    persists w w2 ∧
    (∃ o2, heap w2 !! h = Some o2 ∧ gritClass o2 = None) ∧
    classes_valid w2 ∧
    (∀ n', is_Some (objs w2 !! n') → n' ∈ rest.*1)).
  { destruct (gritClass o) as [k|] eqn:Hk.
    - destruct (hook_done_polite run w h o k (n :: rest.*1) Ho Hk Hvalid Hnames Hhook)
        as (wm & Hdone & Hp & (om & Hom & Hlive) & Hvalid_m & Hnames_m).
      destruct (gritClass om) as [km|] eqn:Hkm; [|done].
      destruct (Hvalid_m h om km Hom Hkm) as [cm Hcm].
      destruct (object_del_through run w h o k wm om km cm Ho Hk
                  (Hvalid h o k Ho Hk) Hdone Hom Hkm Hcm)
        as (w2 & Hdel & Hh2 & Hothers & Hc2 & Hobjs2 & _).
      assert (Hnm : name om = n).
      { destruct (Hp h o Ho) as (om' & Hom' & Hn' & _). congruence. }
      exists w2. split_and!; [done | | by eexists | |].
      + intros x ox Hx. destruct (Hp x ox Hx) as (ox' & Hx' & Hn' & Hd').
        destruct (decide (x = h)) as [->|Hne].
        * exists (torn om). split_and!; [done | | done].
          change (name (torn om)) with (name om). congruence.
        * exists ox'. by rewrite Hothers.
      + intros x ox kx Hx Hkx. rewrite Hc2.
        destruct (decide (x = h)) as [->|Hne].
        * rewrite Hh2 in Hx. by injection Hx as <-.
        * rewrite Hothers in Hx by done.
          destruct (Hvalid_m x ox kx Hx Hkx) as [cx Hcx].
          destruct (decide (km = kx)) as [->|Hnk].
          -- rewrite lookup_insert_eq. by eexists.
          -- rewrite lookup_insert_ne by done. by eexists.
      + intros n' Hn'. rewrite Hobjs2, Hnm in Hn'.
        destruct (decide (n = n')) as [->|Hne].
        * rewrite lookup_delete_eq in Hn'. by destruct Hn'.
        * rewrite lookup_delete_ne in Hn' by done.
          specialize (Hnames_m n' Hn'). apply elem_of_cons in Hnames_m as [?|?]; [|done].
          congruence.
    - destruct (object_del_dead run w h o Ho Hk)
        as (w2 & Hdel & Hh2 & Hothers & Hc2 & Hobjs2).
      exists w2. split_and!; [done | | by eexists | |].
      + intros x ox Hx. destruct (decide (x = h)) as [->|Hne].
        * exists (obj_set_index (-1) o). split_and!; [done | | done].
          simpl. congruence.
        * exists ox. by rewrite Hothers.
      + intros x ox kx Hx Hkx. rewrite Hc2.
        destruct (decide (x = h)) as [->|Hne].
        * rewrite Hh2 in Hx. injection Hx as <-. simpl in Hkx. congruence.
        * rewrite Hothers in Hx by done. by apply (Hvalid x ox kx).
      + intros n' Hn'. rewrite Hobjs2, Hname in Hn'.
        destruct (decide (n = n')) as [->|Hne].
        * rewrite lookup_delete_eq in Hn'. by destruct Hn'.
        * rewrite lookup_delete_ne in Hn' by done.
          specialize (Hnames n' Hn').
          apply elem_of_cons in Hnames as [Heq|?]; [|done].
          simpl in Heq. congruence. }
  destruct Hstep as (w2 & Hdel & Hp2 & (o2 & Ho2 & Hdead2) & Hvalid2 & Hnames2).
  rewrite Hdel in Hrest. simpl in Hrest.
  destruct (IH w2) as (w' & Hrun & Hempty & Hp' & Hall); try done.
  { intros n' h' Hin. destruct (Hentries n' h') as (o' & Ho' & Hn'); [by right|].
    destruct (Hp2 h' o' Ho') as (o2' & Ho2' & Hn2 & _).
    exists o2'. split; [done | congruence]. }
  exists w'. split_and!.
  - simpl. by rewrite (bind_Ret _ _ _ _ _ Hdel).
  - done.
  - by eapply persists_trans.
  - intros n' h' Hin. apply elem_of_cons in Hin as [Heq|Hin]; [|by apply (Hall n')].
    injection Heq as -> ->.
    destruct (Hp' h o2 Ho2) as (o' & Ho' & _ & Hd').
    exists o'. split; [done | by apply Hd'].
Qed.

(** C4, as it holds. [object_all_del] deletes the entries of a snapshot
    of the registry. Provided that every [deactivate] hook that the sweep
    calls returns, leaves the record it is called for alive, frees, renames
    or revives no record, leaves class references valid, and registers no
    name other than those of the entry being deleted and of the entries
    still to come ([sweep_contract]; a hook may delete other records,
    replace records the sweep has still to visit, change subscriptions or
    activate records), the sweep returns without an error, every record
    that was registered when it started is destroyed, also those a hook
    had deleted before the sweep reached them, and the registry is
    empty. *)
Theorem object_all_del_sweeps run w :
  wf w →
  sweep_contract run (GObjMap_iter (objs w)) w →
  ∃ w',
    object_all_del run w = Ret tt w' ∧
    objs w' = ∅ ∧
    object_count w' = 0%Z ∧
    ∀ n h, objs w !! n = Some h →
           ∃ o', heap w' !! h = Some o' ∧ gritClass o' = None.
Proof.
  intros Hwf Hcontract.
  assert (Hsnap : ∀ n h, (n, h) ∈ GObjMap_iter (objs w) ↔ objs w !! n = Some h).
  { intros n h. unfold GObjMap_iter. rewrite merge_sort_Permutation.
    apply elem_of_map_to_list. }
  destruct (for_each_sweep run (GObjMap_iter (objs w)) w)
    as (w' & Hrun & Hempty & _ & Hall); try done.
  - intros n h Hin. apply (wf_objs w Hwf). by apply Hsnap.
  - intros n [h Hn]. apply list_elem_of_fmap. exists (n, h). split; [done|].
    by apply Hsnap.
  - intros x ox k. apply (wf_class w Hwf).
  - exists w'. split_and!; [done | done | |].
    + unfold object_count. by rewrite Hempty.
    + intros n h Hn. by apply (Hall n h), Hsnap.
Qed.

(** Witness of C4: in [meddling_world] the [deactivate] hook of "A"
    unsubscribes "A", subscribes "B" to step callbacks and replaces "B",
    which is still in the snapshot, by a new record. *)
Lemma object_all_del_sweeps_witness :
  ∃ w',
    object_all_del (host 2) meddling_world = Ret tt w' ∧
    objs w' = ∅ ∧
    object_count w' = 0%Z.
Proof.
  destruct (object_all_del_sweeps (host 2) meddling_world)
    as (w' & Hrun & Hempty & Hcount & _).
  - apply wf_check_sound. by vm_compute.
  - apply sweep_contract_check_sound. by vm_compute.
  - exists w'. exact (conj Hrun (conj Hempty Hcount)).
Defined.

(* ================================================================= *)
(** ** The frame pass through callbacks of any host *)














(* ================================================================= *)
(** ** Reaching the wrap of the counter *)

(** [object_add ("", c)] on an empty registry uses the counter as it
    stands. *)
Lemma object_add_anonymous_empty run w c cc :
  classes w !! c = Some cc →
  objs w = ∅ →
  ∃ self w' o',
    object_add run "" c w = Ret self w' ∧
    heap w !! self = None ∧
    heap w' = <[self := o']> (heap w) ∧
    objs w' = {[anonymous_name (cname cc) (name_generation_counter w) := self]} ∧
    name o' = anonymous_name (cname cc) (name_generation_counter w) ∧
    anonymous o' = true ∧
    gritClass o' = Some c ∧
    isActivated o' = false ∧
    name_generation_counter w' = counter_succ (name_generation_counter w) ∧
    classes w' = <[c := mkClass (cname cc) (refCount cc + 1) (cfields cc)]> (classes w).
Proof.
  intros Hc Hempty.
  set (k := name_generation_counter w).
  assert (Hfree : objs w !! anonymous_name (cname cc) k = None).
  { by rewrite Hempty, lookup_empty. }
  assert (Hgen : generate_name (cname cc) (objs w) (size (objs w)) k
                 = Some (anonymous_name (cname cc) k, counter_succ k)).
  { destruct (size (objs w)); cbn [generate_name]; by rewrite Hfree. }
  set (self := fresh (dom (heap w))).
  assert (Hfresh : heap w !! self = None).
  { apply not_elem_of_dom. apply is_fresh. }
  unfold object_add, bind, ret, deref_class. rewrite decide_True by done.
  rewrite Hc. fold k. rewrite Hgen. simpl. rewrite Hfree.
  unfold new_GritObject, class_acquire, bind, deref_class, modify, ret. simpl.
  rewrite Hc. fold self.
  unfold streamer_list, bind, deref, ret. simpl.
  rewrite lookup_alter_eq, lookup_insert_eq. simpl.
  exists self. eexists.
  exists (obj_set_index (streamer_next_index w)
            (obj_set_anonymous true
               (mkObject (anonymous_name (cname cc) k) false (Some c) LUA_NOREF
                  false false false 1 (-1) (0, 0, 0)%Q 0 (-1) None None ∅ false true))).
  split; [reflexivity|]. simpl.
  split_and!; try done.
  - by rewrite alter_alter_eq, alter_insert_eq.
  - by rewrite Hempty, insert_empty.
Qed.

(** One round: the registry and the class table are as before, and the
    counter has advanced by one. *)
Lemma churn_round run w c cc :
  classes w !! c = Some cc →
  objs w = ∅ →
  ∃ self w1 w2,
    object_add run "" c w = Ret self w1 ∧
    object_del run self w1 = Ret tt w2 ∧
    objs w2 = ∅ ∧
    classes w2 = classes w ∧
    name_generation_counter w2 = counter_succ (name_generation_counter w).
Proof.
  intros Hc Hempty.
  destruct (object_add_anonymous_empty run w c cc Hc Hempty)
    as (self & w1 & o1 & Hadd & Hfresh & Hheap & Hobjs & Hname & _ & Hk & Hinactive
        & Hcounter & Hclasses).
  assert (Ho1 : heap w1 !! self = Some o1) by (rewrite Hheap; apply lookup_insert_eq).
  assert (Hc1 : classes w1 !! c
                = Some (mkClass (cname cc) (refCount cc + 1) (cfields cc))).
  { rewrite Hclasses. apply lookup_insert_eq. }
  destruct (unhook_returns w1 self o1 Ho1)
    as (wu & Hun & (ou & Hou & Hrl & _) & _ & _ & Hclasses_u & Hobjs_u & _ & _ & _ & _
        & Hcounter_u).
  assert (Hdone : hook_done run self w1 = Some wu).
  { unfold hook_done. by rewrite Ho1, Hinactive, Hun. }
  destruct (object_del_through run w1 self o1 c wu ou c
              (mkClass (cname cc) (refCount cc + 1) (cfields cc))
              Ho1 Hk (ex_intro _ _ Hc1) Hdone Hou)
    as (w2 & Hdel & _ & _ & Hc2 & Hobjs2 & _ & _ & _ & _ & Hcounter2).
  { by rewrite (rl_class _ _ Hrl). }
  { by rewrite Hclasses_u. }
  exists self, w1, w2. split_and!; try done.
  - rewrite Hobjs2, Hobjs_u, Hobjs, (rl_name _ _ Hrl), Hname.
    apply delete_singleton_eq.
  - rewrite Hc2, Hclasses_u, Hclasses. simpl.
    rewrite insert_insert_eq. apply insert_id. rewrite Hc. f_equal.
    destruct cc; simpl. f_equal. lia.
  - by rewrite Hcounter2, Hcounter_u.
Qed.

(** [n] rounds advance the counter by [n]. *)
Lemma churn_counter run c cc : ∀ n w,
  classes w !! c = Some cc →
  objs w = ∅ →
  (name_generation_counter w + N.of_nat n < 2 ^ 64)%N →
  ∃ w',
    churn run c n w = Ret tt w' ∧
    objs w' = ∅ ∧
    classes w' = classes w ∧
    name_generation_counter w' = (name_generation_counter w + N.of_nat n)%N.
Proof.
  induction n as [|n IH]; intros w Hc Hempty Hbound.
  { exists w. split_and!; try done. lia. }
  destruct (churn_round run w c cc Hc Hempty)
    as (self & w1 & w2 & Hadd & Hdel & Hempty2 & Hclasses2 & Hcounter2).
  rewrite counter_succ_small in Hcounter2 by lia.
  destruct (IH w2) as (w' & Hrun & Hempty' & Hclasses' & Hcounter').
  - by rewrite Hclasses2.
  - done.
  - lia.
  - exists w'. split_and!; [|done|congruence|lia].
    cbn [churn]. by rewrite (bind_Ret _ _ _ _ _ Hadd), (bind_Ret _ _ _ _ _ Hdel).
Qed.

(** Counterexample to C6 as stated. Starting from the registry of a
    fresh engine (one class, no record, counter 0), [2^64 - 1] rounds of
    adding an anonymous record and deleting it leave the counter at its
    last value before the wrap, whatever the host; the next two anonymous
    adds in a row then return the counter components [2^64 - 1] and 0:
    the components are not increasing. *)
Lemma add_anonymous_wraps :
  ∃ w h1 h2 w',
    churn (host 1) 1%positive (N.to_nat (2 ^ 64 - 1)) (one_class plain_fields)
      = Ret tt w ∧
    name_generation_counter w = (2 ^ 64 - 1)%N ∧
    add_anonymous (host 1) 1%positive 2 w = Ret [h1; h2] w' ∧
    named_anonymously w' "K" h1 (2 ^ 64 - 1) ∧
    named_anonymously w' "K" h2 0 ∧
    ¬ (2 ^ 64 - 1 < 0)%N.
Proof.
  set (cc := mkClass "K" 0 plain_fields).
  assert (Hc0 : classes (one_class plain_fields) !! 1%positive = Some cc) by done.
  destruct (churn_counter (host 1) 1%positive cc (N.to_nat (2 ^ 64 - 1))
              (one_class plain_fields) Hc0 eq_refl)
    as (w & Hrun & Hempty & Hclasses & Hcounter).
  { rewrite N2Nat.id. change (name_generation_counter (one_class plain_fields)) with 0%N.
    lia. }
  rewrite N2Nat.id in Hcounter.
  change (name_generation_counter (one_class plain_fields)) with 0%N in Hcounter.
  rewrite N.add_0_l in Hcounter.
  assert (Hc : classes w !! 1%positive = Some cc) by (by rewrite Hclasses).
  destruct (object_add_anonymous_empty (host 1) w 1%positive cc Hc Hempty)
    as (h1 & w1 & o1 & Hadd1 & Hfresh1 & Hheap1 & Hobjs1 & Hname1 & Hanon1 & _ & _
        & Hcounter1 & Hclasses1).
  rewrite Hcounter in Hobjs1, Hname1, Hcounter1.
  change (cname cc) with "K" in *.
  assert (Hzero : name_generation_counter w1 = 0%N).
  { rewrite Hcounter1. by vm_compute. }
  assert (Hc1 : classes w1 !! 1%positive
                = Some (mkClass "K" (0 + 1) plain_fields)).
  { rewrite Hclasses1. apply lookup_insert_eq. }
  assert (Hfree0 : objs w1 !! anonymous_name "K" 0 = None).
  { rewrite Hobjs1. apply lookup_singleton_ne.
    intros Heq. apply anonymous_name_inj in Heq. done. }
  destruct (object_add_anonymous_tried (host 1) w1 1%positive _ Hc1)
    as (j & h2 & w2 & o2 & Hadd2 & Htried & _ & Hfresh2 & Hobjs2 & Hheap2 & Hname2
        & Hanon2 & _).
  { rewrite Hzero. lia. }
  { rewrite Hobjs1, map_size_singleton. lia. }
  change (cname (mkClass "K" (0 + 1) plain_fields)) with "K" in *.
  rewrite Hzero in Htried, Hobjs2, Hname2.
  assert (j = 0%nat) as ->.
  { rewrite Hobjs1, map_size_singleton in Htried. cbn [names_tried] in Htried.
    rewrite <- Hobjs1, Hfree0 in Htried. by injection Htried. }
  change ((0 + N.of_nat 0) mod 2 ^ 64)%N with 0%N in *.
  assert (Hne : h1 ≠ h2).
  { intros ->. rewrite Hheap1, lookup_insert_eq in Hfresh2. done. }
  exists w, h1, h2, w2. split_and!.
  - exact Hrun.
  - exact Hcounter.
  - cbn [add_anonymous].
    rewrite (bind_Ret _ _ _ _ _ Hadd1).
    rewrite (bind_Ret _ _ w1 [h2] w2); [done|].
    by rewrite (bind_Ret _ _ _ _ _ Hadd2).
  - exists o1. split_and!; [|done|done|].
    + rewrite Hheap2, lookup_insert_ne by done. rewrite Hheap1. apply lookup_insert_eq.
    + rewrite Hobjs2, lookup_insert_ne.
      * rewrite Hobjs1. apply lookup_singleton_eq.
      * intros Heq. apply anonymous_name_inj in Heq. done.
  - exists o2. split_and!; [|done|done|].
    + rewrite Hheap2. apply lookup_insert_eq.
    + rewrite Hobjs2. apply lookup_insert_eq.
  - lia.
Qed.
